(** * fsquiztool: retrieval engine and question crawler

    A shallow embedding of [src/lib/docs/index.ts] (corpus loading, lexical
    search with per-file diversification, header-context expansion) and of
    the FS-Quiz lookup route (incremental crawler and fuzzy matcher),
    followed by the properties of the specification that concern them.

    Conventions of the embedding.
    - A JavaScript [number] that carries a score is an exact rational [Q];
      one that carries a count, an identifier or a length is a [Z].
    - A JavaScript string is a [string] of bytes.  Character classes are
      exact on ASCII text; a byte above 127 is kept as a letter.
    - A [Map] whose iteration order is observed is an association list in
      insertion order; a [Map] or [Set] that is only queried is a [gmap] or
      a [gset].
    - A function that throws returns [Err]; process-wide state (the corpus
      cache, the crawl state) is passed in and returned.
    - What lies outside the repository is an input: the file system as a
      call finds it, the JSON parser and MiniSearch as functions, the
      upstream question source as the answer it gives per identifier, the
      wall clock as the number of crawl rounds it lets through. *)

From Stdlib Require Import ZArith QArith Lqa String Ascii List Bool Lia Permutation.
From stdpp Require Import base option list gmap strings sorting.

Open Scope Z_scope.

(** ** Results of code that may throw *)

Inductive Result (E A : Type) : Type :=
| Ok (a : A)
| Err (e : E).
Arguments Ok {E A} a.
Arguments Err {E A} e.

(** ** JavaScript strings *)

Module Js.

Definition code (c : ascii) : N := N_of_ascii c.

Definition isUpper (c : ascii) : bool := ((65 <=? code c) && (code c <=? 90))%N.
Definition isLower (c : ascii) : bool := ((97 <=? code c) && (code c <=? 122))%N.
Definition isDigit (c : ascii) : bool := ((48 <=? code c) && (code c <=? 57))%N.

(** [\s] on ASCII: tab, line feed, vertical tab, form feed, carriage
    return, space. *)
Definition isSpace (c : ascii) : bool :=
  ((9 <=? code c) && (code c <=? 13) || (code c =? 32))%N.

(** [\p{L}]: ASCII letters, and every byte of a non-ASCII character. *)
Definition isLetter (c : ascii) : bool :=
  isUpper c || isLower c || (128 <=? code c)%N.

(** [\w], which decides the word boundary [\b]. *)
Definition isWordChar (c : ascii) : bool :=
  isUpper c || isLower c || isDigit c || (code c =? 95)%N.

Definition toLower (c : ascii) : ascii :=
  if isUpper c then ascii_of_N (code c + 32) else c.

Definition chars (s : string) : list ascii := list_ascii_of_string s.
Definition str (l : list ascii) : string := string_of_list_ascii l.

Definition len (s : string) : Z := Z.of_nat (String.length s).

Definition toLowerCase (s : string) : string := str (map toLower (chars s)).

Fixpoint dropSpaces (l : list ascii) : list ascii :=
  match l with
  | c :: r => if isSpace c then dropSpaces r else l
  | [] => []
  end.

(** [s.trim()] *)
Definition trimL (l : list ascii) : list ascii :=
  rev (dropSpaces (rev (dropSpaces l))).
Definition trim (s : string) : string := str (trimL (chars s)).

(** [s.replace(/[class]+/g, " ")]: every maximal run of characters of the
    class becomes one space. *)
Fixpoint replaceRuns (p : ascii -> bool) (inRun : bool) (l : list ascii)
  : list ascii :=
  match l with
  | [] => []
  | c :: r =>
      if p c then
        if inRun then replaceRuns p true r
        else " "%char :: replaceRuns p true r
      else c :: replaceRuns p false r
  end.

(** [s.replace(/\s+/g, " ")] *)
Definition collapseL (l : list ascii) : list ascii := replaceRuns isSpace false l.

(** [s.split(/\s+/g).map(t => t.trim()).filter(Boolean)]: the words
    between runs of white space; the empty strings that [split] yields at
    either end are the ones [filter(Boolean)] removes. *)
Fixpoint wordsL (cur : list ascii) (l : list ascii) : list (list ascii) :=
  match l with
  | [] => match cur with [] => [] | _ => [rev cur] end
  | c :: r =>
      if isSpace c then
        match cur with
        | [] => wordsL [] r
        | _ => rev cur :: wordsL [] r
        end
      else wordsL (c :: cur) r
  end.
Definition words (s : string) : list string := map str (wordsL [] (chars s)).

(** [s.split(sep)] for a separator of one character; keeps empty pieces. *)
Fixpoint splitOnL (sep : ascii) (cur : list ascii) (l : list ascii)
  : list (list ascii) :=
  match l with
  | [] => [rev cur]
  | c :: r =>
      if Ascii.eqb c sep then rev cur :: splitOnL sep [] r
      else splitOnL sep (c :: cur) r
  end.
Definition splitOn (sep : ascii) (s : string) : list string :=
  map str (splitOnL sep [] (chars s)).

Fixpoint startsWithL (needle hay : list ascii) : bool :=
  match needle, hay with
  | [], _ => true
  | _ :: _, [] => false
  | a :: n, b :: h => Ascii.eqb a b && startsWithL n h
  end.

(** [hay.indexOf(needle)], counted from [from]; -1 when absent. *)
Fixpoint indexOfL (needle hay : list ascii) (from : Z) : Z :=
  if startsWithL needle hay then from
  else match hay with
       | [] => -1
       | _ :: h => indexOfL needle h (from + 1)
       end.
Definition indexOf (hay needle : string) : Z :=
  indexOfL (chars needle) (chars hay) 0.
Definition includes (hay needle : string) : bool :=
  negb (indexOf hay needle =? -1).

(** [s.slice(a, b)] for [0 <= a]; empty when [b <= a]. *)
Definition slice (s : string) (a b : Z) : string :=
  str (take (Z.to_nat (b - a)) (drop (Z.to_nat a) (chars s))).

(** [String(n)] for an integer. *)
Definition digitChar (d : Z) : ascii := ascii_of_N (48 + Z.to_N d).
Fixpoint digitsOf (fuel : nat) (n : Z) (acc : list ascii) : list ascii :=
  match fuel with
  | O => acc
  | S f =>
      if n <? 10 then digitChar n :: acc
      else digitsOf f (n / 10) (digitChar (n mod 10) :: acc)
  end.
Definition ofZ (n : Z) : string :=
  if n <? 0 then str ("-"%char :: digitsOf (Z.to_nat (- n)) (- n) [])
  else str (digitsOf (S (Z.to_nat n)) n []).

(** [Math.max(a, b)] *)
Definition maxQ (a b : Q) : Q := if Qle_bool a b then b else a.

(** [Number(digits)] for a run of decimal digits. *)
Definition numberOfDigits (l : list ascii) : Z :=
  fold_left (fun acc c => acc * 10 + Z.of_N (code c - 48)) l 0.

(** [[...new Set(items)]]: first occurrences, in order. *)
Fixpoint uniqFrom (seen : gset string) (items : list string) : list string :=
  match items with
  | [] => []
  | x :: r =>
      if bool_decide (x ∈ seen) then uniqFrom seen r
      else x :: uniqFrom ({[x]} ∪ seen) r
  end.
Definition uniq (items : list string) : list string := uniqFrom ∅ items.

(** [Array.prototype.sort(cmp)], which is stable: [before x y] says that
    [cmp(x, y) <= 0], that is, [x] need not move behind [y]. *)
Section Sort.
Context {A : Type} (before : A -> A -> bool).
Fixpoint insertSorted (x : A) (l : list A) : list A :=
  match l with
  | [] => [x]
  | y :: r => if before x y then x :: l else y :: insertSorted x r
  end.
Definition sortBy (l : list A) : list A := foldr insertSorted [] l.
End Sort.

(** A [Map] whose iteration order is observed: keys in order of first
    insertion, [set] on a present key replaces the value in place. *)
Section InsertionOrder.
Context {V : Type}.
Definition Map := list (string * V).
Fixpoint oget (k : string) (m : Map) : option V :=
  match m with
  | [] => None
  | (k', v) :: r => if String.eqb k k' then Some v else oget k r
  end.
Fixpoint oset (k : string) (v : V) (m : Map) : Map :=
  match m with
  | [] => [(k, v)]
  | (k', v') :: r =>
      if String.eqb k k' then (k', v) :: r else (k', v') :: oset k v r
  end.
Fixpoint odelete (k : string) (m : Map) : Map :=
  match m with
  | [] => []
  | (k', v') :: r =>
      if String.eqb k k' then r else (k', v') :: odelete k r
  end.
Definition ovalues (m : Map) : list V := map snd m.
Definition okeys (m : Map) : list string := map fst m.
End InsertionOrder.
Arguments Map : clear implicits.

End Js.

(** ** The FS-Quiz lookup route: fuzzy matcher and crawler *)

Module Lookup.

Record IndexedQuestion := {
  id : Z;
  text : string;
  normalized : string;
  tokens : gset string;
  imageUrls : list string;
}.

Record FsQuizIndexState := {
  complete : bool;
  nextId : Z;
  notFoundStreak : Z;
  items : list IndexedQuestion;
}.

(** *** Text normalisation *)

(** [s.replace(/\\x/g, " ")]: the two characters backslash, [x]. *)
Fixpoint replaceEscape (x : ascii) (l : list ascii) : list ascii :=
  match l with
  | a :: ((b :: r) as t) =>
      if Ascii.eqb a "\"%char && Ascii.eqb b x
      then " "%char :: replaceEscape x r
      else a :: replaceEscape x t
  | _ => l
  end.

(** [s.replace(/[‘’]/g, "'")] on the UTF-8 bytes E2 80 98 and
    E2 80 99. *)
Fixpoint straightenQuotes (l : list ascii) : list ascii :=
  match l with
  | a :: ((b :: ((c :: r) as t2)) as t1) =>
      if ((Js.code a =? 226) && (Js.code b =? 128)
          && ((Js.code c =? 152) || (Js.code c =? 153)))%N
      then "'"%char :: straightenQuotes r
      else a :: straightenQuotes t1
  | _ => l
  end.

Definition notLetterOrDigit (c : ascii) : bool :=
  negb (Js.isLetter c || Js.isDigit c).

(** Exact on ASCII text: lower-casing folds ASCII letters only here,
    and a byte above 127 counts as a letter, where the source folds and
    classifies by Unicode. *)
Definition normalizeText (input : string) : string :=
  let s := Js.chars input in
  let s := replaceEscape "n" s in
  let s := replaceEscape "r" s in
  let s := replaceEscape "t" s in
  let s := map Js.toLower s in
  let s := straightenQuotes s in
  let s := Js.replaceRuns notLetterOrDigit false s in
  let s := Js.collapseL s in
  Js.str (Js.trimL s).

Definition toTokens (normalized : string) : gset string :=
  fold_left
    (fun out t =>
       if String.eqb t "" then out
       else if Js.len t <=? 1 then out
       else out ∪ {[t]})
    (Js.splitOn " " normalized) ∅.

(** *** Scoring *)

Definition ratio (a b : nat) : Q := inject_Z (Z.of_nat a) / inject_Z (Z.of_nat b).

(** [for (const t of a) if (b.has(t)) inter += 1] *)
Definition countShared (a b : gset string) : nat :=
  length (List.filter (fun t => bool_decide (t ∈ b)) (elements a)).

Definition jaccard (a b : gset string) : Q :=
  if ((size a =? 0) || (size b =? 0))%nat then 0%Q
  else
    let inter := countShared a b in
    let union := (size a + size b - inter)%nat in
    if (0 <? union)%nat then ratio inter union else 0%Q.

Definition substringScore (a b : string) : Q :=
  if String.eqb a "" || String.eqb b "" then 0%Q
  else if String.eqb a b then 1%Q
  else if (Js.len a <? 4) || (Js.len b <? 4) then 0%Q
  else if Js.includes a b || Js.includes b a then (17 # 20)%Q
  else 0%Q.

Definition scoreMatch (query candidate : IndexedQuestion) : Q :=
  if (Js.len (normalized query) =? 0) || (Js.len (normalized candidate) =? 0)
  then 0%Q
  else if String.eqb (normalized query) (normalized candidate) then 1%Q
  else
    let longer :=
      if Js.len (normalized candidate) <=? Js.len (normalized query)
      then normalized query else normalized candidate in
    let shorter :=
      if String.eqb longer (normalized query)
      then normalized candidate else normalized query in
    if (20 <=? Js.len shorter) && Js.includes longer shorter then (19 # 20)%Q
    else
      let jac := jaccard (tokens query) (tokens candidate) in
      let smaller := Nat.min (size (tokens query)) (size (tokens candidate)) in
      let overlap :=
        if (0 <? smaller)%nat
        then ratio (countShared (tokens query) (tokens candidate)) smaller
        else 0%Q in
      let sub := substringScore (normalized query) (normalized candidate) in
      Js.maxQ (jac * (3 # 10) + overlap * (7 # 10))%Q sub.

(** The query of a lookup request, as [POST] builds it. *)
Definition queryOf (queryUsed : string) : IndexedQuestion :=
  let n := normalizeText queryUsed in
  {| id := -1; text := queryUsed; normalized := n; tokens := toTokens n;
     imageUrls := [] |}.

(** [state.items.map(..).filter(x => x.score >= threshold)
      .sort((a, b) => b.score - a.score).slice(0, topN)];
    the route fixes [threshold = 0.4] and [topN = 1]. *)
Definition rankMatches (threshold : Q) (topN : nat) (query : IndexedQuestion)
    (candidates : list IndexedQuestion) : list (IndexedQuestion * Q) :=
  let scored := map (fun q => (q, scoreMatch query q)) candidates in
  let kept := List.filter (fun x => Qle_bool threshold (snd x)) scored in
  take topN (Js.sortBy (fun a b => Qle_bool (snd b) (snd a)) kept).

Definition postMatches (queryUsed : string) (st : FsQuizIndexState)
  : list (IndexedQuestion * Q) :=
  rankMatches (2 # 5) 1 (queryOf queryUsed) (items st).

(** *** The upstream question source *)

Record FsQuizImage := { img_id : option Z; path : option string }.

Record FsQuizQuestion := {
  question_id : option string;
  q_text : option string;
  images : option (list (option FsQuizImage));
}.

(** What [pickQuestion] looks at in a decoded JSON value: whether it is
    an object, the elements of its [questions] array (an element that is
    not an object is [None]), whether it has a [question_id] key, and the
    value read as a question. *)
Inductive Payload :=
| NotAnObject
| AnObject (questions : list (option FsQuizQuestion)) (hasQuestionId : bool)
    (self : FsQuizQuestion).

(** The decoded body: an object with a [question] property, or not. *)
Inductive Body :=
| Wrapped (question : Payload)
| Plain (payload : Payload).

(** The answer to one [GET {baseUrl}/api/fsquiz/question/{id}]. *)
Inductive HttpResponse :=
| Rejected
| Responded (status : Z) (body : option Body).

Inductive FetchError :=
| TransportFailure
| RequestFailed (status : Z)
| BodyUnreadable.

Inductive Fetched :=
| not_found
| Found (q : IndexedQuestion).

Definition pickQuestion (payload : Payload) : option FsQuizQuestion :=
  match payload with
  | NotAnObject => None
  | AnObject (Some q :: _) _ _ => Some q
  | AnObject _ true self => Some self
  | AnObject _ false _ => None
  end.

(** [p.replace(/^\/+/, "")] *)
Fixpoint dropSlashes (l : list ascii) : list ascii :=
  match l with
  | c :: r => if Ascii.eqb c "/"%char then dropSlashes r else l
  | [] => []
  end.

Definition imagePath (img : option FsQuizImage) : string :=
  let p := match img with
           | Some i => match path i with Some p => p | None => "" end
           | None => ""
           end in
  Js.str (dropSlashes (Js.chars p)).

Definition fetchQuestionById (resp : HttpResponse) (id : Z)
  : Result FetchError Fetched :=
  match resp with
  | Rejected => Err TransportFailure
  | Responded status body =>
      if status =? 404 then Ok not_found
      else if negb ((200 <=? status) && (status <=? 299))
      then Err (RequestFailed status)
      else
        match body with
        | None => Err BodyUnreadable
        | Some wrapped =>
            let q := match wrapped with
                     | Wrapped question => pickQuestion question
                     | Plain payload => pickQuestion payload
                     end in
            let text :=
              Js.trim (match q with
                       | Some q => match q_text q with Some t => t | None => "" end
                       | None => ""
                       end) in
            let normalized := normalizeText text in
            let tokens := toTokens normalized in
            let images :=
              match q with
              | Some q => match images q with Some l => l | None => [] end
              | None => []
              end in
            let imageUrls :=
              map (fun p => ("https://img.fs-quiz.eu/" ++ p)%string)
                (take 6
                   (List.filter (fun p => negb (String.eqb p ""))
                      (map imagePath images))) in
            Ok (Found {| id := id; text := text; normalized := normalized;
                         tokens := tokens; imageUrls := imageUrls |})
        end
  end.

(** *** The crawl state *)

(** The process-wide [globalThis.__fredquiz_fsquiz_index], together with
    the identifiers requested from the upstream source so far, oldest
    first. *)
Record CrawlWorld := {
  __fredquiz_fsquiz_index : option FsQuizIndexState;
  requests : list Z;
}.

Definition set_nextId (n : Z) (st : FsQuizIndexState) : FsQuizIndexState :=
  {| complete := complete st; nextId := n;
     notFoundStreak := notFoundStreak st; items := items st |}.
Definition set_notFoundStreak (n : Z) (st : FsQuizIndexState) : FsQuizIndexState :=
  {| complete := complete st; nextId := nextId st;
     notFoundStreak := n; items := items st |}.
Definition set_complete (b : bool) (st : FsQuizIndexState) : FsQuizIndexState :=
  {| complete := b; nextId := nextId st;
     notFoundStreak := notFoundStreak st; items := items st |}.
Definition push_item (q : IndexedQuestion) (st : FsQuizIndexState) : FsQuizIndexState :=
  {| complete := complete st; nextId := nextId st;
     notFoundStreak := notFoundStreak st; items := items st ++ [q] |}.

Definition freshState : FsQuizIndexState :=
  {| complete := false; nextId := 1; notFoundStreak := 0; items := [] |}.

(** The state object a call works on; it is (or becomes) the global.  The
    repair of a [notFoundStreak] that is not a number has no counterpart
    here, where the field is typed. *)
Definition getIndexState (g : option FsQuizIndexState) : FsQuizIndexState :=
  match g with
  | None => freshState
  | Some existing =>
      if complete existing && (length (items existing) =? 0)%nat
      then freshState
      else if nextId existing <? 1 then set_nextId 1 existing
      else existing
  end.

Definition maxConsecutiveNotFound : Z := 4.
Definition minIndexedBeforeStop : Z := 200.
Definition batchSize : Z := 8.

(** [Array.from({ length: batchSize }, (_, i) => startId + i)] *)
Definition batchIds (startId : Z) : list Z :=
  map (fun i => startId + Z.of_nat i) (seq 0 (Z.to_nat batchSize)).

(** [Promise.all]: the results in order, or a rejection.  Of several
    rejections [Promise.all] reports the one that comes first in time;
    the answers here carry no time, and the one of the lowest position
    is reported.  What is proved of a failed batch only uses that the
    error is that of one of its requests. *)
Fixpoint promiseAll {E A : Type} (l : list (Result E A)) : Result E (list A) :=
  match l with
  | [] => Ok []
  | Err e :: _ => Err e
  | Ok a :: r =>
      match promiseAll r with
      | Ok r' => Ok (a :: r')
      | Err e => Err e
      end
  end.

(** The [for] loop over the results of one batch. *)
Fixpoint processResults (results : list Fetched) (st : FsQuizIndexState)
    (newlyIndexed : Z) : FsQuizIndexState * Z :=
  match results with
  | [] => (st, newlyIndexed)
  | not_found :: rest =>
      let st := set_notFoundStreak (notFoundStreak st + 1) st in
      if (maxConsecutiveNotFound <=? notFoundStreak st)
         && (minIndexedBeforeStop <=? Z.of_nat (length (items st)))
      then (set_complete true st, newlyIndexed)
      else processResults rest st newlyIndexed
  | Found res :: rest =>
      let st := set_notFoundStreak 0 st in
      let st := push_item res st in
      processResults rest st (newlyIndexed + 1)
  end.

(** One round of the [while] loop after its two tests: the cursor moves
    on, the eight requests go out together, and only when all of them
    have answered are the answers looked at. *)
Definition runBatch (server : Z -> HttpResponse) (st : FsQuizIndexState)
    (log : list Z) (newlyIndexed : Z)
  : Result FetchError Z * FsQuizIndexState * list Z :=
  let startId := nextId st in
  let ids := batchIds startId in
  let st := set_nextId (startId + batchSize) st in
  let log := log ++ ids in
  match promiseAll (map (fun id => fetchQuestionById (server id) id) ids) with
  | Err e => (Err e, st, log)
  | Ok results =>
      let '(st, newlyIndexed) := processResults results st newlyIndexed in
      (Ok newlyIndexed, st, log)
  end.

(** The [while (!state.complete)] loop.  [admitted] is the number of
    rounds whose test [Date.now() - startedAt > timeBudgetMs] is negative:
    the wall clock decides it, and the loop ends at the first positive
    test. *)
Fixpoint crawlLoop (server : Z -> HttpResponse) (admitted : nat)
    (st : FsQuizIndexState) (log : list Z) (newlyIndexed : Z)
  : Result FetchError Z * FsQuizIndexState * list Z :=
  if complete st then (Ok newlyIndexed, st, log)
  else
    match admitted with
    | O => (Ok newlyIndexed, st, log)
    | S admitted =>
        match runBatch server st log newlyIndexed with
        | (Err e, st, log) => (Err e, st, log)
        | (Ok newlyIndexed, st, log) =>
            crawlLoop server admitted st log newlyIndexed
        end
    end.

(** Returns [newlyIndexed]; the [state] of the source's result is the
    global of the returned world. *)
Definition ensureIndexedUntilEnd (server : Z -> HttpResponse) (admitted : nat)
    (w : CrawlWorld) : Result FetchError Z * CrawlWorld :=
  let st := getIndexState (__fredquiz_fsquiz_index w) in
  if complete st
  then (Ok 0, {| __fredquiz_fsquiz_index := Some st; requests := requests w |})
  else
    let '(r, st, log) := crawlLoop server admitted st (requests w) 0 in
    (r, {| __fredquiz_fsquiz_index := Some st; requests := log |}).

(** A succession of calls on the shared state, one after the other, each
    with the upstream source and the clock of its time; a failed call
    leaves the state as it stood when the call failed. *)
Definition runCalls (calls : list ((Z -> HttpResponse) * nat)) (w : CrawlWorld)
  : CrawlWorld :=
  fold_left (fun w c => snd (ensureIndexedUntilEnd (fst c) (snd c) w)) calls w.

End Lookup.

(** ** The document index: [src/lib/docs/index.ts] *)

Module Docs.

Inductive Kind := pdf | text_kind.

Definition Kind_eqb (a b : Kind) : bool :=
  match a, b with
  | pdf, pdf | text_kind, text_kind => true
  | _, _ => false
  end.

Record Drive := { drive_fileId : string; webViewLink : option string }.

Record FileMeta := {
  f_id : string;
  f_fileName : string;
  f_kind : Kind;
  f_ext : string;
  f_year : option string;
  f_bytes : option Z;
  f_drive : option Drive;
}.

Record Chunk := {
  chunkId : string;
  fileId : string;
  fileName : string;
  kind : Kind;
  year : option string;
  page : option Z;
  startLine : option Z;
  endLine : option Z;
  text : string;
}.

(** [{ ...chunk, score, excerpt, externalUrl }] *)
Record RetrievedChunk := {
  rc_chunk :> Chunk;
  score : Q;
  excerpt : string;
  externalUrl : option string;
}.

(** One hit of MiniSearch. *)
Record SearchResult := { sr_id : string; sr_score : Q }.

(** A loaded MiniSearch index is what its [search(q, { combineWith: "OR" })]
    answers under the options it was loaded with. *)
Definition MiniSearch := string -> list SearchResult.

(** *** Terms, excerpts and headers *)

Definition stop : gset string :=
  list_to_set
    [ "och"; "att"; "det"; "den"; "som"; "vad"; "hur"; "är"; "ska"; "kan";
      "för"; "med"; "till"; "på"; "i"; "av"; "en"; "ett"; "the"; "a"; "an";
      "to"; "of"; "in"; "on"; "and"; "or"; "is"; "are"; "was"; "were"; "be";
      "been"; "being"; "for"; "with"; "from"; "by"; "as"; "at"; "it"; "its";
      "this"; "that"; "these"; "those"; "what"; "how"; "can"; "could";
      "should"; "would"; "may"; "might"; "shall"; "must" ]%string.

(** [[^\p{L}\p{N}\s_-]] *)
Definition notTermChar (c : ascii) : bool :=
  negb (Js.isLetter c || Js.isDigit c || Js.isSpace c
        || (Js.code c =? 95)%N || (Js.code c =? 45)%N).

(** Exact on ASCII text: [toLowerCase] folds ASCII letters only here,
    and a byte above 127 counts as a letter, where the source folds and
    classifies by Unicode. *)
Definition extractTerms (input : string) : list string :=
  let cleaned :=
    Js.words
      (Js.str (Js.replaceRuns notTermChar false
                 (map Js.toLower (Js.chars input)))) in
  take 12
    (Js.uniq
       (List.filter
          (fun t => (2 <=? Js.len t) && negb (bool_decide (t ∈ stop)))
          cleaned)).

(** [text.replace(/\s+/g, " ").trim()] *)
Definition squeeze (text : string) : string :=
  Js.str (Js.trimL (Js.collapseL (Js.chars text))).

(** The [for (const term of terms)] loop of [makeExcerpt]. *)
Definition earliestTerm (lower : string) (terms : list string) : Z * string :=
  fold_left
    (fun best term =>
       let idx := Js.indexOf lower (Js.toLowerCase term) in
       if negb (idx =? -1) && ((fst best =? -1) || (idx <? fst best))
       then (idx, term) else best)
    terms (-1, ""%string).

Definition makeExcerpt (text : string) (terms : list string) (maxLen : Z)
  : string :=
  let hay := squeeze text in
  if String.eqb hay "" then ""%string
  else
    let lower := Js.toLowerCase hay in
    let '(bestIdx, bestTerm) := earliestTerm lower terms in
    if bestIdx =? -1 then
      if Js.len hay <=? maxLen then hay
      else (Js.slice hay 0 maxLen ++ "...")%string
    else
      let pad := (maxLen - Js.len bestTerm) / 2 in
      let start := Z.max 0 (bestIdx - pad) in
      let end_ := Z.min (Js.len hay) (bestIdx + Js.len bestTerm + pad) in
      let prefix := if 0 <? start then "..."%string else ""%string in
      let suffix := if end_ <? Js.len hay then "..."%string else ""%string in
      (prefix ++ Js.slice hay start end_ ++ suffix)%string.

(** [\b] after a match that ends in a word character. *)
Definition boundaryAt (rest : list ascii) : bool :=
  match rest with
  | [] => true
  | c :: _ => negb (Js.isWordChar c)
  end.

(** [word\b] at the head of [l], letters compared without case. *)
Definition wordAtHead (word : string) (l : list ascii) : bool :=
  let w := Js.chars word in
  Js.startsWithL w (map Js.toLower (take (length w) l))
  && (length w <=? length l)%nat
  && boundaryAt (drop (length w) l).

Definition structuralKeywords : list string :=
  [ "chapter"; "section"; "appendix"; "article"; "clause"; "rule"; "rules";
    "definition"; "definitions"; "scope" ]%string.

(** [/\b(chapter|...|scope)\b/i.test(s)]; [prevWord] says whether the
    character before [l] is a word character. *)
Fixpoint hasKeyword (prevWord : bool) (l : list ascii) : bool :=
  (negb prevWord && existsb (fun k => wordAtHead k l) structuralKeywords)
  || match l with
     | [] => false
     | c :: r => hasKeyword (Js.isWordChar c) r
     end.

(** [[A-Z0-9]] and [[A-Z0-9 ._-]] *)
Definition isCapOrDigit (c : ascii) : bool := Js.isUpper c || Js.isDigit c.
Definition isLabelChar (c : ascii) : bool :=
  isCapOrDigit c
  || (Js.code c =? 32)%N || (Js.code c =? 46)%N
  || (Js.code c =? 95)%N || (Js.code c =? 45)%N.

(** [/^[A-Z0-9][A-Z0-9 ._-]{6,}$/] *)
Definition isCapsLabel (l : list ascii) : bool :=
  match l with
  | [] => false
  | c :: r => isCapOrDigit c && forallb isLabelChar r && (6 <=? length r)%nat
  end.

(** [[0-9IVX]] *)
Definition isNumeralChar (c : ascii) : bool :=
  Js.isDigit c || (Js.code c =? 73)%N || (Js.code c =? 86)%N
  || (Js.code c =? 88)%N.

Fixpoint dropNumerals (l : list ascii) : list ascii :=
  match l with
  | c :: r => if isNumeralChar c then dropNumerals r else l
  | [] => []
  end.

(** [/^[0-9IVX]+(\.|:)\s+\S+/] *)
Definition isNumberedHeading (l : list ascii) : bool :=
  match l with
  | c :: r =>
      isNumeralChar c
      && match dropNumerals r with
         | p :: ((s :: _) as after) =>
             ((Js.code p =? 46)%N || (Js.code p =? 58)%N)
             && Js.isSpace s
             && match Js.dropSpaces after with
                | [] => false
                | _ :: _ => true
                end
         | _ => false
         end
  | [] => false
  end.

(** [/^[A-Z][a-z]/] *)
Definition isTitleCased (w : list ascii) : bool :=
  match w with
  | a :: b :: _ => Js.isUpper a && Js.isLower b
  | _ => false
  end.

Definition isLikelyHeader (text : string) : bool :=
  let trimmed := Js.chars (squeeze text) in
  match trimmed with
  | [] => false
  | _ =>
      if (200 <? length trimmed)%nat then false
      else if wordAtHead "table of contents" trimmed
              || wordAtHead "contents" trimmed then true
      else if hasKeyword false trimmed then true
      else if isCapsLabel trimmed && (length trimmed <=? 120)%nat then true
      else if isNumberedHeading trimmed then true
      else
        let words := Js.wordsL [] trimmed in
        if (2 <=? length words)%nat then
          let titleCase := length (List.filter isTitleCased words) in
          (7 * length words <? 10 * titleCase)%nat
        else false
  end.

(** [chunkId.match(/:s(\d+)/)]: the leftmost [:s] that a digit follows. *)
Fixpoint takeDigits (l : list ascii) : list ascii :=
  match l with
  | c :: r => if Js.isDigit c then c :: takeDigits r else []
  | [] => []
  end.

Fixpoint parseSegmentIndexL (l : list ascii) : Z :=
  match l with
  | a :: ((b :: ((d :: _) as digits)) as t) =>
      if Ascii.eqb a ":"%char && Ascii.eqb b "s"%char && Js.isDigit d
      then Js.numberOfDigits (takeDigits digits)
      else parseSegmentIndexL t
  | _ => 0
  end.
Definition parseSegmentIndex (chunkId : string) : Z :=
  parseSegmentIndexL (Js.chars chunkId).

Definition chunkOrderKey (chunk : Chunk) : Z :=
  match kind chunk with
  | pdf => default 0 (page chunk) * 1000 + parseSegmentIndex (chunkId chunk)
  | text_kind => default 0 (startLine chunk)
  end.

Definition buildExternalUrl (fileMeta : FileMeta) (chunk : Chunk)
    (driveByFileId : gmap string Drive) : option string :=
  match driveByFileId !! f_id fileMeta with
  | None => None
  | Some drive =>
      if String.eqb (drive_fileId drive) "" then None
      else
        match page chunk with
        | Some p =>
            if p =? 0
            then Some ("https://drive.google.com/file/d/"
                         ++ drive_fileId drive ++ "/view")%string
            else Some ("https://drive.google.com/file/d/"
                         ++ drive_fileId drive ++ "/view#page=" ++ Js.ofZ p)%string
        | None =>
            Some ("https://drive.google.com/file/d/"
                    ++ drive_fileId drive ++ "/view")%string
        end
  end.

(** *** Diversification: the tail of [searchDocs] *)

Definition perFileCap : Z := 4.

(** The first [for (const item of out)] loop. *)
Fixpoint pickCapped (limit : Z) (out : list RetrievedChunk)
    (picked : list RetrievedChunk) (perFile : gmap string Z)
    (pickedIds : gset string) : list RetrievedChunk * gset string :=
  match out with
  | [] => (picked, pickedIds)
  | item :: rest =>
      let count := default 0 (perFile !! fileName item) in
      if perFileCap <=? count
      then pickCapped limit rest picked perFile pickedIds
      else
        let picked := picked ++ [item] in
        let pickedIds := {[chunkId item]} ∪ pickedIds in
        let perFile := <[fileName item := count + 1]> perFile in
        if limit <=? Z.of_nat (length picked) then (picked, pickedIds)
        else pickCapped limit rest picked perFile pickedIds
  end.

(** The second loop, entered when [picked.length < limit]. *)
Fixpoint backfill (limit : Z) (out : list RetrievedChunk)
    (picked : list RetrievedChunk) (pickedIds : gset string)
  : list RetrievedChunk :=
  match out with
  | [] => picked
  | item :: rest =>
      if bool_decide (chunkId item ∈ pickedIds)
      then backfill limit rest picked pickedIds
      else
        let picked := picked ++ [item] in
        let pickedIds := {[chunkId item]} ∪ pickedIds in
        if limit <=? Z.of_nat (length picked) then picked
        else backfill limit rest picked pickedIds
  end.

(** [(a, b) => b.score - a.score] is not positive: [a] need not move
    behind [b]. *)
Definition byScore (a b : RetrievedChunk) : bool :=
  Qle_bool (score b) (score a).

(** From [out.sort(...)] to [return picked]. *)
Definition diversify (limit : Z) (out : list RetrievedChunk)
  : list RetrievedChunk :=
  let out := Js.sortBy byScore out in
  let '(picked, pickedIds) := pickCapped limit out [] ∅ ∅ in
  if Z.of_nat (length picked) <? limit
  then backfill limit out picked pickedIds
  else picked.

(** What the first loop picks. *)
Definition cappedPicks (limit : Z) (out : list RetrievedChunk)
  : list RetrievedChunk :=
  fst (pickCapped limit (Js.sortBy byScore out) [] ∅ ∅).

(** Whether the second loop runs. *)
Definition needsBackfill (limit : Z) (out : list RetrievedChunk) : bool :=
  let out := Js.sortBy byScore out in
  Z.of_nat (length (fst (pickCapped limit out [] ∅ ∅))) <? limit.

(** *** The corpus bundle and its cache *)

Section Corpus.

(** The serialised MiniSearch index that a bundle carries. *)
Context {AsPlainObject : Type}.

Record IndexBundle := {
  generatedAt : string;
  files : list FileMeta;
  chunks : list Chunk;
  miniSearch : AsPlainObject;
}.

(** [JSON.parse] followed by the reading of the value as an
    [IndexBundle], and [MiniSearch.loadJS] with the options of
    [loadIndex]; each answers [None] when it throws. *)
Context (JSON_parse : string -> option IndexBundle).
Context (MiniSearch_loadJS : AsPlainObject -> option MiniSearch).

Record LoadedIndex := {
  bundle : IndexBundle;
  mini : MiniSearch;
  chunksById : gmap string Chunk;
  driveByFileId : gmap string Drive;
  indexPath : string;
  mtimeMs : Q;
}.

(** The file system as one call sees it, in its two system calls on
    the path of the bundle.  [Absent] is the path for which the system
    reports [ENOENT]; [Inaccessible] the one that it cannot reach for
    another reason; [Vanished] a file that is there for [statSync] and
    gone when [readFile] comes; [Unreadable] one that is there and
    cannot be read. *)
Inductive OtherCode := EACCES | EISDIR | ENOTDIR | EIO.
Inductive Errno := ENOENT | Other (code : OtherCode).

Inductive Node :=
| Absent
| Inaccessible (code : OtherCode)
| Vanished (mtime : Q)
| Unreadable (mtime : Q) (code : OtherCode)
| Regular (mtime : Q) (content : string).

Definition statSync (n : Node) : Result Errno Q :=
  match n with
  | Absent => Err ENOENT
  | Inaccessible c => Err (Other c)
  | Vanished m => Ok m
  | Unreadable m _ => Ok m
  | Regular m _ => Ok m
  end.

Definition readFile (n : Node) : Result Errno string :=
  match n with
  | Absent => Err ENOENT
  | Inaccessible c => Err (Other c)
  | Vanished _ => Err ENOENT
  | Unreadable _ c => Err (Other c)
  | Regular _ content => Ok content
  end.

(** What [loadIndex] reads and writes: [process.env.DOCS_INDEX_PATH],
    [process.cwd()], the file system, and the global that holds the
    loaded index. *)
Record World := {
  DOCS_INDEX_PATH : option string;
  cwd : string;
  fs : string -> Node;
  __fredquiz_index : option LoadedIndex;
}.

Definition set_fredquiz_index (g : option LoadedIndex) (w : World) : World :=
  {| DOCS_INDEX_PATH := DOCS_INDEX_PATH w; cwd := cwd w; fs := fs w;
     __fredquiz_index := g |}.

Definition dataPath (w : World) : string :=
  match DOCS_INDEX_PATH w with
  | Some p => p
  | None => (cwd w ++ "/data/index/bundle.json")%string
  end.

(** [fsSync.existsSync] answers [false] whenever the path cannot be
    reached, whatever the reason. *)
Definition isIndexReady (w : World) : bool :=
  match statSync (fs w (dataPath w)) with
  | Ok _ => true
  | Err _ => false
  end.

Inductive LoadError :=
| MissingIndexError (indexPath : string)
| FsError (code : OtherCode)
| SyntaxError
| LoadJSError.

Definition cacheHit (g : option LoadedIndex) (path : string) (m : Q)
  : option LoadedIndex :=
  match g with
  | Some cached =>
      if String.eqb (indexPath cached) path && Qeq_bool (mtimeMs cached) m
      then Some cached else None
  | None => None
  end.

Definition loadIndex (w : World) : Result LoadError LoadedIndex * World :=
  let path := dataPath w in
  match statSync (fs w path) with
  | Err ENOENT => (Err (MissingIndexError path), w)
  | Err (Other c) => (Err (FsError c), w)
  | Ok m =>
      match cacheHit (__fredquiz_index w) path m with
      | Some cached => (Ok cached, w)
      | None =>
          match readFile (fs w path) with
          | Err ENOENT => (Err (MissingIndexError path), w)
          | Err (Other c) => (Err (FsError c), w)
          | Ok bundleRaw =>
              match JSON_parse bundleRaw with
              | None => (Err SyntaxError, w)
              | Some bundle =>
                  match MiniSearch_loadJS (miniSearch bundle) with
                  | None => (Err LoadJSError, w)
                  | Some mini =>
                      let chunksById :=
                        fold_left (fun m c => <[chunkId c := c]> m)
                          (chunks bundle) (∅ : gmap string Chunk) in
                      let driveByFileId :=
                        fold_left
                          (fun m f =>
                             match f_drive f with
                             | Some d => <[f_id f := d]> m
                             | None => m
                             end)
                          (files bundle) (∅ : gmap string Drive) in
                      let loaded :=
                        {| bundle := bundle; mini := mini;
                           chunksById := chunksById;
                           driveByFileId := driveByFileId;
                           indexPath := path; mtimeMs := m |} in
                      (Ok loaded, set_fredquiz_index (Some loaded) w)
                  end
              end
          end
      end
  end.

(** *** [searchDocs] *)

Record SearchParams := {
  query : string;
  p_year : option string;
  limit : option Z;
  extraTerms : option (list string);
  pdfFileNameAllow : option (list string);
  kinds : option (list Kind);
}.

Definition addResults (results : list SearchResult) (weight : Q)
    (scoreByChunkId : Js.Map Q) : Js.Map Q :=
  fold_left
    (fun m r =>
       let prev := default 0%Q (Js.oget (sr_id r) m) in
       Js.oset (sr_id r) (prev + sr_score r * weight)%Q m)
    results scoreByChunkId.

(** [/^\d+$/] *)
Definition allDigits (s : string) : bool :=
  negb (String.eqb s "") && forallb Js.isDigit (Js.chars s).

(** The keyword searches, one per term. *)
Definition addKeywordResults (mini : MiniSearch) (terms : list string)
    (scoreByChunkId : Js.Map Q) : Js.Map Q :=
  fold_left
    (fun m t =>
       let term := Js.trim t in
       if Js.len term <? 3 then m
       else if allDigits term then m
       else addResults (take 80 (mini term)) (11 # 20) m)
    terms scoreByChunkId.

Definition truthy (s : option string) : bool :=
  match s with
  | Some s => negb (String.eqb s "")
  | None => false
  end.

(** The four [continue] tests of the candidate loop. *)
Definition passesFilters (kindAllow : option (list Kind))
    (pdfAllow : option (gset string)) (year : option string)
    (chunk : Chunk) : bool :=
  match kindAllow with
  | Some ks => existsb (Kind_eqb (kind chunk)) ks
  | None => true
  end
  && negb (Kind_eqb (kind chunk) pdf
           && match pdfAllow with
              | Some allow =>
                  negb (bool_decide (Js.toLowerCase (fileName chunk) ∈ allow))
              | None => false
              end)
  && negb (Kind_eqb (kind chunk) pdf && truthy year && truthy (Docs.year chunk)
           && negb (bool_decide (Docs.year chunk = year)))
  && negb (Kind_eqb (kind chunk) pdf && truthy year
           && negb (truthy (Docs.year chunk))).

(** Everything of [searchDocs] before [out.sort]: [out] as the candidate
    loop leaves it. *)
Definition candidates (loaded : LoadedIndex) (params : SearchParams)
  : list RetrievedChunk :=
  let query := Js.trim (query params) in
  let year := Js.trim <$> p_year params in
  let terms := Js.uniq (default [] (extraTerms params) ++ extractTerms query) in
  let pdfAllow :=
    match pdfFileNameAllow params with
    | Some (v :: vs) =>
        Some (list_to_set (map Js.toLowerCase (v :: vs)) : gset string)
    | _ => None
    end in
  let scoreByChunkId :=
    addKeywordResults (mini loaded) terms
      (addResults (take 250 (mini loaded query)) 1 []) in
  let results :=
    take 250
      (Js.sortBy (fun a b => Qle_bool (snd b) (snd a)) scoreByChunkId) in
  omap
    (fun r : string * Q =>
       match chunksById loaded !! fst r with
       | None => None
       | Some chunk =>
           if passesFilters (kinds params) pdfAllow year chunk then
             let fileMeta :=
               List.find (fun f => String.eqb (f_id f) (fileId chunk))
                 (files (bundle loaded)) in
             let externalUrl :=
               match fileMeta with
               | Some f => buildExternalUrl f chunk (driveByFileId loaded)
               | None => None
               end in
             Some {| rc_chunk := chunk; score := snd r;
                     excerpt := makeExcerpt (text chunk) terms 900;
                     externalUrl := externalUrl |}
           else None
       end)
    results.

Definition searchDocs (params : SearchParams) (w : World)
  : Result LoadError (list RetrievedChunk) * World :=
  match loadIndex w with
  | (Err e, w) => (Err e, w)
  | (Ok loaded, w) =>
      (Ok (diversify (default 12 (limit params)) (candidates loaded params)), w)
  end.

(** *** [expandHeaderContext] *)

Record ExpandOptions := {
  maxTotal : option Z;
  maxPerHeader : option Z;
  maxExtraTotal : option Z;
  maxExtraChars : option Z;
}.

(** [byFileId]: the chunks of each file in corpus order, then sorted by
    [chunkOrderKey]. *)
Definition groupByFile (chunks : list Chunk) : gmap string (list Chunk) :=
  fold_left
    (fun m c => <[fileId c := default [] (m !! fileId c) ++ [c]]> m)
    chunks ∅.

Definition byFileIdOf (b : IndexBundle) : gmap string (list Chunk) :=
  Js.sortBy (fun a b => chunkOrderKey a <=? chunkOrderKey b)
    <$> groupByFile (chunks b).

Definition byFileMetaOf (b : IndexBundle) : gmap string FileMeta :=
  fold_left (fun m f => <[f_id f := f]> m) (files b) ∅.

(** [list.findIndex((c) => c.chunkId === id)] *)
Fixpoint findIndex (id : string) (l : list Chunk) : option nat :=
  match l with
  | [] => None
  | c :: r =>
      if String.eqb (chunkId c) id then Some O
      else S <$> findIndex id r
  end.

(** The variables the two loops share. *)
Record Expansion := {
  existingIds : gset string;
  pinnedIds : gset string;
  extras : list RetrievedChunk;
  extraCount : Z;
}.

Definition pin (id : string) (e : Expansion) : Expansion :=
  {| existingIds := existingIds e; pinnedIds := {[id]} ∪ pinnedIds e;
     extras := extras e; extraCount := extraCount e |}.

Definition attach (x : RetrievedChunk) (e : Expansion) : Expansion :=
  {| existingIds := {[chunkId x]} ∪ existingIds e;
     pinnedIds := {[chunkId x]} ∪ pinnedIds e;
     extras := extras e ++ [x];
     extraCount := extraCount e + 1 |}.

Section Walk.
Context (loaded : LoadedIndex) (maxPerHeaderV maxExtraTotalV maxExtraCharsV : Z).

(** The inner [for (let i = idx + 1; ...)] loop over the chunks that
    follow the header in its file. *)
Fixpoint walk (base : RetrievedChunk) (terms : list string)
    (following : list Chunk) (added extraChars : Z) (e : Expansion)
  : Expansion :=
  match following with
  | [] => e
  | c :: rest =>
      if bool_decide (chunkId c ∈ existingIds e)
      then walk base terms rest added extraChars e
      else
        let text := Js.trim (text c) in
        if String.eqb text "" then walk base terms rest added extraChars e
        else if (maxPerHeaderV <=? added) || (maxExtraTotalV <=? extraCount e)
        then e
        else
          let extraChars := extraChars + Js.len text in
          let fileMeta := byFileMetaOf (bundle loaded) !! fileId c in
          let externalUrl :=
            match fileMeta with
            | Some f => buildExternalUrl f c (driveByFileId loaded)
            | None => None
            end in
          let e :=
            attach {| rc_chunk := c;
                      score := Js.maxQ (1 # 10) (score base * (7 # 10));
                      excerpt := makeExcerpt text terms 900;
                      externalUrl := externalUrl |} e in
          let added := added + 1 in
          if maxExtraCharsV <=? extraChars then e
          else if isLikelyHeader text && (0 <? added) then e
          else walk base terms rest added extraChars e
  end.

(** The outer [for (const base of retrieved)] loop. *)
Fixpoint expandLoop (retrieved : list RetrievedChunk) (e : Expansion)
  : Expansion :=
  match retrieved with
  | [] => e
  | base :: rest =>
      if negb (isLikelyHeader (text base)) then expandLoop rest e
      else if 260 <? Js.len (Js.trim (text base)) then expandLoop rest e
      else if maxExtraTotalV <=? extraCount e then e
      else
        let e := pin (chunkId base) e in
        match byFileIdOf (bundle loaded) !! fileId base with
        | None => expandLoop rest e
        | Some list =>
            match findIndex (chunkId base) list with
            | None => expandLoop rest e
            | Some idx =>
                expandLoop rest
                  (walk base (extractTerms (text base))
                     (drop (S idx) list) 0 0 e)
            end
        end
  end.
End Walk.

(** [new Map(merged.map((m) => [m.chunkId, m]))] *)
Definition byIdOf (merged : list RetrievedChunk) : Js.Map RetrievedChunk :=
  fold_left (fun m (x : RetrievedChunk) => Js.oset (chunkId x) x m) merged [].

(** The [for (const c of dropCandidates)] loop. *)
Fixpoint dropLoop (dropCandidates : list RetrievedChunk) (toDrop : Z)
    (byId : Js.Map RetrievedChunk) : Js.Map RetrievedChunk :=
  match dropCandidates with
  | [] => byId
  | c :: rest =>
      if toDrop <=? 0 then byId
      else dropLoop rest (toDrop - 1) (Js.odelete (chunkId c) byId)
  end.

(** The state of the two expansion loops when they end. *)
Definition expansionOf (loaded : LoadedIndex) (options : ExpandOptions)
    (retrieved : list RetrievedChunk) : Expansion :=
  expandLoop loaded
    (default 3 (maxPerHeader options))
    (default 8 (maxExtraTotal options))
    (default 5000 (maxExtraChars options))
    retrieved
    {| existingIds := list_to_set (map (fun r : RetrievedChunk => chunkId r) retrieved);
       pinnedIds := ∅; extras := []; extraCount := 0 |}.

(** [expandHeaderContext] once the index is loaded. *)
Definition expandWith (loaded : LoadedIndex) (options : ExpandOptions)
    (retrieved : list RetrievedChunk) : list RetrievedChunk :=
  let maxTotalV := default 28 (maxTotal options) in
  let e := expansionOf loaded options retrieved in
  match extras e with
  | [] => retrieved
  | _ =>
      let merged := retrieved ++ extras e in
      if Z.of_nat (length merged) <=? maxTotalV then merged
      else
        let byId := byIdOf merged in
        let dropCandidates :=
          Js.sortBy (fun a b => Qle_bool (score a) (score b))
            (List.filter
               (fun m : RetrievedChunk =>
                  negb (bool_decide (chunkId m ∈ pinnedIds e)))
               merged) in
        let toDrop := Z.of_nat (length merged) - maxTotalV in
        Js.ovalues (dropLoop dropCandidates toDrop byId)
  end.

Definition expandHeaderContext (retrieved : list RetrievedChunk)
    (options : ExpandOptions) (w : World)
  : Result LoadError (list RetrievedChunk) * World :=
  match retrieved with
  | [] => (Ok retrieved, w)
  | _ =>
      match loadIndex w with
      | (Err e, w) => (Err e, w)
      | (Ok loaded, w) => (Ok (expandWith loaded options retrieved), w)
      end
  end.

End Corpus.

End Docs.

(** ** The index builder: [scripts/build-index.ts] *)

Module BuildIndex.
Import Docs.

(** The [while (i < cleaned.length)] loop of [chunkTextByChars].  It has
    no end for a [target] below one; [fuel] bounds the rounds, and [None]
    stands for a loop that goes on. *)
Fixpoint sliceLoop (fuel : nat) (cleaned : string) (target i : Z)
  : option (list string) :=
  if i <? Js.len cleaned then
    match fuel with
    | O => None
    | S fuel =>
        cons (Js.slice cleaned i (i + target))
          <$> sliceLoop fuel cleaned target (i + target)
    end
  else Some [].

Definition chunkTextByChars (text : string) (target : Z)
  : option (list string) :=
  let cleaned := squeeze text in
  if Js.len cleaned <=? target then Some [cleaned]
  else sliceLoop (String.length cleaned) cleaned target 0.

Record LineChunk := { lc_start : Z; lc_end : Z; lc_text : string }.

(** [lines.slice(i, end).join("\n")] *)
Definition joinLines (lines : list string) : string :=
  String.concat (String "010"%char EmptyString) lines.

(** The [for (let i = 0; i < lines.length; i += linesPerChunk)] loop of
    [chunkLines], with [fuel] as above. *)
Fixpoint lineLoop (fuel : nat) (lines : list string) (linesPerChunk i : Z)
  : option (list LineChunk) :=
  if i <? Z.of_nat (length lines) then
    match fuel with
    | O => None
    | S fuel =>
        let start := i + 1 in
        let end_ := Z.min (Z.of_nat (length lines)) (i + linesPerChunk) in
        let text :=
          Js.trim
            (joinLines (take (Z.to_nat (end_ - i)) (drop (Z.to_nat i) lines))) in
        (fun rest =>
           if String.eqb text "" then rest
           else {| lc_start := start; lc_end := end_; lc_text := text |} :: rest)
          <$> lineLoop fuel lines linesPerChunk (i + linesPerChunk)
    end
  else Some [].

Definition chunkLines (lines : list string) (linesPerChunk : Z)
  : option (list LineChunk) :=
  lineLoop (length lines) lines linesPerChunk 0.

(** [`file_${files.length + 1}`] *)
Definition fileIdFor (files : list FileMeta) : string :=
  ("file_" ++ Js.ofZ (Z.of_nat (length files) + 1))%string.

(** [`${id}:p${p.page}:s${s + 1}`] *)
Definition pdfChunkId (id : string) (page s : Z) : string :=
  (id ++ ":p" ++ Js.ofZ page ++ ":s" ++ Js.ofZ (s + 1))%string.

(** [`${id}:l${lc.start}-${lc.end}`] *)
Definition textChunkId (id : string) (lc : LineChunk) : string :=
  (id ++ ":l" ++ Js.ofZ (lc_start lc) ++ "-" ++ Js.ofZ (lc_end lc))%string.

(** The chunks that [main] pushes for one page of a PDF file: none for a
    page without text. *)
Definition pageChunks (id fileName : string) (year : option string)
    (pageNo : Z) (pageText : string) : option (list Chunk) :=
  if String.eqb pageText "" then Some []
  else
    imap
      (fun s segment =>
         {| chunkId := pdfChunkId id pageNo (Z.of_nat s);
            fileId := id; fileName := fileName; kind := pdf; year := year;
            page := Some pageNo; startLine := None; endLine := None;
            text := segment |})
      <$> chunkTextByChars pageText 3500.

(** The chunks that [main] pushes for a text file, from its lines. *)
Definition lineChunks (id fileName : string) (lines : list string)
  : option (list Chunk) :=
  map
    (fun lc =>
       {| chunkId := textChunkId id lc;
          fileId := id; fileName := fileName; kind := text_kind; year := None;
          page := None; startLine := Some (lc_start lc);
          endLine := Some (lc_end lc); text := lc_text lc |})
    <$> chunkLines lines 140.

End BuildIndex.

(** ** The manifest and the file summaries: [src/lib/docs/index.ts] *)

Module Summaries.
Import Docs.

Record Manifest := {
  m_generatedAt : option string;
  years : list string;
  fileCount : Z;
  chunkCount : Z;
  indexReady : bool;
  message : option string;
}.

Record FileSummary := {
  s_fileName : string;
  s_kind : Kind;
  s_year : option string;
  s_bytes : option Z;
}.

Section Api.
Context {AsPlainObject : Type}.
Context (JSON_parse : string -> option (@IndexBundle AsPlainObject)).
Context (MiniSearch_loadJS : AsPlainObject -> option MiniSearch).

(** [a.localeCompare(b)] of the platform, and the message of an error
    that the platform or a library throws. *)
Context (localeCompare : string -> string -> Z).
Context (platformMessage : LoadError -> string).

Definition errorMessage (e : LoadError) : string :=
  match e with
  | MissingIndexError indexPath =>
      ("Missing docs index at " ++ indexPath
         ++ ". Put files in data/files and run `npm run docs:index`.")%string
  | _ => platformMessage e
  end.

(** The years of the PDF files, each once, sorted downwards. *)
Definition yearsOf (b : @IndexBundle AsPlainObject) : list string :=
  Js.sortBy (fun x y => localeCompare y x <=? 0)
    (Js.uniq
       (List.filter (fun y => negb (String.eqb y ""))
          (omap f_year
             (List.filter
                (fun f => Kind_eqb (f_kind f) pdf && truthy (f_year f))
                (files b))))).

Definition getManifest (w : World) : Manifest * World :=
  match loadIndex JSON_parse MiniSearch_loadJS w with
  | (Ok loaded, w) =>
      ({| m_generatedAt := Some (generatedAt (bundle loaded));
          years := yearsOf (bundle loaded);
          fileCount := Z.of_nat (length (files (bundle loaded)));
          chunkCount := Z.of_nat (length (chunks (bundle loaded)));
          indexReady := true;
          message := None |}, w)
  | (Err e, w) =>
      ({| m_generatedAt := None;
          years := ["2026"; "2025"]%string;
          fileCount := 0;
          chunkCount := 0;
          indexReady := false;
          message := Some (errorMessage e) |}, w)
  end.

Definition getFileSummaries (w : World) : list FileSummary * World :=
  match loadIndex JSON_parse MiniSearch_loadJS w with
  | (Ok loaded, w) =>
      (map
         (fun f =>
            {| s_fileName := f_fileName f; s_kind := f_kind f;
               s_year := f_year f; s_bytes := f_bytes f |})
         (files (bundle loaded)), w)
  | (Err _, w) => ([], w)
  end.

End Api.

End Summaries.

(** ** Predicates of the statements *)

Module Props.
Import Docs.

(** Descending by score. *)
Definition byScoreDesc : relation RetrievedChunk :=
  fun a b => (score b <= score a)%Q.
Definition descending (l : list RetrievedChunk) : Prop :=
  StronglySorted byScoreDesc l.

(** The number of entries that come from the file named [f]. *)
Definition fromFile (f : string) (l : list RetrievedChunk) : nat :=
  length (List.filter (fun x : RetrievedChunk => String.eqb (fileName x) f) l).

Definition ids (l : list RetrievedChunk) : list string :=
  map (fun x : RetrievedChunk => chunkId x) l.

(** A loaded index files every chunk under its own identifier, as
    [loadIndex] builds it. *)
Definition indexSound {P : Type} (loaded : @LoadedIndex P) : Prop :=
  forall k c, chunksById loaded !! k = Some c -> chunkId c = k.

Definition cacheSound {P : Type} (w : @World P) : Prop :=
  forall loaded, __fredquiz_index w = Some loaded -> indexSound loaded.

(** What the expansion loops maintain: [existingIds] holds the
    identifiers of the input and of the extras, the extras are distinct,
    new to the input, and pinned. *)
Definition expansionInv (retrieved : list RetrievedChunk) (e : Expansion)
  : Prop :=
  (forall k, k ∈ existingIds e <-> k ∈ ids retrieved \/ k ∈ ids (extras e))
  /\ NoDup (ids (extras e))
  /\ (forall k, k ∈ ids (extras e) -> k ∉ ids retrieved)
  /\ (forall k, k ∈ ids (extras e) -> k ∈ pinnedIds e).

(** The entries of the merge that are pinned. *)
Definition pinnedEntries (pinned : gset string) (merged : list RetrievedChunk)
  : list RetrievedChunk :=
  List.filter (fun m : RetrievedChunk => bool_decide (chunkId m ∈ pinned)) merged.

(** An entry of the map [byId] sits under the identifier of its chunk. *)
Definition ownKey (e : string * RetrievedChunk) : Prop :=
  chunkId (snd e) = fst e.

(** [byId] after the deletion of some candidates. *)
Definition deleteAll (ds : list RetrievedChunk) (m : Js.Map RetrievedChunk)
  : Js.Map RetrievedChunk :=
  fold_left (fun m (c : RetrievedChunk) => Js.odelete (chunkId c) m) ds m.

(** A state that is marked complete without a single entry is the one
    [getIndexState] discards. *)
Definition corrupt (st : Lookup.FsQuizIndexState) : Prop :=
  Lookup.complete st = true /\ Lookup.items st = [].

(** The shared state after a call has the invariants on which the
    absence of any reset rests, and its cursor is at least [b]. *)
Definition settled (b : Z) (w : Lookup.CrawlWorld) : Prop :=
  exists st,
    Lookup.__fredquiz_fsquiz_index w = Some st
    /\ b <= Lookup.nextId st /\ 1 <= Lookup.nextId st
    /\ (Lookup.complete st = true -> Lookup.items st <> []).

End Props.

(** ** Further predicates *)

Module MoreProps.
Import Lookup.

(** The index lists its entries by strictly increasing identifier, all
    below the cursor. *)
Definition indexOrdered (st : FsQuizIndexState) : Prop :=
  StronglySorted Z.lt (map id (items st))
  /\ Forall (fun q => id q < nextId st) (items st).

(** Completion is only ever latched on a streak of four with 200 entries
    indexed. *)
Definition latchSound (st : FsQuizIndexState) : Prop :=
  complete st = true ->
  200 <= Z.of_nat (length (items st)) /\ 4 <= notFoundStreak st.

(** What a fetched answer has to do with the identifier it was fetched
    for. *)
Definition answers (i : Z) (r : Fetched) : Prop :=
  match r with
  | not_found => True
  | Found q => id q = i
  end.

(** Every entry of the index is what the upstream source answers for
    the identifier of the entry. *)
Definition fromUpstream (server : Z -> HttpResponse) (st : FsQuizIndexState)
  : Prop :=
  Forall (fun q => fetchQuestionById (server (id q)) (id q) = Ok (Found q))
    (items st).

Definition imagePrefix : string := "https://img.fs-quiz.eu/".

(** The characters that a normalised text is made of, besides the
    space: lower-case letters, digits, bytes of non-ASCII characters. *)
Definition isNormalChar (c : ascii) : bool :=
  Js.isLower c || Js.isDigit c || (128 <=? Js.code c)%N.

(** Words of such characters, one space between two words; [prevIsSpace]
    says that a space may not come next. *)
Fixpoint tidyFrom (prevIsSpace : bool) (l : list ascii) : bool :=
  match l with
  | [] => negb prevIsSpace
  | c :: r =>
      if Ascii.eqb c " " then negb prevIsSpace && tidyFrom true r
      else isNormalChar c && tidyFrom false r
  end.

Definition tidy (l : list ascii) : bool :=
  match l with
  | [] => true
  | _ => tidyFrom true l
  end.

(** The same without the conditions at the two ends. *)
Fixpoint looseFrom (prevIsSpace : bool) (l : list ascii) : bool :=
  match l with
  | [] => true
  | c :: r =>
      if Ascii.eqb c " " then negb prevIsSpace && looseFrom true r
      else isNormalChar c && looseFrom false r
  end.

(** A match with its score, best first. *)
Definition byMatchDesc : relation (IndexedQuestion * Q) :=
  fun x y => (snd y <= snd x)%Q.

End MoreProps.

Module CorpusProps.
Import Docs.

(** The two tables of a loaded index are read off its bundle: a chunk
    identifier leads to the last chunk of the bundle that bears it, a
    file identifier to the last Drive entry of a file that bears it. *)
Definition mirrorsBundle {P : Type} (loaded : @LoadedIndex P) : Prop :=
  (forall k,
      chunksById loaded !! k
      = last (List.filter (fun c => String.eqb (chunkId c) k)
                (chunks (bundle loaded))))
  /\ (forall k,
         driveByFileId loaded !! k
         = last (omap f_drive
                   (List.filter (fun f => String.eqb (f_id f) k)
                      (files (bundle loaded))))).

(** The retrieved chunks that the expansion treats as headers. *)
Definition headers (retrieved : list RetrievedChunk) : list RetrievedChunk :=
  List.filter
    (fun r : RetrievedChunk =>
       isLikelyHeader (text r) && negb (260 <? Js.len (Js.trim (text r))))
    retrieved.

(** [x] was added for a header among [retrieved]: it is a chunk of the
    same file that does not come before the header in the order of the
    file, it has visible text, and score and excerpt are derived from the
    header. *)
Definition followsHeader {P : Type} (loaded : @LoadedIndex P)
    (retrieved : list RetrievedChunk) (x : RetrievedChunk) : Prop :=
  exists (base : RetrievedChunk) (h : Chunk),
    base ∈ headers retrieved
    /\ h ∈ chunks (bundle loaded)
    /\ chunkId h = chunkId base /\ fileId h = fileId base
    /\ rc_chunk x ∈ chunks (bundle loaded)
    /\ fileId x = fileId base
    /\ chunkOrderKey h <= chunkOrderKey (rc_chunk x)
    /\ Js.trim (text x) <> ""%string
    /\ score x = Js.maxQ (1 # 10) (score base * (7 # 10))
    /\ excerpt x
       = makeExcerpt (Js.trim (text x)) (extractTerms (text base)) 900.


(** [x] was attached under the header [base]. *)
Definition attachedUnder {P : Type} (loaded : @LoadedIndex P)
    (base x : RetrievedChunk) : Prop :=
  exists h : Chunk,
    h ∈ chunks (bundle loaded)
    /\ chunkId h = chunkId base /\ fileId h = fileId base
    /\ rc_chunk x ∈ chunks (bundle loaded)
    /\ fileId x = fileId base
    /\ chunkOrderKey h <= chunkOrderKey (rc_chunk x)
    /\ Js.trim (text x) <> ""%string
    /\ score x = Js.maxQ (1 # 10) (score base * (7 # 10))
    /\ excerpt x
       = makeExcerpt (Js.trim (text x)) (extractTerms (text base)) 900.

(** A header with the extras attached under it: no more than
    [maxPerHeaderV] of them. *)
Definition groupOk {P : Type} (loaded : @LoadedIndex P) (maxPerHeaderV : Z)
    (g : RetrievedChunk * list RetrievedChunk) : Prop :=
  Z.of_nat (length (snd g)) <= Z.max 0 maxPerHeaderV
  /\ Forall (attachedUnder loaded (fst g)) (snd g).

(** Search terms of ASCII text. *)
Definition asciiOnly (s : string) : bool :=
  forallb (fun c => (Js.code c <? 128)%N) (Js.chars s).

(** The order of the chunks of a file. *)
Definition keyLe (a b : Chunk) : Prop := chunkOrderKey a <= chunkOrderKey b.

(** The extras of an expansion under way are counted, bounded and
    accounted for. *)
Definition accounted {P : Type} (loaded : @LoadedIndex P) (maxExtraTotalV : Z)
    (retrieved : list RetrievedChunk) (e : Expansion) : Prop :=
  Forall (followsHeader loaded retrieved) (extras e)
  /\ extraCount e = Z.of_nat (length (extras e))
  /\ extraCount e <= Z.max 0 maxExtraTotalV.

(** What a search term is made of: lower-case letters, digits,
    underscores and hyphens. *)
Definition termChar (c : ascii) : Prop :=
  Js.isLower c || Js.isDigit c || (Js.code c =? 95)%N || (Js.code c =? 45)%N
  = true.

(** Ascending by score, as the eviction sorts. *)
Definition byScoreAsc : relation RetrievedChunk :=
  fun a b => (score a <= score b)%Q.

(** One step of [Number] on a run of digits. *)
Definition digitStep (acc : Z) (c : ascii) : Z :=
  acc * 10 + Z.of_N (Js.code c - 48).

(** The sum of the scores of the hits on chunk [k] in one answer of
    MiniSearch. *)
Definition hitSum (k : string) (results : list SearchResult) : Q :=
  fold_right
    (fun r acc => if String.eqb (sr_id r) k then (sr_score r + acc)%Q else acc)
    0%Q results.

(** The same over the keyword searches: a term of fewer than three
    characters or of digits only is not searched for, and of each answer
    the first 80 hits count. *)
Definition keywordSum (mini : MiniSearch) (k : string) (terms : list string) : Q :=
  fold_right
    (fun t acc =>
       let term := Js.trim t in
       if (Js.len term <? 3) || allDigits term then acc
       else (hitSum k (take 80 (mini term)) + acc)%Q)
    0%Q terms.

(** The terms of a search: the extra terms, then those of the query. *)
Definition termsOf (params : SearchParams) : list string :=
  Js.uniq (default [] (extraTerms params) ++ extractTerms (Js.trim (query params))).

End CorpusProps.

(** ** Concrete inputs *)

Module Samples.
Import Lookup.

(** An upstream record as the question source serves it. *)
Definition record (n : Z) : HttpResponse :=
  Responded 200
    (Some (Wrapped
             (AnObject [] true
                {| question_id := Some (Js.ofZ n);
                   q_text := Some ("Question " ++ Js.ofZ n)%string;
                   images := None |}))).

Definition missing : HttpResponse := Responded 404 None.

Definition entry (n : Z) : IndexedQuestion :=
  match fetchQuestionById (record n) n with
  | Ok (Found q) => q
  | _ => queryOf ""
  end.

(** A crawl that has indexed the identifiers 1 to [n] and stands at
    [n + 1]. *)
Definition indexedUpTo (n : nat) : FsQuizIndexState :=
  {| complete := false; nextId := Z.of_nat n + 1; notFoundStreak := 0;
     items := map (fun i => entry (Z.of_nat i)) (seq 1 n) |}.

Definition worldOf (st : FsQuizIndexState) : CrawlWorld :=
  {| __fredquiz_fsquiz_index := Some st; requests := [] |}.

(** Identifiers up to [last] exist, none beyond. *)
Definition sourceUpTo (last : Z) (n : Z) : HttpResponse :=
  if n <=? last then record n else missing.

(** Identifiers 201 to 204 are gone, 205 and beyond exist. *)
Definition sourceWithGap (n : Z) : HttpResponse :=
  if (201 <=? n) && (n <=? 204) then missing else record n.

(** The source answers 500 for identifier 19 and serves every other. *)
Definition sourceFailingAt19 (n : Z) : HttpResponse :=
  if n =? 19 then Responded 500 None else record n.

End Samples.

Module MatchSamples.
Import Lookup.

(** The spin example of the specification: the query, and the indexed
    question as a fetch builds it. *)
Definition spinQuery : IndexedQuestion :=
  queryOf "describe the penalty for a spin".

Definition spinCandidate : IndexedQuestion :=
  match fetchQuestionById
          (Responded 200
             (Some (Wrapped
                      (AnObject [] true
                         {| question_id := Some "7"%string;
                            q_text :=
                              Some "what is the penalty for a spin during dynamic events"%string;
                            images := None |}))))
          7 with
  | Ok (Found q) => q
  | _ => queryOf ""
  end.

End MatchSamples.

Module CorpusSamples.
Import Docs.

(** A serialised index, reduced to the hits it answers per query, and the
    loading of it. *)
Definition Table : Type := list (string * list SearchResult).

Definition loadJS (t : Table) : option MiniSearch :=
  Some (fun q =>
          match List.find (fun e => String.eqb (fst e) q) t with
          | Some e => snd e
          | None => []
          end).

Definition pdfChunk (file name : string) (p s : Z) (body : string) : Chunk :=
  {| chunkId := (file ++ ":p" ++ Js.ofZ p ++ ":s" ++ Js.ofZ s)%string;
     fileId := file; fileName := name; kind := pdf; year := Some "2025"%string;
     page := Some p; startLine := None; endLine := None; text := body |}.

Definition rules (s : Z) (body : string) : Chunk :=
  pdfChunk "f1" "rules.pdf" 1 s body.

Definition r1 := rules 1 "Chapter 1 Brakes".
Definition r2 := rules 2 "the brakes must act on all four wheels.".
Definition r3 := rules 3 "the brakes are operated by a single control.".
Definition r4 := rules 4 "a brake pedal must withstand a force of 2000 n.".
Definition r5 := rules 5 "the brakes are tested on a dry track.".
Definition h1 := pdfChunk "f2" "handbook.pdf" 1 1 "teams present their brakes at scrutineering.".

Definition hit (c : Chunk) (s : Q) : SearchResult :=
  {| sr_id := chunkId c; sr_score := s |}.

Definition table : Table :=
  [ ("brakes"%string,
     [hit r1 10; hit r2 9; hit r3 8; hit r4 7; hit r5 6; hit h1 5]) ].

Definition sampleBundle : @IndexBundle Table :=
  {| generatedAt := "2025-01-01T00:00:00.000Z";
     files :=
       [ {| f_id := "f1"; f_fileName := "rules.pdf"; f_kind := pdf;
            f_ext := "pdf"; f_year := Some "2025"%string; f_bytes := None;
            f_drive := None |};
         {| f_id := "f2"; f_fileName := "handbook.pdf"; f_kind := pdf;
            f_ext := "pdf"; f_year := Some "2025"%string; f_bytes := None;
            f_drive := None |} ];
     chunks := [r1; r2; r3; r4; r5; h1];
     miniSearch := table |}.

(** The parser on the two file contents of the samples. *)
Definition parse (raw : string) : option (@IndexBundle Table) :=
  if String.eqb raw "{bundle}" then Some sampleBundle else None.

Definition bundlePath : string := "/app/data/index/bundle.json".

(** A deployment whose bundle file, last modified at [1], holds
    [content]; nothing is cached yet. *)
Definition worldWith (content : string) : @World Table :=
  {| DOCS_INDEX_PATH := None; cwd := "/app";
     fs := fun p => if String.eqb p bundlePath then Regular 1 content else Absent;
     __fredquiz_index := None |}.

Definition sampleWorld : @World Table := worldWith "{bundle}".

(** The same deployment with nothing at the place of the bundle. *)
Definition emptyWorld : @World Table :=
  {| DOCS_INDEX_PATH := None; cwd := "/app"; fs := fun _ => Absent;
     __fredquiz_index := None |}.

(** The bundle has been loaded, then overwritten by something that is not
    JSON, its modification time unchanged. *)
Definition overwrittenWorld : @World Table :=
  {| DOCS_INDEX_PATH := None; cwd := "/app";
     fs := fs (worldWith "not json");
     __fredquiz_index := __fredquiz_index (snd (loadIndex parse loadJS sampleWorld)) |}.

(** The index as a first load of the sample world builds it. *)
Definition sampleLoaded : @LoadedIndex Table :=
  match fst (loadIndex parse loadJS sampleWorld) with
  | Ok loaded => loaded
  | Err _ =>
      {| bundle := sampleBundle; mini := fun _ => [];
         chunksById := ∅; driveByFileId := ∅; indexPath := ""; mtimeMs := 0 |}
  end.

Definition searchFor (q : string) (lim : option Z) : @SearchParams :=
  {| query := q; p_year := None; limit := lim; extraTerms := None;
     pdfFileNameAllow := None; kinds := None |}.

Definition ranked (c : Chunk) (s : Q) : RetrievedChunk :=
  {| rc_chunk := c; score := s; excerpt := text c; externalUrl := None |}.

Definition budget (n : Z) : ExpandOptions :=
  {| maxTotal := Some n; maxPerHeader := None; maxExtraTotal := None;
     maxExtraChars := None |}.

(** The outcome of a call, without the world. *)
Definition searched (q : string) (lim : option Z) : list RetrievedChunk :=
  match fst (searchDocs parse loadJS (searchFor q lim) sampleWorld) with
  | Ok r => r
  | Err _ => []
  end.

Definition expanded (retrieved : list RetrievedChunk) (options : ExpandOptions)
  : list RetrievedChunk :=
  match fst (expandHeaderContext parse loadJS retrieved options sampleWorld) with
  | Ok r => r
  | Err _ => []
  end.

End CorpusSamples.

Module FilterSamples.
Import Docs CorpusSamples.

(** A search for the rules of one year, PDF files only, from one file. *)
Definition rulesOf2025 : @SearchParams :=
  {| query := "brakes"; p_year := Some " 2025 "%string; limit := Some 3;
     extraTerms := None; pdfFileNameAllow := Some ["Rules.PDF"%string];
     kinds := Some [pdf] |}.

Definition rulesFound : list RetrievedChunk :=
  match fst (searchDocs parse loadJS rulesOf2025 sampleWorld) with
  | Ok r => r
  | Err _ => []
  end.

(** The best candidate of a search for brakes. *)
Definition brakesCandidate : RetrievedChunk :=
  match candidates sampleLoaded (searchFor "brakes" None) with
  | x :: _ => x
  | [] => ranked r1 0
  end.

End FilterSamples.

(** * Properties *)

(** ** Sorting and ordered maps *)

Module JsProofs.

Section SortFacts.
Context {A : Type} (before : A -> A -> bool) (R : relation A).
Hypothesis before_sound : forall x y, before x y = true -> R x y.
Hypothesis before_total : forall x y, before x y = false -> R y x.
Hypothesis R_trans : Transitive R.

Lemma insertSorted_perm x l : Js.insertSorted before x l ≡ₚ x :: l.
Proof.
  induction l as [| y l IH]; simpl; [done |].
  destruct (before x y); [done |]. rewrite IH. apply Permutation_swap.
Qed.

Lemma sortBy_perm l : Js.sortBy before l ≡ₚ l.
Proof.
  induction l as [| x l IH]; simpl; [done |].
  rewrite insertSorted_perm. by rewrite IH.
Qed.

Lemma insertSorted_sorted x l :
  StronglySorted R l -> StronglySorted R (Js.insertSorted before x l).
Proof.
  induction 1 as [| y l Hl IH Hy]; simpl.
  - repeat constructor.
  - destruct (before x y) eqn:Hxy.
    + constructor; [by constructor |]. constructor.
      * by apply before_sound.
      * eapply Forall_impl; [exact Hy |]. intros z Hz.
        etrans; [by apply before_sound | done].
    + constructor; [done |].
      rewrite insertSorted_perm. constructor; [by apply before_total | done].
Qed.

Lemma sortBy_sorted l : StronglySorted R (Js.sortBy before l).
Proof.
  induction l as [| x l IH]; simpl; [constructor |].
  by apply insertSorted_sorted.
Qed.
End SortFacts.

Lemma sortBy_length {A} (before : A -> A -> bool) l :
  length (Js.sortBy before l) = length l.
Proof. apply Permutation_length, sortBy_perm. Qed.

Lemma StronglySorted_sublist {A} (R : relation A) l1 l2 :
  l1 `sublist_of` l2 -> StronglySorted R l2 -> StronglySorted R l1.
Proof.
  induction 1 as [| x l1 l2 Hs IH | x l1 l2 Hs IH]; intros Hl2.
  - constructor.
  - apply StronglySorted_inv in Hl2 as [Hl2 Hx]. constructor; [auto |].
    rewrite Forall_forall in Hx |- *. intros y Hy. apply Hx.
    by eapply elem_of_sublist.
  - apply StronglySorted_inv in Hl2 as [Hl2 _]. auto.
Qed.

Lemma filter_sublist {A} (f : A -> bool) l : List.filter f l `sublist_of` l.
Proof.
  induction l as [| x l IH]; simpl; [constructor |].
  destruct (f x); by constructor.
Qed.

Lemma filter_length_perm {A} (f : A -> bool) l1 l2 :
  l1 ≡ₚ l2 -> length (List.filter f l1) = length (List.filter f l2).
Proof.
  induction 1 as [| x l1 l2 _ IH | x y l | l1 l2 l3 _ IH1 _ IH2]; simpl.
  - done.
  - destruct (f x); simpl; by rewrite IH.
  - by destruct (f x), (f y).
  - by rewrite IH1.
Qed.

(** A sub-multiset all of whose elements pass a test is no longer than
    what the test keeps of the whole. *)
Lemma submseteq_filter_length {A} (f : A -> bool) l1 l2 :
  l1 ⊆+ l2 -> Forall (fun x => f x = true) l1 ->
  (length l1 <= length (List.filter f l2))%nat.
Proof.
  intros (l' & Hsub & Hperm)%submseteq_sublist_l Hall.
  rewrite <- (filter_length_perm f _ _ Hperm). clear Hperm l2.
  induction Hsub as [| x l1 l2 Hs IH | x l1 l2 Hs IH]; simpl.
  - lia.
  - apply Forall_cons in Hall as [Hx Hall]. rewrite Hx. simpl.
    specialize (IH Hall). lia.
  - specialize (IH Hall). destruct (f x); simpl; lia.
Qed.

Section OrderedMapFacts.
Context {V : Type}.
Implicit Types (m : Js.Map V) (k : string) (v : V).

Lemma oset_keys k v m :
  Js.okeys (Js.oset k v m)
  = if bool_decide (k ∈ Js.okeys m) then Js.okeys m else Js.okeys m ++ [k].
Proof.
  induction m as [| [k' v'] m IH]; simpl; [done |].
  destruct (String.eqb_spec k k') as [-> | Hne]; simpl.
  - rewrite bool_decide_eq_true_2; [done | by left].
  - unfold Js.okeys in *. rewrite IH.
    destruct (bool_decide (k ∈ _)) eqn:Hk.
    + apply bool_decide_eq_true in Hk.
      rewrite bool_decide_eq_true_2; [done | by right].
    + apply bool_decide_eq_false in Hk.
      rewrite bool_decide_eq_false_2; [done |].
      by intros [? | ?]%elem_of_cons.
Qed.

Lemma oset_NoDup k v m : NoDup (Js.okeys m) -> NoDup (Js.okeys (Js.oset k v m)).
Proof.
  intros Hm. rewrite oset_keys. case_bool_decide; [done |].
  apply NoDup_app. split; [done |]. split; [| apply NoDup_singleton].
  intros x Hx ->%list_elem_of_singleton. done.
Qed.

Lemma oset_elem_of k v m k' :
  k' ∈ Js.okeys (Js.oset k v m) <-> k' = k \/ k' ∈ Js.okeys m.
Proof.
  rewrite oset_keys. case_bool_decide.
  - split; [auto |]. by intros [-> | ?].
  - rewrite elem_of_app, list_elem_of_singleton. tauto.
Qed.

(** Every entry of a map filled from a list by [set(key x, x)] is an
    element of the list under its own key. *)
Lemma oset_entries (key : V -> string) (P : V -> Prop) k v m :
  key v = k -> P v ->
  Forall (fun e => key (snd e) = fst e /\ P (snd e)) m ->
  Forall (fun e => key (snd e) = fst e /\ P (snd e)) (Js.oset k v m).
Proof.
  intros Hk Hv. induction 1 as [| [k' v'] m He Hm IH]; simpl.
  - by repeat constructor.
  - destruct (String.eqb_spec k k') as [-> | Hne]; constructor; auto.
Qed.

Lemma odelete_sublist k m : Js.odelete k m `sublist_of` m.
Proof.
  induction m as [| [k' v'] m IH]; simpl; [constructor |].
  destruct (String.eqb k k'); by constructor.
Qed.

Lemma odelete_gone k m : NoDup (Js.okeys m) -> k ∉ Js.okeys (Js.odelete k m).
Proof.
  induction m as [| [k' v'] m IH]; simpl; intros Hm.
  - apply not_elem_of_nil.
  - apply NoDup_cons in Hm as [Hk' Hm].
    destruct (String.eqb_spec k k') as [-> | Hne]; [done |].
    simpl. intros [? | ?]%elem_of_cons; [done |]. by apply IH.
Qed.

Lemma odelete_other k k' m :
  k' <> k -> k' ∈ Js.okeys m -> k' ∈ Js.okeys (Js.odelete k m).
Proof.
  intros Hne. induction m as [| [k0 v0] m IH]; simpl; [done |].
  intros [-> | Hin]%elem_of_cons.
  - destruct (String.eqb_spec k k0) as [-> | _]; [done |]. by left.
  - destruct (String.eqb_spec k k0) as [-> | _]; [done |].
    right. by apply IH.
Qed.

Lemma sublist_okeys m1 m2 :
  m1 `sublist_of` m2 -> Js.okeys m1 `sublist_of` Js.okeys m2.
Proof. intros H. unfold Js.okeys. by apply (fmap_sublist fst). Qed.
End OrderedMapFacts.

Lemma uniqFrom_NoDup items : forall seen,
  NoDup (Js.uniqFrom seen items)
  /\ forall x, x ∈ Js.uniqFrom seen items -> x ∉ seen.
Proof.
  induction items as [| x r IH]; intros seen; simpl.
  - split; [constructor | by intros ? ?%elem_of_nil].
  - case_bool_decide as Hx.
    + apply IH.
    + destruct (IH ({[x]} ∪ seen)) as [Hnd Hseen]. split.
      * constructor; [| done]. intros Hin. apply Hseen in Hin.
        apply Hin, elem_of_union_l. by apply elem_of_singleton.
      * intros y Hy. apply elem_of_cons in Hy as [-> | Hy]; [done |].
        apply Hseen in Hy. intros Hs. by apply Hy, elem_of_union_r.
Qed.

End JsProofs.

(** ** The string helpers on examples *)

Module JsExamples.
Example ofZ_12 :
  Js.ofZ 120 = "120"%string.
Proof. reflexivity. Qed.
Example words_ex :
  Js.words "  ab  c d "%string = ["ab"; "c"; "d"]%string.
Proof. reflexivity. Qed.
Example split_ex :
  Js.splitOn " " " ab  c"%string = [""; "ab"; ""; "c"]%string.
Proof. reflexivity. Qed.
Example idx_ex :
  Js.indexOf "hello" "lo" = 3.
Proof. reflexivity. Qed.
Example idx_ex2 :
  Js.indexOf "hello" "" = 0.
Proof. reflexivity. Qed.
Example idx_ex3 :
  Js.indexOf "hello" "x" = -1.
Proof. reflexivity. Qed.
Example slice_ex :
  Js.slice "hello" 1 3 = "el"%string.
Proof. reflexivity. Qed.
Example trim_ex :
  Js.trim "  a b  " = "a b"%string.
Proof. reflexivity. Qed.
Example sort_ex :
  Js.sortBy (fun a b => Z.leb b a) [1;3;2;3] = [3;3;2;1].
Proof. reflexivity. Qed.
Example norm_ex :
  Lookup.normalizeText "What is: the\nPenalty?  " = "what is the penalty"%string.
Proof. reflexivity. Qed.
Example header_ex :
  map Docs.isLikelyHeader
    ["Chapter 1"; "the rules."; "rulesx are"; "T 11.2 BRAKES"; "IV. Scope";
     "Brake System Design"; "the brake system is good"; "Contents";
     "ABCDEF"; "1: a"]%string
  = [true; true; false; true; true; true; false; true; false; true].
Proof. vm_compute; reflexivity. Qed.
Example terms_ex :
  Docs.extractTerms "What is the Brake-pedal travel, for sensor 12?"
  = ["brake-pedal"; "travel"; "sensor"; "12"]%string.
Proof. vm_compute; reflexivity. Qed.
Example excerpt_ex :
  Docs.makeExcerpt "hello   world this is   text" ["world"]%string 10
  = "...o world t..."%string.
Proof. vm_compute; reflexivity. Qed.
Example segment_ex :
  map Docs.parseSegmentIndex ["f:p3:s12"; "f:sx:s7a"; "abc"]%string = [12; 7; 0].
Proof. vm_compute; reflexivity. Qed.
Example equal_texts_score_one :
  Lookup.scoreMatch (Lookup.queryOf "Total current limit")
    (Lookup.queryOf "Total current limit") = 1%Q.
Proof. vm_compute; reflexivity. Qed.
Example unrelated_texts_score_zero :
  Lookup.scoreMatch (Lookup.queryOf "brake pedal travel sensor")
    (Lookup.queryOf "cost report submission deadline") = 0%Q.
Proof. vm_compute; reflexivity. Qed.
Example missing_bundle :
  fst (Docs.loadIndex CorpusSamples.parse CorpusSamples.loadJS
         CorpusSamples.emptyWorld)
  = Err (Docs.MissingIndexError "/app/data/index/bundle.json").
Proof. reflexivity. Qed.

End JsExamples.

(** ** The crawler *)

Module CrawlProofs.
Import Lookup Props.

Lemma batchIds_eq a :
  batchIds a = [a; a + 1; a + 2; a + 3; a + 4; a + 5; a + 6; a + 7].
Proof.
  unfold batchIds, batchSize. simpl. repeat f_equal; lia.
Qed.

Lemma batchIds_bounds a x : In x (batchIds a) -> a <= x < a + 8.
Proof.
  rewrite batchIds_eq. simpl. intros H.
  repeat (destruct H as [<- | H]; [lia |]). contradiction.
Qed.

(** What the [for] loop of a batch leaves alone, and what it only grows. *)
Lemma processResults_inv results : forall st n st' n',
  processResults results st n = (st', n') ->
  nextId st' = nextId st
  /\ (complete st = true -> complete st' = true)
  /\ (exists extra, items st' = items st ++ extra)
  /\ ((complete st = true -> items st <> []) ->
      complete st' = true -> items st' <> []).
Proof.
  induction results as [| r rest IH]; intros st n st' n' H; simpl in H.
  - inversion H; subst. repeat split; auto. exists []. by rewrite app_nil_r.
  - destruct r as [| q].
    + destruct (_ && _) eqn:Hstop.
      * inversion H; subst; simpl. repeat split; auto.
        -- exists []. by rewrite app_nil_r.
        -- intros _ _ Hnil. apply andb_prop in Hstop as [_ Hlen].
           simpl in Hlen. rewrite Hnil in Hlen.
           unfold minIndexedBeforeStop in Hlen. apply Z.leb_le in Hlen.
           simpl in Hlen. lia.
      * apply IH in H as (Hn & Hc & He & Hi). simpl in *. repeat split; auto.
    + apply IH in H as (Hn & Hc & [extra He] & Hi). simpl in *.
      repeat split; auto.
      * exists ([q] ++ extra). by rewrite He, <- app_assoc.
      * intros _ Hc'. apply Hi; [| done]. intros _ Hnil.
        by apply app_eq_nil in Hnil as [_ ?].
Qed.

(** One batch, whatever its outcome. *)
Lemma runBatch_inv server st log n r st' log' :
  runBatch server st log n = (r, st', log') ->
  nextId st' = nextId st + 8
  /\ (complete st = true -> complete st' = true)
  /\ (exists extra, items st' = items st ++ extra)
  /\ ((complete st = true -> items st <> []) ->
      complete st' = true -> items st' <> [])
  /\ log' = log ++ batchIds (nextId st).
Proof.
  unfold runBatch. destruct (promiseAll _) as [results | e].
  - destruct (processResults _ _ _) as [st2 n2] eqn:Hp. intros H.
    inversion H; subst. apply processResults_inv in Hp as (Hn & Hc & He & Hi).
    simpl in *. unfold batchSize in *. repeat split; auto.
  - intros H; inversion H; subst; simpl. unfold batchSize.
    repeat split; auto. exists []. by rewrite app_nil_r.
Qed.

(** A failing batch appends nothing. *)
Lemma runBatch_err server st log n e st' log' :
  runBatch server st log n = (Err e, st', log') ->
  st' = set_nextId (nextId st + 8) st
  /\ promiseAll (map (fun id => fetchQuestionById (server id) id)
                   (batchIds (nextId st))) = Err e.
Proof.
  unfold runBatch. destruct (promiseAll _) as [results | e'].
  - destruct (processResults _ _ _). intros H; inversion H.
  - intros H; inversion H; subst. split; reflexivity.
Qed.

Lemma promiseAll_err {E A} (l : list (Result E A)) :
  (exists e, In (Err e) l) -> exists e, promiseAll l = Err e /\ In (Err e) l.
Proof.
  induction l as [| [a | e] l IH]; intros [e0 Hin]; simpl in *.
  - contradiction.
  - destruct Hin as [Heq | Hin]; [discriminate |].
    destruct IH as (e & -> & Hin'); [eauto |]. eauto.
  - eauto.
Qed.

Lemma promiseAll_err_in {E A} (l : list (Result E A)) e :
  promiseAll l = Err e -> In (Err e) l.
Proof.
  induction l as [| [a | e'] l IH]; simpl; intros H.
  - discriminate.
  - destruct (promiseAll l); [discriminate |]. inversion H; subst. auto.
  - inversion H; subst. auto.
Qed.

Lemma promiseAll_ok {E A} (l : list (Result E A)) (r : list A) :
  l = map Ok r -> promiseAll l = Ok r.
Proof.
  intros ->. induction r as [| a r IH]; simpl; [done |]. by rewrite IH.
Qed.

(** The whole loop, whatever its outcome. *)
Lemma crawlLoop_inv server admitted : forall st log n r st' log',
  crawlLoop server admitted st log n = (r, st', log') ->
  nextId st <= nextId st'
  /\ (complete st = true -> complete st' = true)
  /\ (exists extra, items st' = items st ++ extra)
  /\ ((complete st = true -> items st <> []) ->
      complete st' = true -> items st' <> [])
  /\ (exists ids, log' = log ++ ids /\ forall x, In x ids -> nextId st <= x).
Proof.
  induction admitted as [| k IH]; intros st log n r st' log' H; simpl in H.
  - assert (Heq : (r, st', log') = (Ok n, st, log)) by (by destruct (complete st)).
    inversion Heq; subst. repeat split; auto; try lia.
    + exists []. by rewrite app_nil_r.
    + exists []. split; [by rewrite app_nil_r | intros ? []].
  - destruct (complete st) eqn:Hc.
    + inversion H; subst. repeat split; auto; try lia.
      * exists []. by rewrite app_nil_r.
      * exists []. split; [by rewrite app_nil_r | intros ? []].
    + destruct (runBatch server st log n) as [[rb stb] logb] eqn:Hb.
      pose proof (runBatch_inv _ _ _ _ _ _ _ Hb) as (Hn & _ & [ex He] & Hi & Hl).
      destruct rb as [nb | e].
      * apply IH in H as (Hn' & Hc' & [ex' He'] & Hi' & ids & Hl' & Hids).
        repeat split.
        -- lia.
        -- congruence.
        -- exists (ex ++ ex'). by rewrite He', He, <- app_assoc.
        -- intros _. apply Hi'. apply Hi. congruence.
        -- exists (batchIds (nextId st) ++ ids). split.
           ++ by rewrite Hl', Hl, <- app_assoc.
           ++ intros x [Hx | Hx]%in_app_or.
              ** apply batchIds_bounds in Hx. lia.
              ** apply Hids in Hx. lia.
      * inversion H; subst. repeat split.
        -- lia.
        -- congruence.
        -- eauto.
        -- intros _. apply Hi. congruence.
        -- exists (batchIds (nextId st)). split; [done |].
           intros x Hx%batchIds_bounds. lia.
Qed.

Lemma crawlLoop_zero server st log n :
  crawlLoop server 0 st log n = (Ok n, st, log).
Proof. simpl. by destruct (complete st). Qed.

(** A run that ended for lack of time goes on from where it stopped when
    it is given more. *)
Lemma crawlLoop_extend server k m : forall st log n0 nw s l,
  crawlLoop server m st log n0 = (Ok nw, s, l) ->
  complete s = false ->
  crawlLoop server (m + k) st log n0 = crawlLoop server k s l nw.
Proof.
  induction m as [| m IH]; intros st log n0 nw s l H Hs.
  - rewrite crawlLoop_zero in H. by inversion H; subst.
  - simpl in H |- *. destruct (complete st) eqn:Hc.
    + inversion H; subst. congruence.
    + destruct (runBatch server st log n0) as [[[nb | e] stb] logb]; [| done].
      by apply IH.
Qed.

(** A run that failed had gone through some batches and failed in the
    next one. *)
Lemma crawlLoop_err server admitted : forall st log n0 e st' log',
  crawlLoop server admitted st log n0 = (Err e, st', log') ->
  exists m s l nw,
    (m < admitted)%nat
    /\ crawlLoop server m st log n0 = (Ok nw, s, l)
    /\ complete s = false
    /\ runBatch server s l nw = (Err e, st', log').
Proof.
  induction admitted as [| k IH]; intros st log n0 e st' log' H.
  - by rewrite crawlLoop_zero in H.
  - simpl in H. destruct (complete st) eqn:Hc; [done |].
    destruct (runBatch server st log n0) as [[[nb | e'] stb] logb] eqn:Hb.
    + apply IH in H as (m & s & l & nw & Hm & Hrun & Hs & Hfail).
      exists (S m), s, l, nw. repeat split; [lia | | done | done].
      simpl. by rewrite Hc, Hb.
    + inversion H; subst. exists 0%nat, st, log, n0.
      repeat split; [lia | apply crawlLoop_zero | done | done].
Qed.

Lemma getIndexState_nextId g : 1 <= nextId (getIndexState g).
Proof.
  destruct g as [st |]; simpl; [| lia].
  destruct (_ && _); simpl; [lia |].
  destruct (nextId st <? 1) eqn:Hlt; simpl; [lia |].
  apply Z.ltb_ge in Hlt. lia.
Qed.

Lemma getIndexState_keeps st :
  ~ corrupt st ->
  nextId st <= nextId (getIndexState (Some st))
  /\ complete (getIndexState (Some st)) = complete st
  /\ items (getIndexState (Some st)) = items st
  /\ (1 <= nextId st -> getIndexState (Some st) = st).
Proof.
  intros Hok. simpl. destruct (_ && _) eqn:Hreset.
  - exfalso. apply Hok. apply andb_prop in Hreset as [Hc Hl]. split; [done |].
    apply Nat.eqb_eq in Hl. by destruct (items st).
  - destruct (nextId st <? 1) eqn:Hlt; simpl.
    + apply Z.ltb_lt in Hlt. repeat split; try lia.
    + repeat split; try lia.
Qed.

(** Eight "not found" in a row do not stop a crawl that has indexed fewer
    than 200 entries. *)
Lemma processResults_all_not_found k : forall st n,
  Z.of_nat (length (items st)) < 200 ->
  processResults (replicate k not_found) st n
  = (set_notFoundStreak (notFoundStreak st + Z.of_nat k) st, n).
Proof.
  induction k as [| k IH]; intros st n Hlen; simpl replicate; simpl processResults.
  - f_equal. destruct st; unfold set_notFoundStreak; simpl. f_equal. lia.
  - replace (minIndexedBeforeStop <=? _) with false
      by (symmetry; apply Z.leb_gt; unfold minIndexedBeforeStop; lia).
    rewrite andb_false_r. rewrite IH by done.
    f_equal. unfold set_notFoundStreak; simpl. f_equal. lia.
Qed.

(** The loop over a batch's results goes through a prefix that did not
    latch completion. *)
Lemma processResults_app pre rest : forall st n st1 n1,
  processResults pre st n = (st1, n1) ->
  complete st1 = false ->
  processResults (pre ++ rest) st n = processResults rest st1 n1.
Proof.
  induction pre as [| r pre IH]; intros st n st1 n1 H Hc; simpl in H |- *.
  - by inversion H; subst.
  - destruct r as [| q].
    + destruct (_ && _).
      * inversion H; subst. simpl in Hc. discriminate.
      * by apply IH.
    + by apply IH.
Qed.

Lemma ensureIndexed_settled b server admitted w st :
  settled b w ->
  __fredquiz_fsquiz_index w = Some st ->
  settled b (snd (ensureIndexedUntilEnd server admitted w))
  /\ (exists ids,
        requests (snd (ensureIndexedUntilEnd server admitted w))
        = requests w ++ ids
        /\ forall x, In x ids -> b <= x)
  /\ exists st' more,
       __fredquiz_fsquiz_index (snd (ensureIndexedUntilEnd server admitted w)) = Some st'
       /\ items st' = items st ++ more.
Proof.
  intros (st0 & Hg & Hb & H1 & Hi) Hst. rewrite Hg in Hst. inversion Hst; subst st0.
  unfold ensureIndexedUntilEnd. rewrite Hg.
  assert (Hok : ~ corrupt st) by (intros [Hc Hn]; by apply Hi).
  destruct (getIndexState_keeps st Hok) as (_ & _ & _ & Hsame).
  rewrite (Hsame H1). destruct (complete st) eqn:Hc.
  - simpl. split; [| split].
    + exists st. repeat split; auto.
    + exists []. split; [by rewrite app_nil_r | intros ? []].
    + exists st, []. by rewrite app_nil_r.
  - destruct (crawlLoop server admitted st (requests w) 0) as [[r st'] log'] eqn:Hl.
    apply crawlLoop_inv in Hl as (Hn & _ & [more Hmore] & Hi' & ids & Hlog & Hids).
    simpl. split; [| split].
    + exists st'. split; [done |]. split; [lia |]. split; [lia |].
      apply Hi'. congruence.
    + exists ids. split; [done |]. intros x Hx%Hids. lia.
    + eauto.
Qed.

(** Later calls request nothing below the cursor and drop nothing from
    the index. *)
Lemma runCalls_settled b calls : forall w st,
  settled b w ->
  __fredquiz_fsquiz_index w = Some st ->
  (exists later,
      requests (runCalls calls w) = requests w ++ later
      /\ forall x, In x later -> b <= x)
  /\ exists st' more,
       __fredquiz_fsquiz_index (runCalls calls w) = Some st'
       /\ items st' = items st ++ more.
Proof.
  induction calls as [| [server admitted] calls IH]; intros w st Hw Hst.
  - split.
    + exists []. split; [by rewrite app_nil_r | intros ? []].
    + exists st, []. by rewrite app_nil_r.
  - unfold runCalls; simpl.
    destruct (ensureIndexed_settled b server admitted w st Hw Hst)
      as (Hw' & (ids & Hr & Hids) & st1 & more1 & Hst1 & Hmore1).
    destruct (IH _ st1 Hw' Hst1)
      as ((later & Hl & Hlater) & st2 & more2 & Hst2 & Hmore2).
    unfold runCalls in Hl, Hst2. split.
    + exists (ids ++ later). split.
      * rewrite Hl, Hr. by rewrite <- app_assoc.
      * intros x [Hx | Hx]%in_app_or; auto.
    + exists st2, (more1 ++ more2). split; [done |].
      by rewrite Hmore2, Hmore1, <- app_assoc.
Qed.

(** *** Stop condition *)

Lemma processResults_not_found rest st n :
  200 <= Z.of_nat (length (items st)) ->
  processResults (not_found :: rest) st n
  = if 4 <=? notFoundStreak st + 1
    then (set_complete true (set_notFoundStreak (notFoundStreak st + 1) st), n)
    else processResults rest (set_notFoundStreak (notFoundStreak st + 1) st) n.
Proof.
  intros Hlen. cbn [processResults].
  unfold maxConsecutiveNotFound, minIndexedBeforeStop.
  cbn [notFoundStreak items set_notFoundStreak].
  replace (200 <=? Z.of_nat (length (items st))) with true
    by (symmetry; by apply Z.leb_le).
  by rewrite andb_true_r.
Qed.

Lemma four_not_found post st n :
  200 <= Z.of_nat (length (items st)) ->
  0 <= notFoundStreak st ->
  processResults ([not_found; not_found; not_found; not_found] ++ post) st n
  = (set_complete true
       (set_notFoundStreak (Z.max 4 (notFoundStreak st + 1)) st), n).
Proof.
  intros Hlen Hk. destruct st as [c nid k its]. simpl in Hlen, Hk.
  cbn [app].
  repeat (rewrite processResults_not_found by exact Hlen;
          cbn [notFoundStreak set_notFoundStreak items complete nextId];
          match goal with
          | |- context [4 <=? ?x] => destruct (Z.leb_spec 4 x)
          end;
          [ unfold set_complete, set_notFoundStreak; simpl;
            do 2 f_equal; lia | ]).
  lia.
Qed.

(** Claim C3, as the code has it: in a crawl with at least 200 entries
    indexed, when four "not found" answers follow one another within a
    batch, with the streak counter not negative and completion not yet
    latched before them, completion latches at the latest on the fourth
    of them (exactly on the fourth when the counter stood at 0) and the
    answers behind it are dropped, none of them being appended; all eight
    identifiers of the batch have been requested all the same. *)
Theorem stop_on_fourth_not_found
    (server : Z -> HttpResponse) (st : FsQuizIndexState) (log : list Z)
    (n : Z) (pre post : list Fetched) (st1 : FsQuizIndexState) (n1 : Z)
    (Hlen : 200 <= Z.of_nat (length (items st)))
    (Hres : promiseAll (map (fun id => fetchQuestionById (server id) id)
                          (batchIds (nextId st)))
            = Ok (pre ++ [not_found; not_found; not_found; not_found] ++ post))
    (Hpre : processResults pre (set_nextId (nextId st + batchSize) st) n
            = (st1, n1))
    (Hopen : complete st1 = false)
    (Hstreak : 0 <= notFoundStreak st1) :
  runBatch server st log n
  = (Ok n1,
     set_complete true
       (set_notFoundStreak (Z.max 4 (notFoundStreak st1 + 1)) st1),
     log ++ batchIds (nextId st)).
Proof.
  unfold runBatch. rewrite Hres.
  rewrite (processResults_app _ _ _ _ _ _ Hpre Hopen).
  apply processResults_inv in Hpre as (_ & _ & [extra He] & _).
  rewrite four_not_found; [done | | done].
  rewrite He. simpl. rewrite length_app. lia.
Qed.

Lemma stop_on_fourth_not_found_witness :
  200 <= Z.of_nat (length (items (Samples.indexedUpTo 200)))
  /\ runBatch Samples.sourceWithGap (Samples.indexedUpTo 200) [] 0
     = (Ok 0,
        set_complete true
          (set_notFoundStreak 4 (set_nextId 209 (Samples.indexedUpTo 200))),
        [201; 202; 203; 204; 205; 206; 207; 208]).
Proof.
  split; [vm_compute; discriminate |].
  apply (stop_on_fourth_not_found Samples.sourceWithGap
           (Samples.indexedUpTo 200) [] 0 []
           [Found (Samples.entry 205); Found (Samples.entry 206);
            Found (Samples.entry 207); Found (Samples.entry 208)]
           (set_nextId 209 (Samples.indexedUpTo 200)) 0).
  - vm_compute; discriminate.
  - vm_compute; reflexivity.
  - reflexivity.
  - reflexivity.
  - vm_compute; discriminate.
Defined.

(** Claim C3 as stated fails: with 200 entries indexed and the
    identifiers 201 to 204 answering "not found", the call latches
    completion, yet 205 to 208 have been requested too; their records are
    fetched and thrown away. *)
Lemma rest_of_batch_is_requested :
  let w := Samples.worldOf (Samples.indexedUpTo 200) in
  let w' := snd (ensureIndexedUntilEnd Samples.sourceWithGap 1 w) in
  length (items (Samples.indexedUpTo 200)) = 200%nat
  /\ Forall (fun n => fetchQuestionById (Samples.sourceWithGap n) n = Ok not_found)
       [201; 202; 203; 204]
  /\ (complete <$> __fredquiz_fsquiz_index w') = Some true
  /\ (length ∘ items <$> __fredquiz_fsquiz_index w') = Some 200%nat
  /\ requests w' = [201; 202; 203; 204; 205; 206; 207; 208]
  /\ ~ (forall n, In n [205; 206; 207; 208] -> ~ In n (requests w')).
Proof.
  cbv zeta.
  split; [vm_compute; reflexivity |].
  split; [repeat constructor |].
  split; [vm_compute; reflexivity |].
  split; [vm_compute; reflexivity |].
  split; [vm_compute; reflexivity |].
  intros H. apply (H 205); [simpl; tauto |].
  replace (requests _) with [201; 202; 203; 204; 205; 206; 207; 208]
    by (vm_compute; reflexivity).
  simpl; tauto.
Qed.

(** *** Monotone cursor, one-way latch *)

Lemma all_not_found_results (server : Z -> HttpResponse) ids :
  Forall (fun id => fetchQuestionById (server id) id = Ok not_found) ids ->
  promiseAll (map (fun id => fetchQuestionById (server id) id) ids)
  = Ok (replicate (length ids) not_found).
Proof.
  intros H. apply promiseAll_ok. induction H as [| id ids Hid _ IH]; simpl.
  - reflexivity.
  - by rewrite Hid, IH.
Qed.

(** Claim C4: the cursor [nextId] never decreases and completion, once
    set, stays set, across a whole call of [ensureIndexedUntilEnd] on a
    state that is not the corrupt one which [getIndexState] resets, across
    [getIndexState] itself and across every batch whatever its outcome;
    and a batch whose eight identifiers all answer "not found" while fewer
    than 200 entries are indexed leaves completion unset and the cursor
    eight further, past the whole batch. *)
Theorem cursor_monotone_latch_one_way
    (server : Z -> HttpResponse) (admitted : nat) (w : CrawlWorld)
    (st : FsQuizIndexState)
    (Hg : __fredquiz_fsquiz_index w = Some st) (Hok : ~ corrupt st) :
  (exists st',
      __fredquiz_fsquiz_index (snd (ensureIndexedUntilEnd server admitted w)) = Some st'
      /\ nextId st <= nextId st'
      /\ (complete st = true -> complete st' = true))
  /\ (nextId st <= nextId (getIndexState (Some st))
      /\ complete (getIndexState (Some st)) = complete st)
  /\ (forall s log n r s' log',
        runBatch server s log n = (r, s', log') ->
        nextId s' = nextId s + 8
        /\ (complete s = true -> complete s' = true))
  /\ (forall s log n,
        complete s = false ->
        Z.of_nat (length (items s)) < 200 ->
        Forall (fun id => fetchQuestionById (server id) id = Ok not_found)
          (batchIds (nextId s)) ->
        runBatch server s log n
        = (Ok n,
           {| complete := false; nextId := nextId s + 8;
              notFoundStreak := notFoundStreak s + 8; items := items s |},
           log ++ batchIds (nextId s))).
Proof.
  destruct (getIndexState_keeps st Hok) as (Hn0 & Hc0 & _ & _).
  split; [| split; [auto | split]].
  - unfold ensureIndexedUntilEnd. rewrite Hg.
    destruct (complete (getIndexState (Some st))) eqn:Hc.
    + simpl. eauto.
    + destruct (crawlLoop _ _ _ _ _) as [[r st'] log'] eqn:Hl.
      apply crawlLoop_inv in Hl as (Hn & _ & _ & _ & _).
      simpl. exists st'. split; [done |]. split; [lia | congruence].
  - intros s log n r s' log' Hb.
    apply runBatch_inv in Hb as (Hn & Hc & _). auto.
  - intros s log n Hc Hlen Hall. unfold runBatch.
    rewrite (all_not_found_results _ _ Hall).
    rewrite processResults_all_not_found by (simpl; lia).
    rewrite batchIds_eq. simpl. unfold set_notFoundStreak, batchSize; simpl.
    by rewrite Hc.
Qed.

Lemma cursor_monotone_latch_one_way_witness :
  ~ corrupt (Samples.indexedUpTo 100)
  /\ runBatch (Samples.sourceUpTo 100) (Samples.indexedUpTo 100) [] 0
     = (Ok 0,
        {| complete := false; nextId := 109; notFoundStreak := 8;
           items := items (Samples.indexedUpTo 100) |},
        [101; 102; 103; 104; 105; 106; 107; 108]).
Proof.
  assert (Hok : ~ corrupt (Samples.indexedUpTo 100)).
  { intros [Hc _]. vm_compute in Hc. discriminate. }
  split; [exact Hok |].
  destruct (cursor_monotone_latch_one_way (Samples.sourceUpTo 100) 1
              (Samples.worldOf (Samples.indexedUpTo 100))
              (Samples.indexedUpTo 100) eq_refl Hok)
    as (_ & _ & _ & Hbatch).
  apply (Hbatch (Samples.indexedUpTo 100) [] 0).
  - reflexivity.
  - vm_compute; reflexivity.
  - repeat constructor.
Defined.

(** *** Failing fetches *)

(** Claim C7: when the batch that a call reaches, after [m] batches that
    went through, contains an identifier whose fetch fails (no answer, a
    status that is neither 404 nor a success, an unreadable body), the
    call ends with a fetch error of that batch; the shared state it leaves
    holds exactly the entries indexed before that batch, which include all
    those present when the call began; and whatever calls follow, the
    index they leave begins with those entries. *)
Theorem fetch_failure_is_fatal_and_keeps_index
    (server : Z -> HttpResponse) (m n : nat) (w : CrawlWorld)
    (s : FsQuizIndexState) (l : list Z) (nw : Z) (bad : Z) (e0 : FetchError)
    (Hrun : ensureIndexedUntilEnd server m w
            = (Ok nw, {| __fredquiz_fsquiz_index := Some s; requests := l |}))
    (Hopen : complete s = false)
    (Hbad : In bad (batchIds (nextId s)))
    (Hfail : fetchQuestionById (server bad) bad = Err e0) :
  exists e w',
    ensureIndexedUntilEnd server (m + S n) w = (Err e, w')
    /\ In (Err e) (map (fun id => fetchQuestionById (server id) id)
                     (batchIds (nextId s)))
    /\ (items <$> __fredquiz_fsquiz_index w') = Some (items s)
    /\ (exists before,
          items s = items (getIndexState (__fredquiz_fsquiz_index w)) ++ before)
    /\ forall calls : list ((Z -> HttpResponse) * nat),
         exists st' more,
           __fredquiz_fsquiz_index (runCalls calls w') = Some st'
           /\ items st' = items s ++ more.
Proof.
  unfold ensureIndexedUntilEnd in *.
  destruct (complete (getIndexState (__fredquiz_fsquiz_index w))) eqn:Hc0.
  { inversion Hrun; subst. congruence. }
  destruct (crawlLoop server m _ _ _) as [[r st'] log'] eqn:Hl.
  inversion Hrun; subst.
  rewrite (crawlLoop_extend _ (S n) _ _ _ _ _ _ _ Hl Hopen).
  apply crawlLoop_inv in Hl as (Hn & _ & Hitems & _).
  pose proof (getIndexState_nextId (__fredquiz_fsquiz_index w)) as H1.
  simpl. rewrite Hopen. unfold runBatch.
  destruct (promiseAll_err
              (map (fun id => fetchQuestionById (server id) id)
                 (batchIds (nextId s)))) as (e & He & Hin).
  { exists e0. rewrite <- Hfail.
    apply (in_map (fun id => fetchQuestionById (server id) id)), Hbad. }
  rewrite He. eexists _, _. split; [reflexivity |]. simpl.
  split; [done |]. split; [done |]. split; [done |].
  intros calls.
  apply (runCalls_settled (nextId s + batchSize) calls _
           (set_nextId (nextId s + batchSize) s)); [| done].
  exists (set_nextId (nextId s + batchSize) s). simpl. unfold batchSize.
  split; [done |]. split; [lia |]. split; [lia | congruence].
Qed.

Lemma fetch_failure_is_fatal_and_keeps_index_witness :
  exists e w',
    ensureIndexedUntilEnd Samples.sourceFailingAt19 (2 + 1) (Samples.worldOf freshState)
    = (Err e, w')
    /\ (length ∘ items <$> __fredquiz_fsquiz_index w') = Some 16%nat.
Proof.
  destruct (fetch_failure_is_fatal_and_keeps_index
              Samples.sourceFailingAt19 2 0 (Samples.worldOf freshState)
              (snd (fst (crawlLoop Samples.sourceFailingAt19 2 freshState [] 0)))
              (batchIds 1 ++ batchIds 9) 16 19 (RequestFailed 500))
    as (e & w' & Hcall & _ & Hitems & _).
  - vm_compute; reflexivity.
  - vm_compute; reflexivity.
  - vm_compute; tauto.
  - vm_compute; reflexivity.
  - exists e, w'. split; [exact Hcall |].
    destruct (__fredquiz_fsquiz_index w') as [st' |]; [| discriminate].
    simpl in Hitems |- *. inversion Hitems as [Heq]. rewrite Heq.
    vm_compute; reflexivity.
Defined.

(** Claim C9: a call that fails had reached a batch in which some fetch
    failed; it leaves the index as it was before that batch, so that no
    entry of the batch, successfully fetched or not, is indexed; the
    cursor stands eight past the start of the batch; and whatever calls
    follow on the shared state, none requests an identifier below that
    cursor, so that the eight of the failed batch are never requested
    again. *)
Theorem failed_batch_is_skipped_for_good
    (server : Z -> HttpResponse) (admitted : nat) (w w' : CrawlWorld)
    (e : FetchError)
    (Hcall : ensureIndexedUntilEnd server admitted w = (Err e, w')) :
  exists (m : nat) (s : FsQuizIndexState) (l : list Z) (nw : Z),
    (m < admitted)%nat
    /\ ensureIndexedUntilEnd server m w
       = (Ok nw, {| __fredquiz_fsquiz_index := Some s; requests := l |})
    /\ complete s = false
    /\ (exists bad, In bad (batchIds (nextId s))
                    /\ fetchQuestionById (server bad) bad = Err e)
    /\ w' = {| __fredquiz_fsquiz_index := Some (set_nextId (nextId s + 8) s);
               requests := l ++ batchIds (nextId s) |}
    /\ forall calls : list ((Z -> HttpResponse) * nat),
         exists later,
           requests (runCalls calls w') = requests w' ++ later
           /\ forall x, In x later -> nextId s + 8 <= x.
Proof.
  unfold ensureIndexedUntilEnd in Hcall.
  destruct (complete (getIndexState (__fredquiz_fsquiz_index w))) eqn:Hc0; [done |].
  destruct (crawlLoop server admitted _ _ _) as [[r st'] log'] eqn:Hl.
  inversion Hcall; subst. clear Hcall.
  apply crawlLoop_err in Hl as (m & s & l & nw & Hm & Hrun & Hopen & Hfail).
  pose proof (crawlLoop_inv _ _ _ _ _ _ _ _ Hrun) as (Hn & _).
  pose proof (getIndexState_nextId (__fredquiz_fsquiz_index w)) as H1.
  pose proof (runBatch_inv _ _ _ _ _ _ _ Hfail) as (_ & _ & _ & _ & Hlog).
  apply runBatch_err in Hfail as (-> & Hp).
  exists m, s, l, nw. split; [done |]. split.
  { unfold ensureIndexedUntilEnd. by rewrite Hc0, Hrun. }
  split; [done |]. split.
  { apply promiseAll_err_in, in_map_iff in Hp as (bad & Hb & Hin). eauto. }
  split; [by rewrite Hlog |].
  intros calls.
  apply (runCalls_settled (nextId s + 8) calls _ (set_nextId (nextId s + 8) s));
    [| done].
  exists (set_nextId (nextId s + 8) s). simpl.
  split; [done |]. split; [lia |]. split; [lia | congruence].
Qed.

Lemma failed_batch_is_skipped_for_good_witness :
  exists later,
    requests
      (runCalls [(Samples.sourceUpTo 40, 1%nat)]
         (snd (ensureIndexedUntilEnd Samples.sourceFailingAt19 5
                 (Samples.worldOf freshState))))
    = requests (snd (ensureIndexedUntilEnd Samples.sourceFailingAt19 5
                       (Samples.worldOf freshState))) ++ later
    /\ forall x, In x later -> 25 <= x.
Proof.
  destruct (failed_batch_is_skipped_for_good Samples.sourceFailingAt19 5
              (Samples.worldOf freshState)
              (snd (ensureIndexedUntilEnd Samples.sourceFailingAt19 5
                      (Samples.worldOf freshState)))
              (RequestFailed 500))
    as (m & s & l & nw & _ & _ & _ & _ & Hw' & Hlater).
  - vm_compute; reflexivity.
  - destruct (Hlater [(Samples.sourceUpTo 40, 1%nat)]) as (later & Hreq & Hge).
    exists later. split; [exact Hreq |].
    intros x Hx. specialize (Hge x Hx).
    assert (Hs : nextId s + 8 = 25).
    { assert (Hsome : Some 25 = Some (nextId s + 8)); [| by inversion Hsome].
      change (Some (nextId s + 8))
        with (nextId <$> __fredquiz_fsquiz_index
                {| __fredquiz_fsquiz_index := Some (set_nextId (nextId s + 8) s);
                   requests := l ++ batchIds (nextId s) |}).
      rewrite <- Hw'. vm_compute; reflexivity. }
    lia.
Defined.

End CrawlProofs.

(** ** The fuzzy matcher *)

Module MatchProofs.
Import Lookup MatchSamples.

Lemma spin_normalized :
  normalized spinQuery = "describe the penalty for a spin"%string
  /\ normalized spinCandidate
     = "what is the penalty for a spin during dynamic events"%string
  /\ Js.includes (normalized spinCandidate) (normalized spinQuery) = false
  /\ Js.includes (normalized spinQuery) (normalized spinCandidate) = false.
Proof. repeat split; vm_compute; reflexivity. Qed.

Lemma spin_tokens :
  size (tokens spinQuery) = 5%nat
  /\ size (tokens spinCandidate) = 9%nat
  /\ countShared (tokens spinQuery) (tokens spinCandidate) = 4%nat.
Proof. repeat split; vm_compute; reflexivity. Qed.

Lemma spin_score : (scoreMatch spinQuery spinCandidate == 17 # 25)%Q.
Proof. vm_compute; reflexivity. Qed.

(** Claim C5, as the code has it: for the query "describe the penalty
    for a spin" and the single candidate "what is the penalty for a spin
    during dynamic events", neither text contains the other, so that the
    score is the token blend 0.3 * 4/10 + 0.7 * 4/5, which is 0.68 in
    exact arithmetic; and the candidate is returned, with that score,
    whenever the threshold is at most the score and at least one match is
    asked for, as with the threshold 0.4 that the route uses. *)
Theorem spin_example_scores_by_token_blend
    (threshold : Q) (topN : nat)
    (Hthreshold : (threshold <= scoreMatch spinQuery spinCandidate)%Q)
    (HtopN : (1 <= topN)%nat) :
  (scoreMatch spinQuery spinCandidate == 17 # 25)%Q
  /\ Js.includes (normalized spinCandidate) (normalized spinQuery) = false
  /\ Js.includes (normalized spinQuery) (normalized spinCandidate) = false
  /\ rankMatches threshold topN spinQuery [spinCandidate]
     = [(spinCandidate, scoreMatch spinQuery spinCandidate)].
Proof.
  split; [apply spin_score |].
  split; [apply spin_normalized |]. split; [apply spin_normalized |].
  unfold rankMatches. cbn [map List.filter snd].
  replace (Qle_bool threshold (scoreMatch spinQuery spinCandidate)) with true.
  - cbn [Js.sortBy foldr Js.insertSorted].
    destruct topN as [| n]; [lia |]. simpl. by rewrite take_nil.
  - symmetry. by apply Qle_bool_iff.
Qed.

Lemma spin_example_scores_by_token_blend_witness :
  (2 # 5 <= scoreMatch spinQuery spinCandidate)%Q
  /\ map snd
       (postMatches "describe the penalty for a spin"
          {| complete := false; nextId := 8; notFoundStreak := 0;
             items := [spinCandidate] |})
     = [scoreMatch spinQuery spinCandidate].
Proof.
  assert (Hle : (2 # 5 <= scoreMatch spinQuery spinCandidate)%Q)
    by (rewrite spin_score; vm_compute; discriminate).
  split; [exact Hle |].
  unfold postMatches. cbn [items].
  change (queryOf "describe the penalty for a spin") with spinQuery.
  destruct (spin_example_scores_by_token_blend (2 # 5) 1 Hle) as (_ & _ & _ & Hrank).
  - lia.
  - by rewrite Hrank.
Defined.

(** Claim C5 as stated fails: the score of the example is below 0.85,
    and with a threshold of 0.85 the candidate is not returned. *)
Lemma spin_example_scores_below_substring_rule :
  ~ (17 # 20 <= scoreMatch spinQuery spinCandidate)%Q
  /\ rankMatches (17 # 20) 1 spinQuery [spinCandidate] = [].
Proof.
  split; [| vm_compute; reflexivity].
  rewrite spin_score. intros H. vm_compute in H. by apply H.
Qed.

End MatchProofs.

(** ** Diversification *)

Module DocsProofs.
Import Docs Props.

Lemma byScore_sorted l : descending (Js.sortBy byScore l).
Proof.
  apply JsProofs.sortBy_sorted.
  - intros x y H. by apply Qle_bool_iff.
  - intros x y H. unfold byScoreDesc, byScore in *.
    apply Qlt_le_weak, Qnot_le_lt.
    intros Hle. apply Qle_bool_iff in Hle. congruence.
  - intros x y z Hxy Hyz. unfold byScoreDesc in *. by eapply Qle_trans.
Qed.

Lemma fromFile_snoc f l (x : RetrievedChunk) :
  fromFile f (l ++ [x])
  = (fromFile f l + if String.eqb (fileName x) f then 1 else 0)%nat.
Proof.
  unfold fromFile. rewrite List.filter_app, length_app. simpl.
  by destruct (String.eqb _ _).
Qed.

Lemma ids_snoc l (x : RetrievedChunk) : ids (l ++ [x]) = ids l ++ [chunkId x].
Proof. unfold ids. by rewrite map_app. Qed.

(** The first loop: what it picks is a subsequence of [out], within the
    cap of every file, and within [limit] once [limit] is positive. *)
Lemma pickCapped_spec limit out : forall picked perFile pickedIds picked' pickedIds',
  pickCapped limit out picked perFile pickedIds = (picked', pickedIds') ->
  (forall f, default 0 (perFile !! f) = Z.of_nat (fromFile f picked)) ->
  (forall f, (fromFile f picked <= 4)%nat) ->
  (forall k, k ∈ pickedIds <-> k ∈ ids picked) ->
  exists sel,
    picked' = picked ++ sel
    /\ sel `sublist_of` out
    /\ (forall f, (fromFile f picked' <= 4)%nat)
    /\ (forall k, k ∈ pickedIds' <-> k ∈ ids picked')
    /\ (Z.of_nat (length picked) < limit -> Z.of_nat (length picked') <= limit).
Proof.
  induction out as [| item rest IH];
    intros picked perFile pickedIds picked' pickedIds' H Hcount Hcap Hids;
    simpl in H.
  - inversion H; subst. exists []. rewrite app_nil_r.
    split; [done |]. split; [constructor |]. split; [done |].
    split; [done | lia].
  - destruct (perFileCap <=? _) eqn:Hfull.
    + destruct (IH _ _ _ _ _ H Hcount Hcap Hids) as (sel & -> & Hsub & ?).
      exists sel. split; [done |]. split; [by constructor |]. done.
    + apply Z.leb_gt in Hfull. rewrite Hcount in Hfull. unfold perFileCap in Hfull.
      assert (Hcount' : forall f,
                 default 0 (<[fileName item := default 0 (perFile !! fileName item) + 1]>
                              perFile !! f)
                 = Z.of_nat (fromFile f (picked ++ [item]))).
      { intros f. rewrite fromFile_snoc.
        destruct (String.eqb_spec (fileName item) f) as [<- | Hne].
        - rewrite lookup_insert_eq. simpl. rewrite Hcount. lia.
        - rewrite lookup_insert_ne by done. rewrite Hcount. lia. }
      assert (Hcap' : forall f, (fromFile f (picked ++ [item]) <= 4)%nat).
      { intros f. rewrite fromFile_snoc.
        destruct (String.eqb_spec (fileName item) f) as [<- | Hne].
        - lia.
        - specialize (Hcap f). lia. }
      assert (Hids' : forall k,
                 k ∈ ({[chunkId item]} ∪ pickedIds : gset string)
                 <-> k ∈ ids (picked ++ [item])).
      { intros k. rewrite ids_snoc, elem_of_union, elem_of_app, Hids.
        rewrite elem_of_singleton, list_elem_of_singleton. tauto. }
      destruct (limit <=? _) eqn:Hlim.
      * inversion H; subst. exists [item]. split; [done |].
        split; [constructor; apply sublist_nil_l |]. split; [done |].
        split; [done |]. rewrite length_app. simpl. lia.
      * apply Z.leb_gt in Hlim.
        destruct (IH _ _ _ _ _ H Hcount' Hcap' Hids')
          as (sel & Heq & Hsub & Hc & Hi & Hlen).
        rewrite <- app_assoc in Heq. simpl in Heq.
        exists (item :: sel). split; [done |].
        split; [by constructor |]. auto.
Qed.

(** The second loop: what it appends is a subsequence of [out] too, made
    of chunks not picked before. *)
Lemma backfill_spec limit out : forall picked pickedIds,
  (forall k, k ∈ pickedIds <-> k ∈ ids picked) ->
  exists sel,
    backfill limit out picked pickedIds = picked ++ sel
    /\ sel `sublist_of` out
    /\ (Z.of_nat (length picked) < limit ->
        Z.of_nat (length (picked ++ sel)) <= limit)
    /\ (NoDup (ids picked) -> NoDup (ids out) -> NoDup (ids (picked ++ sel))).
Proof.
  induction out as [| item rest IH]; intros picked pickedIds Hids; simpl.
  - exists []. rewrite app_nil_r.
    split; [done |]. split; [constructor |]. split; [lia | done].
  - case_bool_decide as Hin.
    + destruct (IH picked pickedIds Hids) as (sel & -> & Hsub & Hlen & Hnd).
      exists sel. split; [done |]. split; [by constructor |]. split; [done |].
      intros Hp Ho. apply Hnd; [done |]. by apply NoDup_cons in Ho as [_ ?].
    + assert (Hids' : forall k,
                 k ∈ ({[chunkId item]} ∪ pickedIds : gset string)
                 <-> k ∈ ids (picked ++ [item])).
      { intros k. rewrite ids_snoc, elem_of_union, elem_of_app, Hids.
        rewrite elem_of_singleton, list_elem_of_singleton. tauto. }
      assert (Hnd1 : NoDup (ids picked) -> NoDup (ids (picked ++ [item]))).
      { intros Hp. rewrite ids_snoc. apply NoDup_app. split; [done |].
        split; [| apply NoDup_singleton].
        intros k Hk ->%list_elem_of_singleton. by apply Hin, Hids. }
      destruct (limit <=? _) eqn:Hlim.
      * exists [item]. split; [done |].
        split; [constructor; apply sublist_nil_l |].
        split; [rewrite length_app; simpl; lia | auto].
      * apply Z.leb_gt in Hlim.
        destruct (IH _ _ Hids') as (sel & Heq & Hsub & Hlen & Hnd).
        rewrite <- app_assoc in Heq, Hlen, Hnd. simpl in Heq, Hlen, Hnd.
        exists (item :: sel). split; [done |].
        split; [by constructor |]. split; [auto |].
        intros Hp Ho. apply Hnd; [auto |]. by apply NoDup_cons in Ho as [_ ?].
Qed.

Lemma ids_sublist l1 l2 : l1 `sublist_of` l2 -> ids l1 `sublist_of` ids l2.
Proof. intros H. unfold ids. by apply (fmap_sublist _). Qed.

Lemma ids_perm l1 l2 : l1 ≡ₚ l2 -> ids l1 ≡ₚ ids l2.
Proof. intros H. unfold ids. by apply fmap_Permutation. Qed.

(** The first loop only appends. *)
Lemma pickCapped_extends limit out : forall picked perFile pickedIds picked' pickedIds',
  pickCapped limit out picked perFile pickedIds = (picked', pickedIds') ->
  exists sel, picked' = picked ++ sel.
Proof.
  induction out as [| item rest IH];
    intros picked perFile pickedIds picked' pickedIds' H; simpl in H.
  - inversion H; subst. exists []. by rewrite app_nil_r.
  - destruct (perFileCap <=? _); [by eapply IH |].
    destruct (limit <=? _).
    + inversion H; subst. by exists [item].
    + apply IH in H as (sel & ->). exists (item :: sel).
      by rewrite <- app_assoc.
Qed.

Lemma fromFile_app f l1 l2 :
  fromFile f (l1 ++ l2) = (fromFile f l1 + fromFile f l2)%nat.
Proof. unfold fromFile. by rewrite List.filter_app, length_app. Qed.

(** The first loop leaves a chunk out for one of two reasons only: its
    file has its four chunks, or [limit] is reached. *)
Lemma pickCapped_left_out limit out : forall picked perFile pickedIds picked' pickedIds',
  pickCapped limit out picked perFile pickedIds = (picked', pickedIds') ->
  (forall f, default 0 (perFile !! f) = Z.of_nat (fromFile f picked)) ->
  forall x : RetrievedChunk,
    x ∈ out ->
    x ∈ picked'
    \/ limit <= Z.of_nat (length picked')
    \/ (4 <= fromFile (fileName x) picked')%nat.
Proof.
  induction out as [| item rest IH];
    intros picked perFile pickedIds picked' pickedIds' H Hcount x Hx;
    [by apply elem_of_nil in Hx |].
  simpl in H. destruct (perFileCap <=? _) eqn:Hfull.
  - apply elem_of_cons in Hx as [-> | Hx]; [| by eapply IH].
    destruct (pickCapped_extends _ _ _ _ _ _ _ H) as (sel & ->).
    apply Z.leb_le in Hfull. rewrite Hcount in Hfull. unfold perFileCap in Hfull.
    right. right. rewrite fromFile_app. lia.
  - assert (Hcount' : forall f,
               default 0 (<[fileName item := default 0 (perFile !! fileName item) + 1]>
                            perFile !! f)
               = Z.of_nat (fromFile f (picked ++ [item]))).
    { intros f. rewrite fromFile_snoc.
      destruct (String.eqb_spec (fileName item) f) as [<- | Hne].
      - rewrite lookup_insert_eq. simpl. rewrite Hcount. lia.
      - rewrite lookup_insert_ne by done. rewrite Hcount. lia. }
    destruct (limit <=? _) eqn:Hlim.
    + inversion H; subst. apply Z.leb_le in Hlim.
      apply elem_of_cons in Hx as [-> | Hx]; [| by right; left].
      left. apply elem_of_app. right. by left.
    + apply elem_of_cons in Hx as [-> | Hx]; [| by eapply IH].
      destruct (pickCapped_extends _ _ _ _ _ _ _ H) as (sel & ->).
      left. rewrite <- app_assoc. apply elem_of_app. right. by left.
Qed.

(** The second loop appends no chunk that was picked before. *)
Lemma backfill_fresh limit out : forall picked pickedIds sel,
  (forall k, k ∈ pickedIds <-> k ∈ ids picked) ->
  backfill limit out picked pickedIds = picked ++ sel ->
  Forall (fun x : RetrievedChunk => chunkId x ∉ ids picked) sel.
Proof.
  induction out as [| item rest IH]; intros picked pickedIds sel Hids H;
    simpl in H.
  - rewrite <- (app_nil_r picked) in H at 1. apply app_inv_head in H as <-.
    constructor.
  - case_bool_decide as Hin; [by eapply IH |].
    assert (Hids' : forall k,
               k ∈ ({[chunkId item]} ∪ pickedIds : gset string)
               <-> k ∈ ids (picked ++ [item])).
    { intros k. rewrite ids_snoc, elem_of_union, elem_of_app, Hids.
      rewrite elem_of_singleton, list_elem_of_singleton. tauto. }
    assert (Hitem : chunkId item ∉ ids picked) by (by rewrite <- Hids).
    destruct (limit <=? _).
    + apply app_inv_head in H as <-. by repeat constructor.
    + destruct (backfill_spec limit rest (picked ++ [item]) _ Hids')
        as (sel1 & Heq & _).
      pose proof Heq as Heq'. rewrite H, <- app_assoc in Heq'.
      apply app_inv_head in Heq'. simpl in Heq'. subst sel.
      constructor; [done |].
      eapply Forall_impl; [exact (IH _ _ _ Hids' Heq) |].
      intros y Hy Hyin. apply Hy. rewrite ids_snoc. apply elem_of_app. by left.
Qed.

(** The second loop goes on until [limit] is reached or no chunk is
    left. *)
Lemma backfill_complete limit out : forall picked pickedIds,
  (forall k, k ∈ pickedIds <-> k ∈ ids picked) ->
  Z.of_nat (length (backfill limit out picked pickedIds)) < limit ->
  forall x : RetrievedChunk,
    x ∈ out -> chunkId x ∈ ids (backfill limit out picked pickedIds).
Proof.
  induction out as [| item rest IH]; intros picked pickedIds Hids Hlen x;
    [by rewrite elem_of_nil |].
  assert (Hkeeps : forall p pi, (forall k, k ∈ pi <-> k ∈ ids p) ->
            forall k, k ∈ ids p -> k ∈ ids (backfill limit rest p pi)).
  { intros p pi Hpi k Hk.
    destruct (backfill_spec limit rest p pi Hpi) as (sel & -> & _).
    unfold ids. rewrite map_app. apply elem_of_app. by left. }
  simpl in *. case_bool_decide as Hin.
  - rewrite elem_of_cons. intros [-> | Hx]; [| by apply IH].
    apply Hkeeps; [done |]. by apply Hids.
  - assert (Hids' : forall k, k ∈ {[chunkId item]} ∪ pickedIds
                      <-> k ∈ ids (picked ++ [item])).
    { intros k. rewrite ids_snoc, elem_of_app, elem_of_union,
        elem_of_singleton, list_elem_of_singleton, Hids. tauto. }
    destruct (limit <=? _) eqn:Hfull; [apply Z.leb_le in Hfull; lia |].
    rewrite elem_of_cons. intros [-> | Hx]; [| by apply IH].
    apply Hkeeps; [done |]. rewrite ids_snoc, elem_of_app.
    right. by apply list_elem_of_singleton.
Qed.

(** What [diversify] returns, pass by pass. *)
Lemma diversify_shape limit out :
  exists extra,
    diversify limit out = cappedPicks limit out ++ extra
    /\ cappedPicks limit out `sublist_of` Js.sortBy byScore out
    /\ descending (cappedPicks limit out)
    /\ (forall f, (fromFile f (cappedPicks limit out) <= 4)%nat)
    /\ (forall x : RetrievedChunk,
          x ∈ out -> x ∉ cappedPicks limit out ->
          limit <= Z.of_nat (length (cappedPicks limit out))
          \/ fromFile (fileName x) (cappedPicks limit out) = 4%nat)
    /\ extra `sublist_of` Js.sortBy byScore out
    /\ descending extra
    /\ Forall (fun x : RetrievedChunk => chunkId x ∉ ids (cappedPicks limit out))
          extra
    /\ (limit <= Z.of_nat (length (cappedPicks limit out)) -> extra = [])
    /\ (1 <= limit ->
        Z.of_nat (length (cappedPicks limit out ++ extra)) <= limit)
    /\ (Z.of_nat (length (cappedPicks limit out ++ extra)) < limit ->
        forall x : RetrievedChunk,
          x ∈ out -> chunkId x ∈ ids (cappedPicks limit out ++ extra)).
Proof.
  unfold diversify, cappedPicks.
  pose proof (byScore_sorted out) as Hsorted.
  pose proof (JsProofs.sortBy_perm byScore out) as Hperm.
  set (sorted := Js.sortBy byScore out) in *.
  destruct (pickCapped limit sorted [] ∅ ∅) as [picked pickedIds] eqn:Hp.
  pose proof (pickCapped_left_out _ _ _ _ _ _ _ Hp) as Hleft.
  destruct (pickCapped_spec _ _ _ _ _ _ _ Hp) as (sel & Hsel & Hsub & Hcap & Hids & Hlen).
  { intros f. by rewrite lookup_empty. }
  { intros f. unfold fromFile. simpl. lia. }
  { intros k. unfold ids. simpl. rewrite elem_of_nil. set_solver. }
  simpl in Hsel. subst sel. simpl in Hlen. simpl fst.
  assert (Hwhy : forall x : RetrievedChunk,
             x ∈ out -> x ∉ picked ->
             limit <= Z.of_nat (length picked)
             \/ fromFile (fileName x) picked = 4%nat).
  { intros x Hx Hnot. destruct (Hleft ltac:(intros f; by rewrite lookup_empty) x)
      as [Hin | [Hlim | Hfour]]; [by rewrite Hperm | done | by left |].
    right. specialize (Hcap (fileName x)). lia. }
  assert (Hdesc : descending picked)
    by (by eapply JsProofs.StronglySorted_sublist).
  destruct (_ <? limit) eqn:Hshort.
  - apply Z.ltb_lt in Hshort.
    pose proof (backfill_complete limit sorted picked pickedIds Hids) as Hall.
    destruct (backfill_spec limit sorted picked pickedIds Hids)
      as (more & Hmore & Hmsub & Hmlen & _).
    pose proof (backfill_fresh limit sorted picked pickedIds more Hids Hmore)
      as Hfresh.
    rewrite Hmore in Hall. exists more.
    split; [done |]. split; [done |]. split; [done |]. split; [done |].
    split; [done |]. split; [done |].
    split; [by eapply JsProofs.StronglySorted_sublist |].
    split; [done |]. split; [lia |]. split; [auto |].
    intros Hlt x Hx. apply Hall; [done |]. by rewrite Hperm.
  - apply Z.ltb_ge in Hshort. exists []. rewrite app_nil_r.
    split; [done |]. split; [done |]. split; [done |]. split; [done |].
    split; [done |]. split; [apply sublist_nil_l |]. split; [constructor |].
    split; [constructor |]. split; [done |].
    split; [intros; apply Hlen; lia | lia].
Qed.

(** What [diversify] returns: the picks of the first loop, then those of
    the second. *)
Lemma diversify_spec limit out :
  exists first extra,
    diversify limit out = first ++ extra
    /\ descending first /\ descending extra
    /\ (forall f, (fromFile f first <= 4)%nat)
    /\ (needsBackfill limit out = false -> extra = [])
    /\ (1 <= limit -> Z.of_nat (length (first ++ extra)) <= limit)
    /\ (NoDup (ids out) -> NoDup (ids (first ++ extra))).
Proof.
  unfold diversify, needsBackfill.
  pose proof (byScore_sorted out) as Hsorted.
  pose proof (JsProofs.sortBy_perm byScore out) as Hperm.
  set (sorted := Js.sortBy byScore out) in *.
  destruct (pickCapped limit sorted [] ∅ ∅) as [picked pickedIds] eqn:Hp.
  destruct (pickCapped_spec _ _ _ _ _ _ _ Hp) as (sel & Hsel & Hsub & Hcap & Hids & Hlen).
  { intros f. by rewrite lookup_empty. }
  { intros f. unfold fromFile. simpl. lia. }
  { intros k. unfold ids. simpl. rewrite elem_of_nil. set_solver. }
  simpl in Hsel. subst sel. simpl in Hlen.
  assert (Hdesc : descending picked)
    by (by eapply JsProofs.StronglySorted_sublist).
  assert (Hnd : NoDup (ids out) -> NoDup (ids picked)).
  { intros Ho. eapply sublist_NoDup; [| by apply ids_sublist].
    by rewrite (ids_perm _ _ Hperm). }
  simpl. destruct (_ <? limit) eqn:Hshort.
  - apply Z.ltb_lt in Hshort.
    destruct (backfill_spec limit sorted picked pickedIds Hids)
      as (more & -> & Hmsub & Hmlen & Hmnd).
    exists picked, more. split; [done |]. split; [done |].
    split; [by eapply JsProofs.StronglySorted_sublist |].
    split; [done |]. split; [done |]. split; [auto |].
    intros Ho. apply Hmnd; [auto |]. by rewrite (ids_perm _ _ Hperm).
  - exists picked, []. rewrite app_nil_r. split; [done |]. split; [done |].
    split; [constructor |]. split; [done |]. split; [done |].
    split; [intros; apply Hlen; lia | done].
Qed.

(** *** The candidates of a search *)

Section Search.
Context {AsPlainObject : Type}.
Context (JSON_parse : string -> option (@IndexBundle AsPlainObject)).
Context (MiniSearch_loadJS : AsPlainObject -> option MiniSearch).

Lemma chunksById_sound (cs : list Chunk) : forall m : gmap string Chunk,
  (forall k c, m !! k = Some c -> chunkId c = k) ->
  forall k c,
    fold_left (fun m c => <[chunkId c := c]> m) cs m !! k = Some c ->
    chunkId c = k.
Proof.
  induction cs as [| c0 cs IH]; intros m Hm k c; simpl; [apply Hm |].
  apply IH. intros k' c'. rewrite lookup_insert. case_decide.
  - intros [= <-]. done.
  - apply Hm.
Qed.

(** The cache only ever holds what [loadIndex] built. *)
Lemma loadIndex_sound w r w' :
  cacheSound w ->
  loadIndex JSON_parse MiniSearch_loadJS w = (r, w') ->
  cacheSound w'
  /\ forall loaded, r = Ok loaded -> indexSound loaded.
Proof.
  intros Hw. unfold loadIndex.
  destruct (statSync _) as [m | [| c]]; try (intros [= <- <-]; by split).
  destruct (cacheHit _ _ _) as [cached |] eqn:Hhit.
  { intros [= <- <-]. split; [done |]. intros ? [= <-].
    unfold cacheHit in Hhit. destruct (__fredquiz_index w) as [g |] eqn:Hg; [| done].
    destruct (_ && _); [| done]. inversion Hhit; subst. by apply Hw. }
  destruct (readFile _) as [raw | [| c]]; try (intros [= <- <-]; by split).
  destruct (JSON_parse raw) as [b |]; [| intros [= <- <-]; by split].
  destruct (MiniSearch_loadJS _) as [mn |]; [| intros [= <- <-]; by split].
  intros [= <- <-].
  assert (Hnew : forall k c,
             fold_left (fun m c => <[chunkId c := c]> m) (chunks b)
               (∅ : gmap string Chunk) !! k = Some c -> chunkId c = k).
  { apply chunksById_sound. intros k c. by rewrite lookup_empty. }
  split.
  - intros loaded [= <-]. exact Hnew.
  - intros loaded [= <-]. exact Hnew.
Qed.

Lemma addResults_NoDup results weight : forall m : Js.Map Q,
  NoDup (Js.okeys m) -> NoDup (Js.okeys (addResults results weight m)).
Proof.
  induction results as [| r rs IH]; intros m Hm; simpl; [done |].
  apply IH. by apply JsProofs.oset_NoDup.
Qed.

Lemma addKeywordResults_NoDup (mini : MiniSearch) terms : forall m : Js.Map Q,
  NoDup (Js.okeys m) -> NoDup (Js.okeys (addKeywordResults mini terms m)).
Proof.
  induction terms as [| t ts IH]; intros m Hm; simpl; [done |].
  apply IH. destruct (_ <? 3); [done |]. destruct (allDigits _); [done |].
  by apply addResults_NoDup.
Qed.

Lemma omap_ids_sublist (f : string * Q -> option RetrievedChunk) l :
  (forall r x, f r = Some x -> chunkId x = fst r) ->
  ids (omap f l) `sublist_of` map fst l.
Proof.
  intros Hf. induction l as [| r l IH]; simpl; [constructor |].
  destruct (f r) as [x |] eqn:Hx; simpl.
  - rewrite (Hf _ _ Hx). by constructor.
  - by constructor.
Qed.

(** No chunk is a candidate twice. *)
Lemma candidates_NoDup (loaded : @LoadedIndex AsPlainObject) params :
  indexSound loaded -> NoDup (ids (candidates loaded params)).
Proof.
  intros Hsound. unfold candidates.
  eapply sublist_NoDup; [| apply omap_ids_sublist].
  - eapply sublist_NoDup; [| apply (fmap_sublist fst), sublist_take].
    rewrite (JsProofs.sortBy_perm _ _).
    apply addKeywordResults_NoDup, addResults_NoDup. constructor.
  - intros [k sc] x. simpl.
    destruct (chunksById loaded !! k) as [c |] eqn:Hc; [| done].
    destruct (passesFilters _ _ _ _); [| done].
    intros [= <-]. simpl. by apply Hsound.
Qed.

Lemma searchDocs_unfold params w r w' :
  searchDocs JSON_parse MiniSearch_loadJS params w = (Ok r, w') ->
  exists loaded,
    loadIndex JSON_parse MiniSearch_loadJS w = (Ok loaded, w')
    /\ r = diversify (default 12 (limit params)) (candidates loaded params).
Proof.
  unfold searchDocs.
  destruct (loadIndex _ _ w) as [[loaded | e] w1]; [| done].
  intros [= <- <-]. eauto.
Qed.

(** Claim C1, as the code has it: a search with a positive [limit]
    returns at most [limit] chunks.  They are the picks of the capped
    pass, which goes through the candidates in descending order of
    score, takes at most four per source file and leaves a candidate
    out only when its file has its four or [limit] is reached; then
    follow the picks of the backfill pass, candidates that the capped
    pass left out, in descending order of score among themselves, as
    many as it takes to reach [limit] or to use up the candidates.
    The backfill pass adds nothing when the capped pass reached
    [limit] and when it left no candidate out; whenever it adds
    nothing, the whole result is in descending order of score with at
    most four chunks per source file. *)
Theorem search_result_shape
    (params : SearchParams) (w w' : World) (r : list RetrievedChunk)
    (Hsearch : searchDocs JSON_parse MiniSearch_loadJS params w = (Ok r, w'))
    (Hlimit : 1 <= default 12 (limit params)) :
  exists loaded extra,
    let lim := default 12 (limit params) in
    let out := candidates loaded params in
    let first := cappedPicks lim out in
    loadIndex JSON_parse MiniSearch_loadJS w = (Ok loaded, w')
    /\ r = first ++ extra
    /\ Z.of_nat (length r) <= lim
    /\ first `sublist_of` Js.sortBy byScore out
    /\ descending first
    /\ (forall f, (fromFile f first <= 4)%nat)
    /\ (forall x : RetrievedChunk,
          x ∈ out -> x ∉ first ->
          lim <= Z.of_nat (length first)
          \/ fromFile (fileName x) first = 4%nat)
    /\ extra `sublist_of` Js.sortBy byScore out
    /\ descending extra
    /\ Forall (fun x : RetrievedChunk => chunkId x ∉ ids first) extra
    /\ (Z.of_nat (length r) < lim ->
        forall x : RetrievedChunk, x ∈ out -> chunkId x ∈ ids r)
    /\ (lim <= Z.of_nat (length first) -> extra = [])
    /\ ((forall x : RetrievedChunk, x ∈ out -> chunkId x ∈ ids first) ->
        extra = [])
    /\ (needsBackfill lim out = false -> extra = [])
    /\ (extra = [] -> descending r /\ forall f, (fromFile f r <= 4)%nat).
Proof.
  apply searchDocs_unfold in Hsearch as (loaded & Hload & ->).
  destruct (diversify_shape (default 12 (limit params)) (candidates loaded params))
    as (extra & Heq & Hfsub & Hfdesc & Hcap & Hwhy & Hesub & Hedesc & Hfresh
        & Hfull & Hlen & Hall).
  exists loaded, extra. intros lim out first.
  fold lim out in Heq, Hfsub, Hfdesc, Hcap, Hwhy, Hesub, Hedesc, Hfresh,
    Hfull, Hlen, Hall |- *.
  fold first in Heq, Hfsub, Hfdesc, Hcap, Hwhy, Hfresh, Hfull, Hlen, Hall.
  rewrite Heq.
  split; [done |]. split; [done |]. split; [auto |]. split; [done |].
  split; [done |]. split; [done |]. split; [done |]. split; [done |].
  split; [done |]. split; [done |]. split; [done |]. split; [done |].
  split; [| split].
  - intros Hin. destruct extra as [| x extra]; [done |]. exfalso.
    apply Forall_cons in Hfresh as [Hx _]. apply Hx, Hin.
    unfold out. rewrite <- (JsProofs.sortBy_perm byScore).
    eapply elem_of_sublist; [| exact Hesub]. by left.
  - unfold needsBackfill. fold first.
    intros Hno%Z.ltb_ge. by apply Hfull.
  - intros ->. by rewrite app_nil_r.
Qed.

(** The search half of claim C10. *)
Lemma searchDocs_NoDup params w r w' :
  cacheSound w ->
  searchDocs JSON_parse MiniSearch_loadJS params w = (Ok r, w') ->
  NoDup (ids r).
Proof.
  intros Hw (loaded & Hload & ->)%searchDocs_unfold.
  destruct (loadIndex_sound _ _ _ Hw Hload) as [_ Hsound].
  destruct (diversify_spec (default 12 (limit params)) (candidates loaded params))
    as (first & extra & Heq & _ & _ & _ & _ & _ & Hnd).
  rewrite Heq. apply Hnd, candidates_NoDup, Hsound. done.
Qed.

End Search.

(** *** Header expansion *)

Section Expand.
Context {AsPlainObject : Type}.
Context (loaded : @LoadedIndex AsPlainObject).
Context (maxPerHeaderV maxExtraTotalV maxExtraCharsV : Z).
Context (retrieved : list RetrievedChunk).

Lemma pin_inv id e :
  expansionInv retrieved e -> expansionInv retrieved (pin id e).
Proof.
  intros (He & Hnd & Hnew & Hpin). unfold expansionInv, pin; simpl.
  repeat split; auto; try apply He.
  intros k Hk. apply elem_of_union_r. auto.
Qed.

Lemma attach_inv (x : RetrievedChunk) e :
  chunkId x ∉ existingIds e ->
  expansionInv retrieved e -> expansionInv retrieved (attach x e).
Proof.
  intros Hx (He & Hnd & Hnew & Hpin). unfold expansionInv, attach; simpl.
  assert (Hfresh : (chunkId x ∉ ids retrieved) /\ (chunkId x ∉ ids (extras e))).
  { split; intros Hin; apply Hx, He; auto. }
  destruct Hfresh as [Hr Hx'].
  split; [| split; [| split]].
  - intros k. rewrite ids_snoc, elem_of_union, elem_of_app, He.
    rewrite elem_of_singleton, list_elem_of_singleton. tauto.
  - rewrite ids_snoc. apply NoDup_app. split; [done |].
    split; [| apply NoDup_singleton].
    by intros k Hk ->%list_elem_of_singleton.
  - intros k. rewrite ids_snoc, elem_of_app, list_elem_of_singleton.
    intros [Hk | ->]; auto.
  - intros k. rewrite ids_snoc, elem_of_app, list_elem_of_singleton.
    intros [Hk | ->].
    + apply elem_of_union_r. auto.
    + apply elem_of_union_l. by apply elem_of_singleton.
Qed.

Lemma walk_inv base terms following : forall added extraChars e,
  expansionInv retrieved e ->
  expansionInv retrieved
    (walk loaded maxPerHeaderV maxExtraTotalV maxExtraCharsV
       base terms following added extraChars e).
Proof.
  induction following as [| c rest IH]; intros added extraChars e He;
    simpl; [done |].
  case_bool_decide as Hin; [by apply IH |].
  destruct (String.eqb _ ""); [by apply IH |].
  destruct (_ || _); [done |].
  match goal with
  | |- context [attach ?x e] =>
      assert (He' : expansionInv retrieved (attach x e))
        by (by apply attach_inv)
  end.
  destruct (maxExtraCharsV <=? _); [done |].
  destruct (_ && _); [done |]. by apply IH.
Qed.

Lemma expandLoop_inv l : forall e,
  expansionInv retrieved e ->
  expansionInv retrieved
    (expandLoop loaded maxPerHeaderV maxExtraTotalV maxExtraCharsV l e).
Proof.
  induction l as [| base rest IH]; intros e He; simpl; [done |].
  destruct (negb _); [by apply IH |].
  destruct (260 <? _); [by apply IH |].
  destruct (maxExtraTotalV <=? _); [done |].
  pose proof (pin_inv (chunkId base) e He) as Hp.
  destruct (byFileIdOf _ !! _) as [list |]; [| by apply IH].
  destruct (findIndex _ _) as [idx |]; [| by apply IH].
  by apply IH, walk_inv.
Qed.


End Expand.


Lemma expansionOf_inv {P : Type} (loaded : @LoadedIndex P) options retrieved :
  expansionInv retrieved (expansionOf loaded options retrieved).
Proof.
  apply expandLoop_inv. unfold expansionInv; simpl.
  split; [| split; [constructor | split]].
  - intros k. rewrite elem_of_list_to_set.
    split; [auto | intros [? | Hk]; [done | by apply elem_of_nil in Hk]].
  - intros k Hk. by apply elem_of_nil in Hk.
  - intros k Hk. by apply elem_of_nil in Hk.
Qed.

(** The map [byId] of the merge. *)
Lemma byIdOf_facts merged : forall m : Js.Map RetrievedChunk,
  NoDup (Js.okeys m) ->
  Forall ownKey m ->
  let m' := fold_left (fun m (x : RetrievedChunk) => Js.oset (chunkId x) x m) merged m in
  NoDup (Js.okeys m')
  /\ Forall ownKey m'
  /\ forall k, k ∈ Js.okeys m' <-> k ∈ Js.okeys m \/ k ∈ ids merged.
Proof.
  induction merged as [| x l IH]; intros m Hnd Hent; simpl.
  - split; [done |]. split; [done |]. intros k. rewrite elem_of_nil. tauto.
  - destruct (IH (Js.oset (chunkId x) x m)) as (Hnd' & Hent' & Hk').
    + by apply JsProofs.oset_NoDup.
    + eapply Forall_impl;
        [apply (JsProofs.oset_entries (fun v : RetrievedChunk => chunkId v)
                  (fun _ => True)); [done | done |] |].
      * eapply Forall_impl; [exact Hent |]. by intros e He.
      * by intros e [He _].
    + split; [done |]. split; [done |]. intros k. rewrite Hk'.
      rewrite JsProofs.oset_elem_of, elem_of_cons. tauto.
Qed.

Lemma ovalues_ids (m : Js.Map RetrievedChunk) :
  Forall ownKey m -> ids (Js.ovalues m) = Js.okeys m.
Proof.
  induction 1 as [| [k v] m He _ IH]; simpl; [done |].
  unfold ownKey in He. simpl in He. by rewrite He, <- IH.
Qed.

(** The eviction loop deletes the first [toDrop] candidates. *)
Lemma dropLoop_take cands : forall toDrop m,
  dropLoop cands toDrop m = deleteAll (take (Z.to_nat toDrop) cands) m.
Proof.
  induction cands as [| c rest IH]; intros toDrop m; simpl.
  - by rewrite take_nil.
  - destruct (toDrop <=? 0) eqn:Hd.
    + apply Z.leb_le in Hd. replace (Z.to_nat toDrop) with 0%nat by lia. done.
    + apply Z.leb_gt in Hd.
      replace (Z.to_nat toDrop) with (S (Z.to_nat (toDrop - 1))) by lia.
      simpl. apply IH.
Qed.

Lemma deleteAll_facts ds : forall m,
  NoDup (Js.okeys m) ->
  deleteAll ds m `sublist_of` m
  /\ (forall k, k ∈ ids ds -> k ∉ Js.okeys (deleteAll ds m))
  /\ (forall k, k ∈ Js.okeys m -> k ∉ ids ds -> k ∈ Js.okeys (deleteAll ds m)).
Proof.
  induction ds as [| d ds IH]; intros m Hnd; simpl.
  - split; [done |]. split; [by intros k ?%elem_of_nil | auto].
  - assert (Hnd' : NoDup (Js.okeys (Js.odelete (chunkId d) m))).
    { eapply sublist_NoDup; [exact Hnd |].
      apply JsProofs.sublist_okeys, JsProofs.odelete_sublist. }
    destruct (IH _ Hnd') as (Hsub & Hgone & Hkept).
    split; [| split].
    + etrans; [exact Hsub | apply JsProofs.odelete_sublist].
    + intros k [-> | Hk]%elem_of_cons; [| by apply Hgone].
      intros Hin. apply (JsProofs.odelete_gone (chunkId d) m Hnd).
      eapply elem_of_sublist; [exact Hin |]. by apply JsProofs.sublist_okeys.
    + intros k Hk Hnot. apply Hkept.
      * apply JsProofs.odelete_other; [| done]. intros ->. apply Hnot. by left.
      * intros Hin. apply Hnot. by right.
Qed.

Lemma ids_elem_of (x : RetrievedChunk) l : x ∈ l -> chunkId x ∈ ids l.
Proof.
  rewrite !list_elem_of_In. unfold ids.
  apply (in_map (fun x : RetrievedChunk => chunkId x)).
Qed.

Lemma ids_elem_of_inv k l :
  k ∈ ids l -> exists x : RetrievedChunk, x ∈ l /\ chunkId x = k.
Proof.
  rewrite list_elem_of_In. unfold ids. intros (x & Hx & Hin)%in_map_iff.
  exists x. by rewrite list_elem_of_In.
Qed.

Lemma elem_of_List_filter {A} (f : A -> bool) l x :
  x ∈ List.filter f l <-> x ∈ l /\ f x = true.
Proof. rewrite !list_elem_of_In. apply filter_In. Qed.

(** The eviction of an over-budget merge: pinned identifiers stay, the
    result has no identifier twice, and it fits the budget when the pinned
    entries do. *)
Lemma evict_spec (merged : list RetrievedChunk) (pinned : gset string)
    (maxTotalV : Z) :
  let dropCandidates :=
    Js.sortBy (fun a b : RetrievedChunk => Qle_bool (score a) (score b))
      (List.filter
         (fun m : RetrievedChunk => negb (bool_decide (chunkId m ∈ pinned)))
         merged) in
  let toDrop := Z.of_nat (length merged) - maxTotalV in
  let r := Js.ovalues (dropLoop dropCandidates toDrop (byIdOf merged)) in
  (forall x : RetrievedChunk, x ∈ merged -> chunkId x ∈ pinned -> chunkId x ∈ ids r)
  /\ NoDup (ids r)
  /\ (Z.of_nat (length (pinnedEntries pinned merged)) <= maxTotalV ->
      Z.of_nat (length r) <= maxTotalV).
Proof.
  intros cands toDrop r.
  destruct (byIdOf_facts merged [] ltac:(constructor) ltac:(constructor))
    as (Hnd0 & Hent0 & Hkeys0).
  fold (byIdOf merged) in Hnd0, Hent0, Hkeys0.
  set (dropped := take (Z.to_nat toDrop) cands).
  assert (Hr : r = Js.ovalues (deleteAll dropped (byIdOf merged)))
    by (subst r; by rewrite dropLoop_take).
  destruct (deleteAll_facts dropped (byIdOf merged) Hnd0) as (Hsub & Hgone & Hkept).
  assert (Hent : Forall ownKey (deleteAll dropped (byIdOf merged)))
    by (rewrite Forall_forall in Hent0 |- *; intros x Hx;
        by eapply Hent0, elem_of_sublist).
  assert (Hids : ids r = Js.okeys (deleteAll dropped (byIdOf merged)))
    by (rewrite Hr; by apply ovalues_ids).
  assert (Hcands : cands ≡ₚ List.filter
            (fun m : RetrievedChunk => negb (bool_decide (chunkId m ∈ pinned))) merged)
    by apply JsProofs.sortBy_perm.
  assert (Hdsub : dropped ⊆+ merged).
  { etrans; [apply sublist_submseteq, sublist_take |].
    etrans; [apply Permutation_submseteq, Hcands |].
    apply sublist_submseteq, JsProofs.filter_sublist. }
  split; [| split].
  - intros x Hx Hpin. rewrite Hids. apply Hkept.
    + apply Hkeys0. right. by apply ids_elem_of.
    + intros (d & Hd & Heq)%ids_elem_of_inv.
      assert (Hdc : d ∈ cands) by (eapply elem_of_sublist; [exact Hd | apply sublist_take]).
      rewrite Hcands in Hdc. apply elem_of_List_filter in Hdc as [_ Hnp].
      apply negb_true_iff, bool_decide_eq_false in Hnp. congruence.
  - rewrite Hids. eapply sublist_NoDup; [exact Hnd0 |].
    by apply JsProofs.sublist_okeys.
  - intros Hfit.
    assert (Hlenr : length r = length (ids r)) by (unfold ids; by rewrite length_map).
    rewrite Hlenr, Hids.
    set (f := fun x : RetrievedChunk => bool_decide (chunkId x ∈ ids dropped)).
    assert (Hkeep : (length (Js.okeys (deleteAll dropped (byIdOf merged)))
                     <= length (List.filter (fun x => negb (f x)) merged))%nat).
    { rewrite <- (length_map (fun x : RetrievedChunk => chunkId x)
                    (List.filter (fun x => negb (f x)) merged)).
      fold (ids (List.filter (fun x => negb (f x)) merged)).
      apply submseteq_length, NoDup_submseteq.
      - eapply sublist_NoDup; [exact Hnd0 |]. by apply JsProofs.sublist_okeys.
      - intros k Hk.
        assert (Hk0 : k ∈ Js.okeys (byIdOf merged)).
        { eapply elem_of_sublist; [exact Hk |]. by apply JsProofs.sublist_okeys. }
        apply Hkeys0 in Hk0 as [Hk0 | Hk0]; [by apply elem_of_nil in Hk0 |].
        apply ids_elem_of_inv in Hk0 as (x & Hx & <-).
        apply (ids_elem_of x). apply elem_of_List_filter. split; [done |].
        apply negb_true_iff, bool_decide_eq_false. intros Hin.
        by apply (Hgone _ Hin). }
    assert (Hdrop : (length dropped <= length (List.filter f merged))%nat).
    { apply JsProofs.submseteq_filter_length; [done |].
      apply Forall_forall. intros x Hx. apply bool_decide_eq_true.
      by apply ids_elem_of. }
    pose proof (List.filter_length f merged) as Hsplit.
    assert (Hnp : (length cands + length (pinnedEntries pinned merged))%nat
                  = length merged).
    { rewrite (Permutation_length Hcands). unfold pinnedEntries.
      rewrite <- (List.filter_length
                    (fun m : RetrievedChunk => bool_decide (chunkId m ∈ pinned)) merged).
      lia. }
    assert (Hdl : length dropped = Z.to_nat toDrop).
    { unfold dropped. rewrite length_take. subst toDrop. lia. }
    subst toDrop. lia.
Qed.

(** What [expandWith] returns. *)
Lemma expandWith_spec {P : Type} (loaded : @LoadedIndex P) options retrieved :
  let e := expansionOf loaded options retrieved in
  let merged := retrieved ++ extras e in
  let r := expandWith loaded options retrieved in
  (forall x : RetrievedChunk,
      x ∈ merged -> chunkId x ∈ pinnedIds e -> chunkId x ∈ ids r)
  /\ (extras e <> [] ->
      Z.of_nat (length (pinnedEntries (pinnedIds e) merged))
      <= default 28 (maxTotal options) ->
      Z.of_nat (length r) <= default 28 (maxTotal options))
  /\ (NoDup (ids retrieved) -> NoDup (ids r)).
Proof.
  intros e merged r.
  destruct (expansionOf_inv loaded options retrieved) as (_ & Hnd & Hnew & _).
  fold e in Hnd, Hnew.
  destruct (evict_spec merged (pinnedIds e) (default 28 (maxTotal options)))
    as (Hpin & Hnodup & Hfit).
  subst r. unfold expandWith. fold e. fold merged.
  destruct (extras e) as [| x0 xs] eqn:Hex.
  - subst merged. rewrite app_nil_r.
    split; [intros x Hx _; by apply ids_elem_of |]. split; done.
  - rewrite <- Hex. fold merged.
    destruct (_ <=? _) eqn:Hle.
    + apply Z.leb_le in Hle.
      split; [intros x Hx _; by apply ids_elem_of |]. split; [done |].
      intros Hr. subst merged. unfold ids. rewrite map_app.
      apply NoDup_app. split; [done |]. split; [| done].
      intros k Hk Hk'. by apply (Hnew k).
    + split; [done |]. split; [intros _; done | intros _; done].
Qed.

(** *** Loading, determinism, budget and duplicates *)

Section Claims.
Context {AsPlainObject : Type}.
Context (JSON_parse : string -> option (@IndexBundle AsPlainObject)).
Context (MiniSearch_loadJS : AsPlainObject -> option MiniSearch).

(** [MissingIndexError] is thrown when one of the two system calls
    reports [ENOENT], and only then. *)
Lemma loadIndex_missing_iff (w : World) :
  (exists p,
      fst (loadIndex JSON_parse MiniSearch_loadJS w)
      = Err (MissingIndexError p))
  <-> statSync (fs w (dataPath w)) = Err ENOENT
      \/ exists m,
           statSync (fs w (dataPath w)) = Ok m
           /\ cacheHit (__fredquiz_index w) (dataPath w) m = None
           /\ readFile (fs w (dataPath w)) = Err ENOENT.
Proof.
  unfold loadIndex.
  destruct (fs w (dataPath w)) as [| c | m | m c | m content]; simpl.
  - split; [by left | eauto].
  - split; [by intros [p ?] | by intros [? | (m & ? & _)]].
  - destruct (cacheHit _ _ _) eqn:Hhit; simpl.
    + split; [by intros [p ?] |].
      intros [? | (m0 & [= <-] & Hnone & _)]; [done | congruence].
    + split; [right; by exists m | eauto].
  - destruct (cacheHit _ _ _); simpl;
      (split; [by intros [p ?] | by intros [? | (m0 & _ & _ & ?)]]).
  - split; [| by intros [? | (m0 & _ & _ & ?)]].
    destruct (cacheHit _ _ _); simpl; [by intros [p ?] |].
    destruct (JSON_parse content); [| by intros [p ?]].
    destruct (MiniSearch_loadJS _); simpl; by intros [p ?].
Qed.

(** Claim C6, as the code has it: loading fails with
    [MissingIndexError] exactly when the file system reports that there
    is nothing at the path of the bundle ([ENOENT]), be it to
    [statSync] or, when no cached index is returned, to [readFile];
    another failure to reach the file is passed on as it is.  When the
    file is there, cannot be
    parsed, and no index is cached for the same path and modification
    time, loading fails with the parser's error, which is not a
    [MissingIndexError], and caches nothing.  When an index is cached
    for the path and the modification time of the file, it is
    returned, and the world is left as it is, whatever the file holds
    and whatever the parser and MiniSearch would make of it, also when
    the file cannot be read. *)
Theorem load_failures
    (w : World) (m : Q) (content : string)
    (Hfile : fs w (dataPath w) = Regular m content)
    (Hbad : JSON_parse content = None)
    (Hcold : cacheHit (__fredquiz_index w) (dataPath w) m = None) :
  (forall w0 : World,
      (exists p,
          fst (loadIndex JSON_parse MiniSearch_loadJS w0)
          = Err (MissingIndexError p))
      <-> statSync (fs w0 (dataPath w0)) = Err ENOENT
          \/ exists m0,
               statSync (fs w0 (dataPath w0)) = Ok m0
               /\ cacheHit (__fredquiz_index w0) (dataPath w0) m0 = None
               /\ readFile (fs w0 (dataPath w0)) = Err ENOENT)
  /\ (forall w0 : World,
        fs w0 (dataPath w0) = Absent ->
        loadIndex JSON_parse MiniSearch_loadJS w0
        = (Err (MissingIndexError (dataPath w0)), w0))
  /\ (forall (w0 : World) (c : OtherCode),
        fs w0 (dataPath w0) = Inaccessible c ->
        loadIndex JSON_parse MiniSearch_loadJS w0 = (Err (FsError c), w0))
  /\ loadIndex JSON_parse MiniSearch_loadJS w = (Err SyntaxError, w)
  /\ (forall p, SyntaxError <> MissingIndexError p)
  /\ (forall (w0 : World) (m0 : Q) (cached : LoadedIndex)
             (parser : string -> option IndexBundle)
             (loader : AsPlainObject -> option MiniSearch),
        statSync (fs w0 (dataPath w0)) = Ok m0 ->
        __fredquiz_index w0 = Some cached ->
        indexPath cached = dataPath w0 ->
        (mtimeMs cached == m0)%Q ->
        loadIndex parser loader w0 = (Ok cached, w0)).
Proof.
  split; [apply loadIndex_missing_iff |].
  split; [intros w0 H0; unfold loadIndex; by rewrite H0 |].
  split; [intros w0 c H0; unfold loadIndex; by rewrite H0 |].
  split; [unfold loadIndex; rewrite Hfile; simpl; by rewrite Hcold, Hbad |].
  split; [done |].
  intros w0 m0 cached parser loader Hstat Hg Hpath Hm.
  unfold loadIndex. rewrite Hstat. unfold cacheHit. rewrite Hg, Hpath.
  rewrite String.eqb_refl. apply Qeq_bool_iff in Hm. by rewrite Hm.
Qed.

(** A second load on the world the first one left answers the same and
    leaves the world as it is. *)
Lemma loadIndex_again w r w1 :
  loadIndex JSON_parse MiniSearch_loadJS w = (r, w1) ->
  loadIndex JSON_parse MiniSearch_loadJS w1 = (r, w1).
Proof.
  unfold loadIndex.
  destruct (statSync (fs w (dataPath w))) as [m | [| c]] eqn:Hstat;
    try (intros [= <- <-]; by rewrite Hstat).
  destruct (cacheHit (__fredquiz_index w) _ _) as [cached |] eqn:Hhit.
  { intros [= <- <-]. by rewrite Hstat, Hhit. }
  destruct (readFile (fs w (dataPath w))) as [raw | [| c]] eqn:Hread;
    try (intros [= <- <-]; by rewrite Hstat, Hhit, Hread).
  destruct (JSON_parse raw) as [b |] eqn:Hparse;
    [| intros [= <- <-]; by rewrite Hstat, Hhit, Hread, Hparse].
  destruct (MiniSearch_loadJS (miniSearch b)) as [mn |] eqn:Hmini;
    [| intros [= <- <-]; by rewrite Hstat, Hhit, Hread, Hparse, Hmini].
  intros [= <- <-]. unfold dataPath, set_fredquiz_index; simpl.
  fold (dataPath w). rewrite Hstat. unfold cacheHit; simpl.
  by rewrite String.eqb_refl, Qeq_bool_refl.
Qed.

Lemma loadIndex_fs w r w1 :
  loadIndex JSON_parse MiniSearch_loadJS w = (r, w1) -> fs w1 = fs w.
Proof.
  unfold loadIndex.
  repeat (match goal with
          | |- context [match ?x with _ => _ end] => destruct x
          end); by intros [= <- <-].
Qed.

(** Claim C8: on a fixed file system, whatever the cache holds, a
    search repeated with the same parameters returns what it returned
    the first time, and so does an expansion repeated on the same ranked
    input with the same options; neither second call changes the
    world. *)
Theorem repeated_calls_agree
    (params : SearchParams) (retrieved : list RetrievedChunk)
    (options : ExpandOptions) (w : World) :
  searchDocs JSON_parse MiniSearch_loadJS params
    (snd (searchDocs JSON_parse MiniSearch_loadJS params w))
  = searchDocs JSON_parse MiniSearch_loadJS params w
  /\ expandHeaderContext JSON_parse MiniSearch_loadJS retrieved options
       (snd (expandHeaderContext JSON_parse MiniSearch_loadJS
               retrieved options w))
     = expandHeaderContext JSON_parse MiniSearch_loadJS retrieved options w
  /\ fs (snd (searchDocs JSON_parse MiniSearch_loadJS params w)) = fs w
  /\ fs (snd (expandHeaderContext JSON_parse MiniSearch_loadJS
                retrieved options w))
     = fs w.
Proof.
  pose proof loadIndex_fs as Hfs.
  unfold searchDocs, expandHeaderContext.
  destruct (loadIndex JSON_parse MiniSearch_loadJS w) as [r w1] eqn:Hload.
  pose proof (loadIndex_again _ _ _ Hload) as Hagain.
  pose proof (Hfs _ _ _ Hload) as Hfs1.
  destruct r as [loaded | e]; simpl.
  - rewrite Hagain. split; [done |]. split; [| split; [done |]].
    + destruct retrieved; simpl; [done | by rewrite Hagain].
    + by destruct retrieved.
  - rewrite Hagain. split; [done |]. split; [| split; [done |]].
    + destruct retrieved; simpl; [done | by rewrite Hagain].
    + by destruct retrieved.
Qed.

Lemma expand_unfold retrieved options w r w' :
  expandHeaderContext JSON_parse MiniSearch_loadJS retrieved options w
  = (Ok r, w') ->
  retrieved = [] /\ r = []
  \/ exists loaded,
       loadIndex JSON_parse MiniSearch_loadJS w = (Ok loaded, w')
       /\ r = expandWith loaded options retrieved.
Proof.
  unfold expandHeaderContext. destruct retrieved as [| x l].
  - intros [= <- <-]. by left.
  - destruct (loadIndex JSON_parse MiniSearch_loadJS w) as [[loaded | e] w1]; [| done].
    intros [= <- <-]. right. eauto.
Qed.


(** Claim C10, as the code has it: on a world whose cache holds what
    [loadIndex] built, a search returns no chunk twice; and an expansion
    returns no chunk twice when its ranked input has none twice, as is
    the case of the result of a search. *)
Theorem no_chunk_twice
    (params : SearchParams) (w w' : World) (r : list RetrievedChunk)
    (Hsound : cacheSound w)
    (Hsearch : searchDocs JSON_parse MiniSearch_loadJS params w = (Ok r, w')) :
  NoDup (ids r)
  /\ (forall retrieved options w1 w2 r2,
        NoDup (ids retrieved) ->
        expandHeaderContext JSON_parse MiniSearch_loadJS retrieved options w1
        = (Ok r2, w2) ->
        NoDup (ids r2))
  /\ (forall options w2 r2,
        expandHeaderContext JSON_parse MiniSearch_loadJS r options w'
        = (Ok r2, w2) ->
        NoDup (ids r2)).
Proof.
  pose proof (searchDocs_NoDup _ _ _ _ _ _ Hsound Hsearch) as Hr.
  assert (Hexp : forall retrieved options w1 w2 r2,
             NoDup (ids retrieved) ->
             expandHeaderContext JSON_parse MiniSearch_loadJS
               retrieved options w1 = (Ok r2, w2) ->
             NoDup (ids r2)).
  { intros retrieved options w1 w2 r2 Hnd
      [[-> ->] | (loaded & _ & ->)]%expand_unfold; [constructor |].
    by apply expandWith_spec. }
  split; [done |]. split; [done |]. intros options w2 r2. by apply Hexp.
Qed.

End Claims.

(** *** The claims on the sample corpus *)

Import CorpusSamples.

Lemma search_result_shape_witness :
  1 <= 6
  /\ Z.of_nat (length (searched "brakes" (Some 6))) <= 6.
Proof.
  split; [lia |].
  destruct (search_result_shape parse loadJS (searchFor "brakes" (Some 6))
              sampleWorld
              (snd (searchDocs parse loadJS (searchFor "brakes" (Some 6)) sampleWorld))
              (searched "brakes" (Some 6)))
    as (loaded & extra & Hshape).
  - vm_compute; reflexivity.
  - simpl; lia.
  - by destruct Hshape as (_ & _ & Hlen & _).
Defined.

(** Claim C1 as stated fails.  The file [rules.pdf] has the five best
    chunks and [handbook.pdf] the sixth; with [limit = 6] the capped pass
    takes four of the first and the one of the second, and the backfill
    appends the fifth chunk of [rules.pdf] behind a chunk that scores
    less: the result is not in descending order of score.  And with
    [limit = 0] one chunk is returned. *)
Lemma backfill_breaks_score_order :
  map (fun x : RetrievedChunk => (chunkId x, score x)) (searched "brakes" (Some 6))
  = [ ("f1:p1:s1"%string, 310 # 20); ("f1:p1:s2"%string, 279 # 20);
      ("f1:p1:s3"%string, 248 # 20); ("f1:p1:s4"%string, 217 # 20);
      ("f2:p1:s1"%string, 155 # 20); ("f1:p1:s5"%string, 186 # 20) ]%Q
  /\ ~ descending (searched "brakes" (Some 6))
  /\ length (searched "brakes" (Some 0)) = 1%nat.
Proof.
  split; [vm_compute; reflexivity |]. split; [| vm_compute; reflexivity].
  intros Hdesc.
  rewrite <- (take_drop 4 (searched "brakes" (Some 6))) in Hdesc.
  apply StronglySorted_app_1_r in Hdesc.
  replace (drop 4 (searched "brakes" (Some 6)))
    with [ranked h1 (155 # 20); ranked r5 (186 # 20)] in Hdesc
    by (vm_compute; reflexivity).
  apply StronglySorted_inv in Hdesc as [_ Hlast].
  apply Forall_inv in Hlast. unfold byScoreDesc in Hlast. simpl in Hlast.
  vm_compute in Hlast. by apply Hlast.
Qed.

Lemma load_failures_witness :
  loadIndex parse loadJS (worldWith "not json")
  = (Err SyntaxError, worldWith "not json").
Proof.
  apply (load_failures parse loadJS (worldWith "not json") 1 "not json");
    reflexivity.
Defined.

(** Claim C6 as stated fails: the bundle file exists and cannot be
    parsed, yet loading succeeds, from the index cached under the same
    path and modification time. *)
Lemma cached_index_hides_corrupt_bundle :
  fs overwrittenWorld (dataPath overwrittenWorld) = Regular 1 "not json"
  /\ parse "not json" = None
  /\ exists loaded,
       fst (loadIndex parse loadJS overwrittenWorld) = Ok loaded
       /\ bundle loaded = sampleBundle.
Proof.
  split; [reflexivity |]. split; [reflexivity |].
  eexists. split; vm_compute; reflexivity.
Qed.



Lemma sampleWorld_sound : cacheSound sampleWorld.
Proof. intros loaded H. discriminate. Qed.

Lemma no_chunk_twice_witness :
  NoDup (ids (searched "brakes" (Some 6))).
Proof.
  destruct (no_chunk_twice parse loadJS (searchFor "brakes" (Some 6)) sampleWorld
              (snd (searchDocs parse loadJS (searchFor "brakes" (Some 6)) sampleWorld))
              (searched "brakes" (Some 6)) sampleWorld_sound)
    as (Hnd & _).
  - vm_compute; reflexivity.
  - exact Hnd.
Defined.

(** Claim C10 as stated fails for an expansion: a ranked input that
    holds a chunk twice and no header is returned as it is. *)
Lemma expansion_returns_duplicates_of_input :
  ids (expanded [ranked r2 10; ranked r2 10] (budget 28))
  = ["f1:p1:s2"; "f1:p1:s2"]%string
  /\ ~ NoDup (ids (expanded [ranked r2 10; ranked r2 10] (budget 28))).
Proof.
  assert (H : ids (expanded [ranked r2 10; ranked r2 10] (budget 28))
              = ["f1:p1:s2"; "f1:p1:s2"]%string) by (vm_compute; reflexivity).
  split; [exact H |]. rewrite H. intros Hnd.
  apply NoDup_cons in Hnd as [Hnot _]. apply Hnot. by left.
Qed.

End DocsProofs.

(** ** Further properties of the crawler *)

Module CrawlFacts.
Import Lookup Props MoreProps.

(** The state that a call works on is never the corrupt one, its cursor
    is at least 1, and asking for it again changes nothing. *)
Theorem getIndexState_repairs (g : option FsQuizIndexState) :
  1 <= nextId (getIndexState g)
  /\ ~ corrupt (getIndexState g)
  /\ getIndexState (Some (getIndexState g)) = getIndexState g.
Proof.
  assert (Hfresh : getIndexState (Some freshState) = freshState) by reflexivity.
  destruct g as [st |]; [| split; [simpl; lia | split; [by intros [? _] | done]]].
  simpl. destruct (complete st && (length (items st) =? 0)%nat) eqn:Hreset.
  { split; [simpl; lia |]. split; [by intros [? _] | done]. }
  assert (Hnot : forall n, ~ corrupt (set_nextId n st)).
  { intros n [Hc Hi]. simpl in Hc, Hi. by rewrite Hc, Hi in Hreset. }
  destruct (nextId st <? 1) eqn:Hlt.
  - split; [simpl; lia |]. split; [apply Hnot |].
    simpl. by rewrite Hreset.
  - apply Z.ltb_ge in Hlt. split; [lia |]. split.
    + intros [Hc Hi]. by rewrite Hc, Hi in Hreset.
    + simpl. rewrite Hreset. by apply Z.ltb_ge in Hlt as ->.
Qed.

Lemma fetch_answers resp i r : fetchQuestionById resp i = Ok r -> answers i r.
Proof.
  unfold fetchQuestionById. destruct resp as [| status body]; [done |].
  destruct (status =? 404); [by intros [= <-] |].
  destruct (negb _); [done |]. destruct body; [| done]. by intros [= <-].
Qed.

Lemma promiseAll_Forall2 {E A B} (f : A -> Result E B) (P : A -> B -> Prop) l :
  (forall a b, f a = Ok b -> P a b) ->
  forall rs, promiseAll (map f l) = Ok rs -> Forall2 P l rs.
Proof.
  intros Hf. induction l as [| a l IH]; simpl; intros rs H.
  - inversion H. constructor.
  - destruct (f a) as [b | e] eqn:Ha; [| done].
    destruct (promiseAll (map f l)) as [rs' | e]; [| done].
    inversion H; subst. constructor; auto.
Qed.

(** What the loop over the answers of a batch appends: entries whose
    identifiers are, in order, some of the identifiers asked for, as many
    as it adds to [newlyIndexed]. *)
Lemma processResults_appends ids results :
  Forall2 answers ids results ->
  forall st n st' n',
    processResults results st n = (st', n') ->
    exists new,
      items st' = items st ++ new
      /\ map id new `sublist_of` ids
      /\ n' = n + Z.of_nat (length new).
Proof.
  induction 1 as [| i r ids results Hr _ IH]; intros st n st' n' Hp; simpl in Hp.
  - inversion Hp; subst. exists []. rewrite app_nil_r.
    split; [done |]. split; [constructor | simpl; lia].
  - destruct r as [| q].
    + destruct (_ && _).
      * inversion Hp; subst. exists []. simpl. rewrite app_nil_r.
        split; [done |]. split; [apply sublist_nil_l | lia].
      * apply IH in Hp as (new & Hi & Hs & Hn). simpl in Hi.
        exists new. split; [done |]. split; [by constructor | done].
    + apply IH in Hp as (new & Hi & Hs & Hn). simpl in Hi, Hr.
      exists (q :: new). rewrite <- app_assoc in Hi. split; [done |].
      split; [simpl; rewrite Hr; by constructor |]. simpl length. lia.
Qed.

Lemma batchIds_sorted a : StronglySorted Z.lt (batchIds a).
Proof.
  rewrite CrawlProofs.batchIds_eq.
  repeat (constructor; [| repeat (constructor; [lia |]); constructor]).
  constructor.
Qed.

Lemma processResults_latch results : forall st n st' n',
  complete st = false ->
  processResults results st n = (st', n') ->
  latchSound st'.
Proof.
  induction results as [| r rest IH]; intros st n st' n' Hopen Hp; simpl in Hp.
  - inversion Hp; subst. intros Hc. congruence.
  - destruct r as [| q].
    + destruct (_ && _) eqn:Hstop.
      * inversion Hp; subst. intros _. simpl.
        apply andb_prop in Hstop as [Hs Hl].
        apply Z.leb_le in Hs, Hl. simpl in Hs, Hl.
        unfold maxConsecutiveNotFound, minIndexedBeforeStop in *. lia.
      * eapply IH; [| exact Hp]. done.
    + eapply IH; [| exact Hp]. done.
Qed.

Lemma batchIds_seqZ a : batchIds a = seqZ a 8.
Proof.
  rewrite CrawlProofs.batchIds_eq. unfold seqZ. simpl.
  repeat (apply (f_equal2 cons); [lia |]). done.
Qed.

(** One batch, whatever its outcome: the index stays ordered, an open
    state is left with a sound latch, and on success the count grows as
    the index does. *)
Lemma runBatch_facts server st log n r st' log' :
  runBatch server st log n = (r, st', log') ->
  (indexOrdered st -> indexOrdered st')
  /\ (complete st = false -> latchSound st')
  /\ forall nw, r = Ok nw ->
       nw - n = Z.of_nat (length (items st')) - Z.of_nat (length (items st)).
Proof.
  unfold runBatch.
  destruct (promiseAll _) as [results | e] eqn:Hall.
  - destruct (processResults _ _ _) as [st2 n2] eqn:Hp. intros [= <- <- <-].
    pose proof (promiseAll_Forall2 _ answers _
                  (fun i => fetch_answers (server i) i) _ Hall) as Hans.
    destruct (processResults_appends _ _ Hans _ _ _ _ Hp) as (new & Hi & Hs & Hn).
    pose proof (CrawlProofs.processResults_inv _ _ _ _ _ Hp) as (Hnext & _).
    simpl in Hi, Hnext. split; [| split].
    + intros [Hsorted Hbound]. split.
      * rewrite Hi, map_app. apply StronglySorted_app_2; [| done |].
        -- intros x y Hx Hy.
           apply list_elem_of_In, in_map_iff in Hx as (q & <- & Hq).
           apply list_elem_of_In in Hq.
           rewrite Forall_forall in Hbound. specialize (Hbound q Hq).
           assert (Hy' : y ∈ batchIds (nextId st))
             by (eapply elem_of_sublist; eauto).
           apply list_elem_of_In, CrawlProofs.batchIds_bounds in Hy'. lia.
        -- eapply JsProofs.StronglySorted_sublist; [exact Hs |].
           apply batchIds_sorted.
      * rewrite Hi, Hnext. apply Forall_app. split.
        -- eapply Forall_impl; [exact Hbound |]. intros q Hq.
           simpl in Hq. unfold batchSize. lia.
        -- apply Forall_forall. intros q Hq.
           assert (Hin : id q ∈ batchIds (nextId st)).
           { eapply elem_of_sublist; [| exact Hs].
             apply list_elem_of_In, in_map, list_elem_of_In, Hq. }
           apply list_elem_of_In, CrawlProofs.batchIds_bounds in Hin.
           unfold batchSize. lia.
    + intros Hopen. eapply processResults_latch; [| exact Hp]. done.
    + intros nw [= <-]. rewrite Hi, length_app. lia.
  - intros [= <- <- <-]. split; [| split; [| done]].
    + intros [Hsorted Hbound]. split; [done |]. simpl.
      eapply Forall_impl; [exact Hbound |]. intros q Hq. simpl in Hq.
      unfold batchSize. lia.
    + intros Hopen Hc. simpl in Hc. congruence.
Qed.

(** The whole loop. *)
Lemma crawlLoop_facts server admitted : forall st log n r st' log',
  crawlLoop server admitted st log n = (r, st', log') ->
  (indexOrdered st -> indexOrdered st')
  /\ (latchSound st -> latchSound st')
  /\ (forall nw, r = Ok nw ->
        nw - n = Z.of_nat (length (items st')) - Z.of_nat (length (items st)))
  /\ exists k : nat,
       (k <= admitted)%nat
       /\ log' = log ++ seqZ (nextId st) (8 * Z.of_nat k)
       /\ nextId st' = nextId st + 8 * Z.of_nat k.
Proof.
  induction admitted as [| a IH]; intros st log n r st' log' H.
  - rewrite CrawlProofs.crawlLoop_zero in H. inversion H; subst.
    split; [done |]. split; [done |]. split; [intros nw [= <-]; lia |].
    exists 0%nat. simpl. rewrite app_nil_r. split; [lia |]. split; [done | lia].
  - simpl in H. destruct (complete st) eqn:Hc.
    + inversion H; subst.
      split; [done |]. split; [done |]. split; [intros nw [= <-]; lia |].
      exists 0%nat. simpl. rewrite app_nil_r. split; [lia |]. split; [done | lia].
    + destruct (runBatch server st log n) as [[rb stb] logb] eqn:Hb.
      pose proof (runBatch_facts _ _ _ _ _ _ _ Hb) as (Hord & Hlatch & Hcount).
      pose proof (CrawlProofs.runBatch_inv _ _ _ _ _ _ _ Hb)
        as (Hnext & _ & _ & _ & Hlog).
      pose proof (batchIds_seqZ (nextId st)) as Hseq.
      destruct rb as [nb | e].
      * apply IH in H as (Hord' & Hlatch' & Hcount' & k & Hk & Hlog' & Hnext').
        split; [auto |]. split; [auto |]. split.
        -- intros nw Hr. specialize (Hcount' nw Hr). specialize (Hcount nb eq_refl).
           lia.
        -- exists (S k). split; [lia |]. split.
           ++ rewrite Hlog', Hlog, Hseq, Hnext, <- app_assoc. f_equal.
              replace (8 * Z.of_nat (S k)) with (8 + 8 * Z.of_nat k) by lia.
              rewrite seqZ_app by lia. done.
           ++ lia.
      * inversion H; subst.
        split; [auto |]. split; [auto |]. split; [done |].
        exists 1%nat. split; [lia |]. split; [by rewrite Hseq | lia].
Qed.

(** *** Order, latch and count across a call *)

Lemma getIndexState_ordered g :
  (forall st, g = Some st -> indexOrdered st) -> indexOrdered (getIndexState g).
Proof.
  assert (Hfresh : indexOrdered freshState) by (split; constructor).
  intros Hg. destruct g as [st |]; [| done]. simpl.
  destruct (_ && _); [done |]. destruct (Hg st eq_refl) as [Hs Hb].
  destruct (nextId st <? 1) eqn:Hlt; [| by split].
  apply Z.ltb_lt in Hlt. split; [done |]. simpl.
  eapply Forall_impl; [exact Hb |]. intros q Hq. simpl in Hq. lia.
Qed.

Lemma getIndexState_latch g :
  (forall st, g = Some st -> latchSound st) -> latchSound (getIndexState g).
Proof.
  intros Hg. destruct g as [st |]; [| by intros ?]. simpl.
  destruct (_ && _); [by intros ? |].
  destruct (nextId st <? 1); [| by apply Hg]. exact (Hg st eq_refl).
Qed.

(** The index is always in strictly increasing order of identifier, and
    every identifier in it is below the cursor: a call keeps that, whether
    it succeeds or fails. *)
Theorem index_stays_ordered
    (server : Z -> HttpResponse) (admitted : nat) (w : CrawlWorld)
    (Hw : forall st, __fredquiz_fsquiz_index w = Some st -> indexOrdered st) :
  exists st',
    __fredquiz_fsquiz_index (snd (ensureIndexedUntilEnd server admitted w))
    = Some st'
    /\ indexOrdered st'.
Proof.
  unfold ensureIndexedUntilEnd.
  pose proof (getIndexState_ordered _ Hw) as H0.
  destruct (complete _); [simpl; eauto |].
  destruct (crawlLoop _ _ _ _ _) as [[r st'] log'] eqn:Hl.
  apply crawlLoop_facts in Hl as (Hord & _). simpl. eauto.
Qed.

Lemma index_stays_ordered_witness :
  exists st',
    __fredquiz_fsquiz_index
      (snd (ensureIndexedUntilEnd Samples.sourceFailingAt19 5
              (Samples.worldOf freshState)))
    = Some st'
    /\ indexOrdered st'.
Proof.
  apply (index_stays_ordered Samples.sourceFailingAt19 5
           (Samples.worldOf freshState)).
  intros st [= <-]. split; constructor.
Defined.

(** Completion is never latched without 200 entries indexed and a streak
    of at least four "not found": a call keeps that. *)
Theorem completion_needs_200_and_streak
    (server : Z -> HttpResponse) (admitted : nat) (w : CrawlWorld)
    (Hw : forall st, __fredquiz_fsquiz_index w = Some st -> latchSound st) :
  exists st',
    __fredquiz_fsquiz_index (snd (ensureIndexedUntilEnd server admitted w))
    = Some st'
    /\ latchSound st'.
Proof.
  unfold ensureIndexedUntilEnd.
  pose proof (getIndexState_latch _ Hw) as H0.
  destruct (complete _); [simpl; eauto |].
  destruct (crawlLoop _ _ _ _ _) as [[r st'] log'] eqn:Hl.
  apply crawlLoop_facts in Hl as (_ & Hlatch & _). simpl. eauto.
Qed.

Lemma completion_needs_200_and_streak_witness :
  exists st',
    __fredquiz_fsquiz_index
      (snd (ensureIndexedUntilEnd Samples.sourceWithGap 1
              (Samples.worldOf (Samples.indexedUpTo 200))))
    = Some st'
    /\ latchSound st'.
Proof.
  apply (completion_needs_200_and_streak Samples.sourceWithGap 1
           (Samples.worldOf (Samples.indexedUpTo 200))).
  intros st [= <-] Hc. vm_compute in Hc. discriminate.
Defined.

(** The count that a successful call returns is the number of entries by
    which the index has grown. *)
Theorem newlyIndexed_counts_growth
    (server : Z -> HttpResponse) (admitted : nat) (w w' : CrawlWorld) (nw : Z)
    (Hcall : ensureIndexedUntilEnd server admitted w = (Ok nw, w')) :
  exists st',
    __fredquiz_fsquiz_index w' = Some st'
    /\ Z.of_nat (length (items st'))
       = Z.of_nat (length (items (getIndexState (__fredquiz_fsquiz_index w))))
         + nw.
Proof.
  unfold ensureIndexedUntilEnd in Hcall.
  destruct (complete _).
  - inversion Hcall; subst. simpl. eexists. split; [done | lia].
  - destruct (crawlLoop _ _ _ _ _) as [[r st'] log'] eqn:Hl.
    inversion Hcall; subst.
    apply crawlLoop_facts in Hl as (_ & _ & Hcount & _).
    specialize (Hcount nw eq_refl). simpl. eexists. split; [done | lia].
Qed.

Lemma newlyIndexed_counts_growth_witness :
  exists st',
    __fredquiz_fsquiz_index
      (snd (ensureIndexedUntilEnd (Samples.sourceUpTo 12) 2
              (Samples.worldOf freshState)))
    = Some st'
    /\ Z.of_nat (length (items st')) = 0 + 12.
Proof.
  apply (newlyIndexed_counts_growth (Samples.sourceUpTo 12) 2
           (Samples.worldOf freshState)).
  vm_compute; reflexivity.
Defined.

(** *** Where the entries come from *)

Lemma processResults_from server ids results :
  Forall2 (fun i r => fetchQuestionById (server i) i = Ok r) ids results ->
  forall st n st' n',
    processResults results st n = (st', n') ->
    fromUpstream server st -> fromUpstream server st'.
Proof.
  induction 1 as [| i r ids results Hr _ IH]; intros st n st' n' Hp Hst;
    simpl in Hp.
  - by inversion Hp; subst.
  - destruct r as [| q].
    + destruct (_ && _); [by inversion Hp; subst |].
      eapply IH; [exact Hp | done].
    + eapply IH; [exact Hp |]. unfold fromUpstream. simpl.
      apply Forall_app. split; [done |]. constructor; [| constructor].
      pose proof (fetch_answers _ _ _ Hr) as Hid. simpl in Hid.
      by rewrite Hid.
Qed.

Lemma crawlLoop_from server admitted : forall st log n r st' log',
  crawlLoop server admitted st log n = (r, st', log') ->
  fromUpstream server st -> fromUpstream server st'.
Proof.
  induction admitted as [| a IH]; intros st log n r st' log' H Hst.
  - rewrite CrawlProofs.crawlLoop_zero in H. by inversion H; subst.
  - simpl in H. destruct (complete st); [by inversion H; subst |].
    unfold runBatch in H.
    destruct (promiseAll _) as [results | e] eqn:Hall.
    + destruct (processResults _ _ _) as [st2 n2] eqn:Hp.
      pose proof (promiseAll_Forall2 _
                    (fun i r => fetchQuestionById (server i) i = Ok r) _
                    (fun i r Hr => Hr) _ Hall) as Hans.
      eapply IH; [exact H |].
      eapply processResults_from; [exact Hans | exact Hp | done].
    + by inversion H; subst.
Qed.

(** The index holds nothing but what the upstream source answers: every
    entry is the answer of the source to a request for the identifier of
    the entry.  A call keeps that, whether it succeeds or fails. *)
Theorem index_holds_upstream_answers
    (server : Z -> HttpResponse) (admitted : nat) (w : CrawlWorld)
    (Hw : forall st, __fredquiz_fsquiz_index w = Some st -> fromUpstream server st) :
  exists st',
    __fredquiz_fsquiz_index (snd (ensureIndexedUntilEnd server admitted w))
    = Some st'
    /\ fromUpstream server st'.
Proof.
  assert (H0 : fromUpstream server (getIndexState (__fredquiz_fsquiz_index w))).
  { destruct (__fredquiz_fsquiz_index w) as [st |]; [| constructor]. simpl.
    destruct (_ && _); [constructor |].
    destruct (nextId st <? 1); exact (Hw st eq_refl). }
  unfold ensureIndexedUntilEnd.
  destruct (complete _); [simpl; eauto |].
  destruct (crawlLoop _ _ _ _ _) as [[r st'] log'] eqn:Hl.
  apply crawlLoop_from in Hl; [| done]. simpl. eauto.
Qed.

Lemma index_holds_upstream_answers_witness :
  exists st',
    __fredquiz_fsquiz_index
      (snd (ensureIndexedUntilEnd (Samples.sourceUpTo 12) 2
              (Samples.worldOf freshState)))
    = Some st'
    /\ fromUpstream (Samples.sourceUpTo 12) st'.
Proof.
  apply (index_holds_upstream_answers (Samples.sourceUpTo 12) 2
           (Samples.worldOf freshState)).
  intros st [= <-]. constructor.
Defined.

(** *** Requests across calls *)

Lemma getIndexState_sound g :
  1 <= nextId (getIndexState g) /\ ~ corrupt (getIndexState g).
Proof.
  split; [apply CrawlProofs.getIndexState_nextId |].
  destruct g as [st |]; [| by intros [? _]]. simpl.
  destruct (complete st && (length (items st) =? 0)%nat) eqn:Hreset;
    [by intros [? _] |].
  assert (Hnot : ~ (complete st = true /\ items st = [])).
  { intros [Hc Hi]. by rewrite Hc, Hi in Hreset. }
  by destruct (nextId st <? 1).
Qed.

Lemma call_run server admitted w :
  exists (k : nat) (st' : FsQuizIndexState),
    (k <= admitted)%nat
    /\ requests (snd (ensureIndexedUntilEnd server admitted w))
       = requests w
         ++ seqZ (nextId (getIndexState (__fredquiz_fsquiz_index w)))
              (8 * Z.of_nat k)
    /\ __fredquiz_fsquiz_index (snd (ensureIndexedUntilEnd server admitted w))
       = Some st'
    /\ nextId st'
       = nextId (getIndexState (__fredquiz_fsquiz_index w)) + 8 * Z.of_nat k
    /\ getIndexState (Some st') = st'.
Proof.
  destruct (getIndexState_sound (__fredquiz_fsquiz_index w)) as [H1 Hok].
  unfold ensureIndexedUntilEnd.
  set (st := getIndexState (__fredquiz_fsquiz_index w)) in *.
  destruct (complete st) eqn:Hc.
  - exists 0%nat, st. simpl. rewrite app_nil_r.
    split; [lia |]. split; [done |]. split; [done |]. split; [lia |].
    by apply CrawlProofs.getIndexState_keeps.
  - destruct (crawlLoop _ _ _ _ _) as [[r st'] log'] eqn:Hl.
    pose proof (CrawlProofs.crawlLoop_inv _ _ _ _ _ _ _ _ Hl)
      as (_ & _ & _ & Hi & _).
    apply crawlLoop_facts in Hl as (_ & _ & _ & k & Hk & Hlog & Hnext).
    exists k, st'. simpl. split; [done |]. split; [done |].
    split; [done |]. split; [done |].
    apply CrawlProofs.getIndexState_keeps; [| lia].
    intros [Hc' Hi']. apply Hi; [congruence | done | done].
Qed.

(** However many calls follow one another, and whether they succeed or
    fail, together they request one run of consecutive identifiers that
    starts at the cursor: no identifier twice, none skipped, eight per
    round, and no more rounds than the clocks of the calls allow.  After
    the last call the cursor stands right behind the run. *)
Theorem calls_request_one_run
    (calls : list ((Z -> HttpResponse) * nat)) (w : CrawlWorld) :
  exists k : nat,
    (k <= sum_list (map snd calls))%nat
    /\ requests (runCalls calls w)
       = requests w
         ++ seqZ (nextId (getIndexState (__fredquiz_fsquiz_index w)))
              (8 * Z.of_nat k)
    /\ forall st',
         calls <> [] ->
         __fredquiz_fsquiz_index (runCalls calls w) = Some st' ->
         nextId st'
         = nextId (getIndexState (__fredquiz_fsquiz_index w)) + 8 * Z.of_nat k.
Proof.
  revert w. induction calls as [| [server admitted] calls IH]; intros w.
  - exists 0%nat. simpl. rewrite app_nil_r. split; [lia |]. split; [done |].
    by intros st' Hne.
  - destruct (call_run server admitted w)
      as (k1 & st1 & Hk1 & Hlog1 & Hst1 & Hnext1 & Hsame).
    set (w1 := snd (ensureIndexedUntilEnd server admitted w)) in *.
    destruct (IH w1) as (k2 & Hk2 & Hlog2 & Hnext2).
    rewrite Hst1, Hsame in Hlog2, Hnext2.
    change (runCalls ((server, admitted) :: calls) w) with (runCalls calls w1).
    exists (k1 + k2)%nat. simpl sum_list. split; [lia |]. split.
    + rewrite Hlog2, Hlog1, <- app_assoc. f_equal.
      replace (8 * Z.of_nat (k1 + k2)) with (8 * Z.of_nat k1 + 8 * Z.of_nat k2)
        by lia.
      rewrite seqZ_app by lia. by rewrite Hnext1.
    + intros st' _ Hst'. destruct calls as [| c calls'].
      * simpl in Hst', Hk2. change (runCalls [] w1) with w1 in Hst'.
        rewrite Hst1 in Hst'. injection Hst' as <-. lia.
      * rewrite (Hnext2 st' ltac:(done) Hst'). lia.
Qed.

End CrawlFacts.

(** ** Further properties of the matcher and of the fetch *)

Module MatchFacts.
Import Lookup MoreProps.

Lemma countShared_le_l (a b : gset string) : (countShared a b <= size a)%nat.
Proof. unfold countShared. apply List.filter_length_le. Qed.

Lemma countShared_elem_of (a b : gset string) x :
  x ∈ List.filter (fun t => bool_decide (t ∈ b)) (elements a) <-> x ∈ a /\ x ∈ b.
Proof.
  rewrite list_elem_of_In, filter_In, <- list_elem_of_In, elem_of_elements.
  by rewrite bool_decide_eq_true.
Qed.

Lemma countShared_NoDup (a b : gset string) :
  NoDup (List.filter (fun t => bool_decide (t ∈ b)) (elements a)).
Proof.
  eapply sublist_NoDup; [apply (NoDup_elements a) | apply JsProofs.filter_sublist].
Qed.

Lemma countShared_comm (a b : gset string) : countShared a b = countShared b a.
Proof.
  unfold countShared. apply Permutation_length, NoDup_Permutation;
    try apply countShared_NoDup.
  intros x. rewrite !countShared_elem_of. tauto.
Qed.

Lemma countShared_le_r (a b : gset string) : (countShared a b <= size b)%nat.
Proof. rewrite countShared_comm. apply countShared_le_l. Qed.

Lemma ratio_range (a b : nat) :
  (a <= b)%nat -> (0 < b)%nat -> (0 <= ratio a b /\ ratio a b <= 1)%Q.
Proof.
  intros Hab Hb. unfold ratio.
  assert (H0 : (0 < inject_Z (Z.of_nat b))%Q).
  { change 0%Q with (inject_Z 0). rewrite <- Zlt_Qlt. lia. }
  split.
  - apply Qle_shift_div_l; [done |]. rewrite Qmult_0_l.
    change 0%Q with (inject_Z 0). rewrite <- Zle_Qle. lia.
  - apply Qle_shift_div_r; [done |]. rewrite Qmult_1_l.
    rewrite <- Zle_Qle. lia.
Qed.

Lemma jaccard_range (a b : gset string) : (0 <= jaccard a b /\ jaccard a b <= 1)%Q.
Proof.
  unfold jaccard. destruct (_ || _); [split; [apply Qle_refl | discriminate] |].
  destruct (0 <? _)%nat eqn:Hu; [| split; [apply Qle_refl | discriminate]].
  apply Nat.ltb_lt in Hu. apply ratio_range; [| done].
  pose proof (countShared_le_l a b). pose proof (countShared_le_r a b). lia.
Qed.

Lemma substringScore_range a b :
  (0 <= substringScore a b /\ substringScore a b <= 1)%Q.
Proof.
  unfold substringScore.
  repeat (match goal with
          | |- context [if ?c then _ else _] => destruct c
          end);
    split; discriminate.
Qed.

(** Every score lies between 0 and 1. *)
Theorem score_between_0_and_1 (query candidate : IndexedQuestion) :
  (0 <= scoreMatch query candidate /\ scoreMatch query candidate <= 1)%Q.
Proof.
  unfold scoreMatch.
  destruct (_ || _); [split; discriminate |].
  destruct (String.eqb _ _); [split; discriminate |].
  destruct (_ && _); [split; discriminate |].
  pose proof (jaccard_range (tokens query) (tokens candidate)) as [Hj0 Hj1].
  pose proof (substringScore_range (normalized query) (normalized candidate))
    as [Hs0 Hs1].
  set (overlap := if (0 <? _)%nat then _ else _).
  assert (Ho : (0 <= overlap /\ overlap <= 1)%Q).
  { subst overlap. destruct (0 <? _)%nat eqn:Hm; [| split; discriminate].
    apply Nat.ltb_lt in Hm. apply ratio_range; [| done].
    pose proof (countShared_le_l (tokens query) (tokens candidate)).
    pose proof (countShared_le_r (tokens query) (tokens candidate)). lia. }
  destruct Ho as [Ho0 Ho1]. unfold Js.maxQ.
  destruct (Qle_bool _ _); [done |]. split; lra.
Qed.

(** *** Symmetry *)

Lemma startsWithL_length n h :
  Js.startsWithL n h = true -> (length n <= length h)%nat.
Proof.
  revert h. induction n as [| a n IH]; intros [| b h]; simpl; try lia; try done.
  intros [_ H]%andb_prop. apply IH in H. lia.
Qed.

Lemma startsWithL_same_length n h :
  Js.startsWithL n h = true -> length n = length h -> n = h.
Proof.
  revert h. induction n as [| a n IH]; intros [| b h]; simpl; try done.
  intros [Hab H]%andb_prop [= Hl]. apply Ascii.eqb_eq in Hab as ->.
  f_equal. by apply IH.
Qed.

Lemma indexOfL_short n h : forall from,
  (length h < length n)%nat -> Js.indexOfL n h from = -1.
Proof.
  induction h as [| b h IH]; intros from Hl; simpl.
  - destruct (Js.startsWithL n []) eqn:Hs; [| done].
    apply startsWithL_length in Hs. lia.
  - destruct (Js.startsWithL n (b :: h)) eqn:Hs.
    + apply startsWithL_length in Hs. lia.
    + apply IH. simpl in Hl. lia.
Qed.

Lemma chars_length s : length (Js.chars s) = String.length s.
Proof. induction s as [| c s IH]; simpl; [done | by rewrite IH]. Qed.

Lemma chars_inj a b : Js.chars a = Js.chars b -> a = b.
Proof.
  intros H. rewrite <- (string_of_list_ascii_of_string a),
    <- (string_of_list_ascii_of_string b). unfold Js.chars in H. by rewrite H.
Qed.

(** Of two texts of one length, one contains the other only if they are
    equal. *)
Lemma includes_same_length a b :
  Js.len a = Js.len b -> Js.includes a b = true -> a = b.
Proof.
  unfold Js.len, Js.includes, Js.indexOf. intros Hl Hi.
  assert (Hl' : length (Js.chars b) = length (Js.chars a))
    by (rewrite !chars_length; lia).
  destruct (Js.chars a) as [| x h] eqn:Ha.
  - destruct (Js.chars b) eqn:Hb; [| done]. apply chars_inj. congruence.
  - simpl in Hi. destruct (Js.startsWithL (Js.chars b) (x :: h)) eqn:Hs.
    + apply startsWithL_same_length in Hs; [| done].
      apply chars_inj. congruence.
    + rewrite indexOfL_short in Hi by (simpl in Hl'; lia). done.
Qed.

Lemma jaccard_comm (a b : gset string) : jaccard a b = jaccard b a.
Proof.
  unfold jaccard. rewrite (orb_comm (size a =? 0)%nat).
  by rewrite (countShared_comm a b), (Nat.add_comm (size a)).
Qed.

Lemma substringScore_comm a b : substringScore a b = substringScore b a.
Proof.
  unfold substringScore.
  rewrite (orb_comm (String.eqb a "")), (String.eqb_sym a b),
    (orb_comm (Js.len a <? 4)), (orb_comm (Js.includes a b)).
  done.
Qed.

(** The score does not depend on which of the two texts is the query. *)
Theorem score_is_symmetric (query candidate : IndexedQuestion) :
  scoreMatch query candidate = scoreMatch candidate query.
Proof.
  unfold scoreMatch.
  rewrite (orb_comm (Js.len (normalized query) =? 0)).
  destruct (_ || _); [done |].
  rewrite (String.eqb_sym (normalized query) (normalized candidate)).
  destruct (String.eqb (normalized candidate) (normalized query)) eqn:Hne; [done |].
  apply String.eqb_neq in Hne.
  rewrite (jaccard_comm (tokens query)), (Nat.min_comm (size (tokens query))),
    (countShared_comm (tokens query)),
    (substringScore_comm (normalized query)).
  set (rest := Js.maxQ _ _).
  destruct (Z.lt_trichotomy (Js.len (normalized query))
              (Js.len (normalized candidate))) as [Hlt | [Heq | Hgt]].
  - replace (Js.len (normalized candidate) <=? Js.len (normalized query))
      with false by (symmetry; apply Z.leb_gt; lia).
    replace (Js.len (normalized query) <=? Js.len (normalized candidate))
      with true by (symmetry; apply Z.leb_le; lia).
    rewrite String.eqb_refl.
    replace (String.eqb (normalized candidate) (normalized query)) with false
      by (symmetry; by apply String.eqb_neq).
    done.
  - rewrite Heq, Z.leb_refl, !String.eqb_refl.
    replace (Js.includes (normalized query) (normalized candidate)) with false.
    + replace (Js.includes (normalized candidate) (normalized query)) with false;
        [by rewrite !andb_false_r |].
      symmetry. apply not_true_is_false. intros Hi.
      apply includes_same_length in Hi; [done | lia].
    + symmetry. apply not_true_is_false. intros Hi.
      apply includes_same_length in Hi; [by apply Hne | lia].
  - replace (Js.len (normalized candidate) <=? Js.len (normalized query))
      with true by (symmetry; apply Z.leb_le; lia).
    replace (Js.len (normalized query) <=? Js.len (normalized candidate))
      with false by (symmetry; apply Z.leb_gt; lia).
    rewrite String.eqb_refl.
    replace (String.eqb (normalized query) (normalized candidate)) with false
      by (symmetry; apply String.eqb_neq; congruence).
    done.
Qed.

(** *** Ranking *)

(** The matches returned are at most [topN], each a candidate with its
    own score, none below the threshold, best first; and when some
    candidate reaches the threshold and at least one match is asked for,
    the first match scores at least as much as every candidate. *)
Theorem best_match_comes_first
    (threshold : Q) (topN : nat) (query : IndexedQuestion)
    (candidates : list IndexedQuestion) :
  (length (rankMatches threshold topN query candidates) <= topN)%nat
  /\ Forall
       (fun x => fst x ∈ candidates
                 /\ snd x = scoreMatch query (fst x)
                 /\ (threshold <= snd x)%Q)
       (rankMatches threshold topN query candidates)
  /\ StronglySorted byMatchDesc (rankMatches threshold topN query candidates)
  /\ forall c,
       c ∈ candidates ->
       (threshold <= scoreMatch query c)%Q ->
       (1 <= topN)%nat ->
       exists best rest,
         rankMatches threshold topN query candidates = best :: rest
         /\ (scoreMatch query c <= snd best)%Q.
Proof.
  unfold rankMatches.
  set (scored := map (fun q => (q, scoreMatch query q)) candidates).
  set (kept := List.filter (fun x => Qle_bool threshold (snd x)) scored).
  set (before := fun a b : IndexedQuestion * Q => Qle_bool (snd b) (snd a)).
  assert (Hsorted : StronglySorted byMatchDesc (Js.sortBy before kept)).
  { apply JsProofs.sortBy_sorted.
    - intros x y H. by apply Qle_bool_iff.
    - intros x y H. unfold byMatchDesc, before in *.
      apply Qlt_le_weak, Qnot_le_lt. intros Hle.
      apply Qle_bool_iff in Hle. congruence.
    - intros x y z Hxy Hyz. unfold byMatchDesc in *. by eapply Qle_trans. }
  pose proof (JsProofs.sortBy_perm before kept) as Hperm.
  assert (Hkept : forall x, x ∈ kept <->
                    fst x ∈ candidates /\ snd x = scoreMatch query (fst x)
                    /\ (threshold <= snd x)%Q).
  { intros [q sc]. unfold kept, scored.
    rewrite list_elem_of_In, filter_In, in_map_iff, Qle_bool_iff. simpl.
    split.
    - intros [(q' & [= -> <-] & Hin) Ht]. by rewrite list_elem_of_In.
    - intros (Hin & -> & Ht). split; [| done]. exists q.
      by rewrite <- list_elem_of_In. }
  split; [rewrite length_take; lia |]. split; [| split].
  - apply Forall_forall. intros x Hx. apply Hkept. rewrite <- Hperm.
    eapply elem_of_sublist; [exact Hx | apply sublist_take].
  - eapply JsProofs.StronglySorted_sublist; [apply sublist_take | done].
  - intros c Hc Ht Hn.
    assert (Hin : (c, scoreMatch query c) ∈ Js.sortBy before kept)
      by (rewrite Hperm; by apply Hkept).
    destruct (Js.sortBy before kept) as [| best rest]; [by apply elem_of_nil in Hin |].
    destruct topN as [| n]; [lia |]. simpl. exists best, (take n rest).
    split; [done |]. apply elem_of_cons in Hin as [<- | Hin]; [apply Qle_refl |].
    apply StronglySorted_inv in Hsorted as [_ Hall].
    rewrite Forall_forall in Hall. exact (Hall _ Hin).
Qed.

(** *** What a fetch makes of an answer *)

Lemma dropSlashes_head l :
  Js.startsWithL ["/"%char] (dropSlashes l) = false.
Proof.
  induction l as [| c l IH]; cbn [dropSlashes]; [done |].
  destruct (Ascii.eqb c "/") eqn:Hc; [done |]. cbn [Js.startsWithL].
  by rewrite Ascii.eqb_sym, Hc.
Qed.

Lemma chars_str l : Js.chars (Js.str l) = l.
Proof. apply list_ascii_of_string_of_list_ascii. Qed.

(** An entry that a fetch returns carries the identifier asked for, the
    normalisation of its own text and the tokens of that; it has at most
    six image addresses, each the image host followed by a path that is
    not empty and does not begin with a slash; and it comes from a
    response with a success status and a readable body. *)
Theorem fetched_entry_is_consistent
    (resp : HttpResponse) (i : Z) (q : IndexedQuestion)
    (Hfetch : fetchQuestionById resp i = Ok (Found q)) :
  id q = i
  /\ normalized q = normalizeText (text q)
  /\ tokens q = toTokens (normalized q)
  /\ (length (imageUrls q) <= 6)%nat
  /\ Forall
       (fun u => exists p,
            u = (imagePrefix ++ p)%string
            /\ p <> ""%string
            /\ Js.startsWithL ["/"%char] (Js.chars p) = false)
       (imageUrls q)
  /\ exists status body,
       resp = Responded status (Some body) /\ 200 <= status <= 299.
Proof.
  unfold fetchQuestionById in Hfetch. destruct resp as [| status body]; [done |].
  destruct (status =? 404); [done |].
  destruct (negb _) eqn:Hok; [done |]. destruct body as [body |]; [| done].
  injection Hfetch as <-. simpl.
  split; [done |]. split; [done |]. split; [done |].
  split; [rewrite length_map, length_take; lia |]. split.
  - apply Forall_forall. intros u Hu.
    apply list_elem_of_In, in_map_iff in Hu as (p & <- & Hp).
    exists p. split; [done |].
    apply list_elem_of_In in Hp.
    assert (Hp' : p ∈ List.filter (fun p => negb (String.eqb p ""))
                       (map imagePath
                          match
                            match body with
                            | Wrapped question => pickQuestion question
                            | Plain payload => pickQuestion payload
                            end
                          with
                          | Some q => match images q with Some l => l | None => [] end
                          | None => []
                          end))
      by (eapply elem_of_sublist; [exact Hp | apply sublist_take]).
    apply list_elem_of_In, filter_In in Hp' as [Hin Hne].
    apply negb_true_iff, String.eqb_neq in Hne. split; [done |].
    apply in_map_iff in Hin as (img & <- & _).
    unfold imagePath. rewrite chars_str. apply dropSlashes_head.
  - exists status, body. split; [done |].
    apply negb_false_iff, andb_prop in Hok as [H1 H2].
    apply Z.leb_le in H1, H2. lia.
Qed.

Lemma fetched_entry_is_consistent_witness :
  id (Samples.entry 7) = 7
  /\ normalized (Samples.entry 7) = normalizeText (text (Samples.entry 7)).
Proof.
  destruct (fetched_entry_is_consistent (Samples.record 7) 7 (Samples.entry 7))
    as (Hid & Hn & _).
  - vm_compute; reflexivity.
  - by split.
Defined.

(** A response with a success status and a readable body is always
    indexed, also when the body holds no question: the entry then has an
    empty text, no token and no image, and scores 0 against every query. *)
Theorem answer_without_question_is_indexed_empty
    (status : Z) (body : Body) (i : Z)
    (Hok : 200 <= status <= 299)
    (Hnone : match body with
             | Wrapped question => pickQuestion question
             | Plain payload => pickQuestion payload
             end = None) :
  exists q,
    fetchQuestionById (Responded status (Some body)) i = Ok (Found q)
    /\ text q = ""%string /\ normalized q = ""%string
    /\ tokens q = ∅ /\ imageUrls q = []
    /\ forall query, scoreMatch query q = 0%Q.
Proof.
  unfold fetchQuestionById.
  replace (status =? 404) with false by (symmetry; apply Z.eqb_neq; lia).
  replace ((200 <=? status) && (status <=? 299)) with true
    by (symmetry; apply andb_true_intro; split; apply Z.leb_le; lia).
  simpl negb. cbv iota. rewrite Hnone. eexists. split; [reflexivity |].
  simpl. split; [done |]. split; [done |]. split; [done |]. split; [done |].
  intros query. unfold scoreMatch. simpl. by rewrite orb_true_r.
Qed.

Lemma answer_without_question_is_indexed_empty_witness :
  exists q,
    fetchQuestionById (Responded 200 (Some (Plain NotAnObject))) 3 = Ok (Found q)
    /\ text q = ""%string.
Proof.
  destruct (answer_without_question_is_indexed_empty 200 (Plain NotAnObject) 3)
    as (q & Hq & Ht & _).
  - lia.
  - reflexivity.
  - eauto.
Defined.

End MatchFacts.

(** ** Further properties of the text normalisation *)

Module TextFacts.
Import Lookup MoreProps.

(** Facts about single characters, by enumeration. *)
Lemma toLower_not_upper c : Js.isUpper (Js.toLower c) = false.
Proof. destruct c as [[] [] [] [] [] [] [] []]; vm_compute; reflexivity. Qed.

Lemma kept_char_normal c :
  Js.isUpper c = false -> notLetterOrDigit c = false ->
  isNormalChar c = true /\ Ascii.eqb c " " = false.
Proof.
  destruct c as [[] [] [] [] [] [] [] []]; vm_compute; intros; try done.
Qed.

Lemma normal_not_space c : isNormalChar c = true -> Js.isSpace c = false.
Proof. destruct c as [[] [] [] [] [] [] [] []]; vm_compute; intros; try done. Qed.

Lemma space_is_space c : Ascii.eqb c " " = true -> Js.isSpace c = true.
Proof. intros ->%Ascii.eqb_eq. reflexivity. Qed.

Lemma space_dropped c : Ascii.eqb c " " = true -> notLetterOrDigit c = true.
Proof. intros ->%Ascii.eqb_eq. reflexivity. Qed.

Lemma straightenQuotes_cons3 a b c r :
  straightenQuotes (a :: b :: c :: r)
  = if ((Js.code a =? 226) && (Js.code b =? 128)
        && ((Js.code c =? 152) || (Js.code c =? 153)))%N
    then "'"%char :: straightenQuotes r
    else a :: straightenQuotes (b :: c :: r).
Proof. reflexivity. Qed.

(** The curly-quote stage keeps what holds of every character and of the
    straight quote. *)
Lemma straightenQuotes_Forall (P : ascii -> Prop) :
  P "'"%char ->
  forall n l, (length l <= n)%nat -> Forall P l -> Forall P (straightenQuotes l).
Proof.
  intros Hq. induction n as [| n IH]; intros l Hn Hl.
  - destruct l; [done | simpl in Hn; lia].
  - destruct l as [| a [| b [| c r]]]; try done.
    rewrite straightenQuotes_cons3.
    apply Forall_cons in Hl as [Ha Hl]. pose proof Hl as Hl'.
    apply Forall_cons in Hl' as [Hb Hl']. apply Forall_cons in Hl' as [Hc Hr].
    simpl in Hn. destruct (_ && _).
    + constructor; [done |]. apply IH; [lia | done].
    + constructor; [done |]. apply IH; [simpl; lia | done].
Qed.

(** After the removal of what is neither letter nor digit: normal
    characters and single spaces. *)
Lemma replaceRuns_loose l : forall inRun,
  Forall (fun c => Js.isUpper c = false) l ->
  looseFrom inRun (Js.replaceRuns notLetterOrDigit inRun l) = true.
Proof.
  induction l as [| c l IH]; intros inRun Hl; cbn [Js.replaceRuns]; [done |].
  apply Forall_cons in Hl as [Hc Hl].
  destruct (notLetterOrDigit c) eqn:Hp.
  - destruct inRun; [by apply IH |].
    cbn [looseFrom]. change (Ascii.eqb " " " ") with true. simpl. by apply IH.
  - destruct (kept_char_normal c Hc Hp) as [Hn Hs].
    cbn [looseFrom]. rewrite Hs, Hn. simpl. by apply IH.
Qed.

(** The collapse of white space finds nothing to do then. *)
Lemma collapse_loose l : forall prev,
  looseFrom prev l = true -> Js.replaceRuns Js.isSpace prev l = l.
Proof.
  induction l as [| c l IH]; intros prev H; cbn [Js.replaceRuns]; [done |].
  cbn [looseFrom] in H. destruct (Ascii.eqb c " ") eqn:Hs.
  - apply andb_prop in H as [Hprev H]. apply negb_true_iff in Hprev as ->.
    rewrite (space_is_space c Hs). apply Ascii.eqb_eq in Hs as ->.
    f_equal. by apply IH.
  - apply andb_prop in H as [Hn H]. rewrite (normal_not_space c Hn).
    f_equal. by apply IH.
Qed.

Lemma dropSpaces_loose l : forall prev,
  looseFrom prev l = true -> looseFrom true (Js.dropSpaces l) = true.
Proof.
  induction l as [| c l IH]; intros prev H; cbn [Js.dropSpaces]; [done |].
  cbn [looseFrom] in H. destruct (Ascii.eqb c " ") eqn:Hs.
  - apply andb_prop in H as [_ H]. rewrite (space_is_space c Hs). by eapply IH.
  - apply andb_prop in H as [Hn H]. rewrite (normal_not_space c Hn).
    cbn [looseFrom]. by rewrite Hs, Hn.
Qed.

Lemma dropSpaces_app a b :
  Js.dropSpaces (a ++ b)
  = match Js.dropSpaces a with
    | [] => Js.dropSpaces b
    | x => x ++ b
    end.
Proof.
  induction a as [| c a IH]; simpl; [done |]. by destruct (Js.isSpace c).
Qed.

(** The removal of white space at the end, from the front. *)
Lemma stripEnd_cons c r :
  rev (Js.dropSpaces (rev (c :: r)))
  = match rev (Js.dropSpaces (rev r)) with
    | [] => if Js.isSpace c then [] else [c]
    | x => c :: x
    end.
Proof.
  simpl rev at 2. rewrite dropSpaces_app.
  destruct (Js.dropSpaces (rev r)) as [| y ys] eqn:Hd.
  - simpl. by destruct (Js.isSpace c).
  - rewrite rev_app_distr. simpl rev at 1. simpl.
    destruct (rev ys ++ [y]) eqn:He; [| done].
    by apply app_eq_nil in He as [_ ?].
Qed.

Lemma stripEnd_tidy l : forall prev,
  looseFrom prev l = true ->
  rev (Js.dropSpaces (rev l)) = []
  \/ tidyFrom prev (rev (Js.dropSpaces (rev l))) = true.
Proof.
  induction l as [| c l IH]; intros prev H; [by left |].
  rewrite stripEnd_cons. cbn [looseFrom] in H.
  destruct (Ascii.eqb c " ") eqn:Hs.
  - apply andb_prop in H as [Hprev H].
    destruct (IH true H) as [-> | Ht].
    + left. by rewrite (space_is_space c Hs).
    + destruct (rev (Js.dropSpaces (rev l))) eqn:Hx; [by left; rewrite (space_is_space c Hs) |].
      right. cbn [tidyFrom]. rewrite Hs, Hprev. done.
  - apply andb_prop in H as [Hn H]. right.
    destruct (IH false H) as [-> | Ht].
    + rewrite (normal_not_space c Hn). cbn [tidyFrom]. by rewrite Hs, Hn.
    + destruct (rev (Js.dropSpaces (rev l))) eqn:Hx.
      * rewrite (normal_not_space c Hn). cbn [tidyFrom]. by rewrite Hs, Hn.
      * cbn [tidyFrom]. rewrite Hs, Hn. done.
Qed.

(** A normalised text consists of words of lower-case letters, digits and
    bytes of non-ASCII characters, separated by single spaces, with no
    space at either end. *)
Theorem normalized_text_is_tidy (input : string) :
  tidy (Js.chars (normalizeText input)) = true.
Proof.
  unfold normalizeText. rewrite MatchFacts.chars_str.
  set (l2 := straightenQuotes _).
  assert (Hl2 : Forall (fun c => Js.isUpper c = false) l2).
  { apply (straightenQuotes_Forall (fun c => Js.isUpper c = false) eq_refl
             _ _ (le_n _)).
    apply Forall_forall. intros c Hc.
    apply list_elem_of_In, in_map_iff in Hc as (c0 & <- & _).
    apply toLower_not_upper. }
  pose proof (replaceRuns_loose l2 false Hl2) as Hl3.
  set (l3 := Js.replaceRuns notLetterOrDigit false l2) in *.
  unfold Js.collapseL. rewrite (collapse_loose l3 false Hl3).
  unfold Js.trimL. pose proof (dropSpaces_loose l3 false Hl3) as Hl4.
  destruct (stripEnd_tidy _ _ Hl4) as [-> | Ht]; [done |].
  unfold tidy. by destruct (rev _).
Qed.

(** *** Tokens *)

Lemma splitOnL_no_sep sep l : forall cur,
  Forall (fun c => Ascii.eqb c sep = false) cur ->
  Forall (Forall (fun c => Ascii.eqb c sep = false)) (Js.splitOnL sep cur l).
Proof.
  induction l as [| c l IH]; intros cur Hcur; cbn [Js.splitOnL].
  - constructor; [| done]. by apply Forall_rev.
  - destruct (Ascii.eqb c sep) eqn:Hc.
    + constructor; [by apply Forall_rev | by apply IH].
    + apply IH. by constructor.
Qed.

Lemma toTokens_fold pieces : forall (acc : gset string) t,
  t ∈ fold_left
        (fun out t =>
           if String.eqb t "" then out
           else if Js.len t <=? 1 then out
           else out ∪ {[t]})
        pieces acc
  <-> t ∈ acc \/ (t ∈ pieces /\ 2 <= Js.len t).
Proof.
  induction pieces as [| p ps IH]; intros acc t; simpl.
  - rewrite elem_of_nil. tauto.
  - rewrite IH, elem_of_cons.
    destruct (String.eqb_spec p "") as [-> | Hne].
    + assert (Js.len "" = 0) by reflexivity.
      intuition (subst; auto; try lia).
    + destruct (Js.len p <=? 1) eqn:Hl.
      * apply Z.leb_le in Hl. intuition (subst; auto; try lia).
      * apply Z.leb_gt in Hl. rewrite elem_of_union, elem_of_singleton.
        intuition (subst; auto; try lia).
Qed.

(** The tokens of a text are exactly its pieces between single spaces
    that have two characters or more; no token holds a space. *)
Theorem tokens_are_the_long_words (s : string) (t : string) :
  (t ∈ toTokens s <-> t ∈ Js.splitOn " " s /\ 2 <= Js.len t)
  /\ (t ∈ toTokens s ->
      Forall (fun c => Ascii.eqb c " " = false) (Js.chars t)).
Proof.
  assert (Hiff : t ∈ toTokens s <-> t ∈ Js.splitOn " " s /\ 2 <= Js.len t).
  { unfold toTokens. rewrite toTokens_fold. split; [| tauto].
    intros [H | H]; [by apply elem_of_empty in H | done]. }
  split; [exact Hiff |]. intros [Hin _]%Hiff.
  unfold Js.splitOn in Hin.
  apply list_elem_of_In, in_map_iff in Hin as (piece & <- & Hp).
  rewrite MatchFacts.chars_str.
  pose proof (splitOnL_no_sep " " (Js.chars s) [] ltac:(constructor)) as Hall.
  rewrite Forall_forall in Hall. apply Hall. by apply list_elem_of_In.
Qed.

End TextFacts.

(** ** Further properties of the search *)

Module SearchFacts.
Import Docs Props CorpusProps CorpusSamples.

(** *** Terms *)

Lemma replaceRuns_chars (p : ascii -> bool) l : forall inRun c,
  c ∈ Js.replaceRuns p inRun l -> c = " "%char \/ (c ∈ l /\ p c = false).
Proof.
  induction l as [| a l IH]; intros inRun c; simpl; [by rewrite elem_of_nil |].
  destruct (p a) eqn:Hp.
  - destruct inRun.
    + intros [? | [? ?]]%IH; [by left | right; split; [by right | done]].
    + rewrite elem_of_cons.
      intros [-> | [? | [? ?]]%IH]; [by left | by left |].
      right; split; [by right | done].
  - rewrite elem_of_cons. intros [-> | [? | [? ?]]%IH].
    + right. split; [by left | done].
    + by left.
    + right; split; [by right | done].
Qed.

Lemma wordsL_chars (P : ascii -> Prop) l : forall cur,
  (forall c, c ∈ l -> Js.isSpace c = false -> P c) ->
  Forall P cur ->
  Forall (fun w => w <> [] /\ Forall P w) (Js.wordsL cur l).
Proof.
  induction l as [| a l IH]; intros cur Hl Hcur; simpl.
  - destruct cur as [| c cur]; [constructor |].
    constructor; [| constructor]. split.
    + simpl. intros H. by apply app_eq_nil in H as [_ ?].
    + by apply Forall_rev.
  - assert (Hl' : forall c, c ∈ l -> Js.isSpace c = false -> P c)
      by (intros c Hc; apply Hl; by right).
    destruct (Js.isSpace a) eqn:Ha.
    + destruct cur as [| c cur]; [by apply IH |].
      constructor; [| by apply IH]. split.
      * simpl. intros H. by apply app_eq_nil in H as [_ ?].
      * by apply Forall_rev.
    + apply IH; [done |]. constructor; [| done]. apply Hl; [by left | done].
Qed.

Lemma ascii_term_char c :
  (Js.code c <? 128)%N = true ->
  Js.isSpace (Js.toLower c) = false ->
  notTermChar (Js.toLower c) = false ->
  termChar (Js.toLower c).
Proof.
  unfold termChar.
  destruct c as [[] [] [] [] [] [] [] []]; vm_compute; intros; try done.
Qed.

Lemma cleaned_words input :
  asciiOnly input = true ->
  Forall (fun w => w <> [] /\ Forall termChar w)
    (Js.wordsL []
       (Js.replaceRuns notTermChar false (map Js.toLower (Js.chars input)))).
Proof.
  intros Hascii. apply wordsL_chars; [| constructor].
  intros c Hc Hs.
  apply replaceRuns_chars in Hc as [-> | [Hc Hp]]; [done |].
  apply list_elem_of_In, in_map_iff in Hc as (c0 & <- & Hc0).
  apply ascii_term_char; [| done | done].
  unfold asciiOnly in Hascii. rewrite forallb_forall in Hascii. auto.
Qed.

(** The terms of a query of ASCII text: at most twelve, no term twice,
    none shorter than two characters, none a stop word, each made of
    lower-case letters, digits, underscores and hyphens only. *)
Theorem terms_are_few_distinct_and_meaningful (input : string)
    (Hascii : asciiOnly input = true) :
  (length (extractTerms input) <= 12)%nat
  /\ NoDup (extractTerms input)
  /\ Forall
       (fun t => 2 <= Js.len t /\ (t ∉ stop) /\ Forall termChar (Js.chars t))
       (extractTerms input).
Proof.
  unfold extractTerms.
  set (kept := List.filter _ _).
  split; [rewrite length_take; lia |].
  split.
  { eapply sublist_NoDup; [| apply sublist_take].
    apply (JsProofs.uniqFrom_NoDup kept ∅). }
  apply Forall_forall. intros t Ht.
  pose proof (elem_of_sublist _ _ _ Ht (sublist_take _ _)) as Hu. clear Ht.
  assert (Hk : t ∈ kept).
  { clear -Hu. unfold Js.uniq in Hu. revert Hu. generalize (∅ : gset string).
    induction kept as [| x r IH]; intros seen; simpl; [done |].
    case_bool_decide.
    - intros ?%IH. by right.
    - rewrite elem_of_cons. intros [-> | ?%IH]; [by left | by right]. }
  apply DocsProofs.elem_of_List_filter in Hk as [Hw Hf].
  apply andb_prop in Hf as [Hlen Hstop].
  apply Z.leb_le in Hlen. apply negb_true_iff, bool_decide_eq_false in Hstop.
  split; [done |]. split; [done |].
  unfold Js.words in Hw. rewrite MatchFacts.chars_str in Hw.
  apply list_elem_of_In, in_map_iff in Hw as (w & <- & Hw).
  rewrite MatchFacts.chars_str.
  pose proof (cleaned_words input Hascii) as Hall. rewrite Forall_forall in Hall.
  by apply Hall, list_elem_of_In.
Qed.

Lemma terms_are_few_distinct_and_meaningful_witness :
  Forall
    (fun t => 2 <= Js.len t /\ (t ∉ stop) /\ Forall termChar (Js.chars t))
    (extractTerms "How do the BRAKES work, rule T6.1?").
Proof.
  apply (terms_are_few_distinct_and_meaningful
           "How do the BRAKES work, rule T6.1?").
  reflexivity.
Defined.

(** *** Excerpts *)

Lemma len_str l : Js.len (Js.str l) = Z.of_nat (length l).
Proof.
  unfold Js.len. by rewrite <- MatchFacts.chars_length, MatchFacts.chars_str.
Qed.

Lemma len_append a b : Js.len (a ++ b) = Js.len a + Js.len b.
Proof.
  unfold Js.len. induction a as [| c a IH].
  - change (String.append "" b) with b. simpl String.length. lia.
  - change (String.append (String c a) b) with (String c (String.append a b)).
    cbn [String.length]. rewrite !Nat2Z.inj_succ. lia.
Qed.

Lemma len_nonneg s : 0 <= Js.len s.
Proof. unfold Js.len. lia. Qed.

Lemma len_slice s a b : Js.len (Js.slice s a b) <= Z.max 0 (b - a).
Proof. unfold Js.slice. rewrite len_str, length_take. lia. Qed.

Lemma slice_all s : Js.slice s 0 (Js.len s) = s.
Proof.
  unfold Js.slice, Js.len. simpl drop. rewrite Z.sub_0_r, Nat2Z.id.
  rewrite <- MatchFacts.chars_length, firstn_all.
  apply string_of_list_ascii_of_string.
Qed.

Lemma empty_len s : s = ""%string <-> Js.len s = 0.
Proof.
  unfold Js.len. destruct s; simpl String.length; split; try done; lia.
Qed.

(** An excerpt is at most [maxLen] characters of the text and an ellipsis
    at either end, and it is empty only for a text without a visible
    character. *)
Theorem excerpt_is_short_and_not_empty
    (text : string) (terms : list string) (maxLen : Z)
    (Hmax : 0 <= maxLen) :
  Js.len (makeExcerpt text terms maxLen) <= maxLen + 6
  /\ (makeExcerpt text terms maxLen = ""%string <-> squeeze text = ""%string).
Proof.
  unfold makeExcerpt. set (hay := squeeze text).
  destruct (String.eqb_spec hay "") as [-> | Hne]; [split; [simpl; unfold Js.len; simpl; lia | done] |].
  assert (Hpos : 0 < Js.len hay).
  { pose proof (len_nonneg hay). pose proof (proj2 (empty_len hay)).
    destruct (decide (Js.len hay = 0)); [tauto | lia]. }
  destruct (earliestTerm _ terms) as [bestIdx bestTerm].
  destruct (bestIdx =? -1).
  - destruct (Js.len hay <=? maxLen) eqn:Hfit.
    + apply Z.leb_le in Hfit. split; [lia | done].
    + split.
      * rewrite len_append. pose proof (len_slice hay 0 maxLen).
        change (Js.len "...") with 3. lia.
      * split; [| done]. intros H%empty_len. rewrite len_append in H.
        change (Js.len "...") with 3 in H.
        pose proof (len_nonneg (Js.slice hay 0 maxLen)). lia.
  - set (pad := (maxLen - Js.len bestTerm) / 2).
    set (start := Z.max 0 (bestIdx - pad)).
    set (end_ := Z.min (Js.len hay) (bestIdx + Js.len bestTerm + pad)).
    assert (Hpad : 2 * pad <= maxLen - Js.len bestTerm)
      by (apply Z.mul_div_le; lia).
    split.
    + rewrite !len_append. pose proof (len_slice hay start end_).
      assert (Js.len (if 0 <? start then "..."%string else ""%string) <= 3)
        by (destruct (0 <? start); unfold Js.len; simpl; lia).
      assert (Js.len (if end_ <? Js.len hay then "..."%string else ""%string) <= 3)
        by (destruct (end_ <? Js.len hay); unfold Js.len; simpl; lia).
      lia.
    + split; [| done]. intros H%empty_len. rewrite !len_append in H.
      pose proof (len_nonneg (Js.slice hay start end_)).
      destruct (0 <? start) eqn:Hs;
        [change (Js.len "...") with 3 in H;
         pose proof (len_nonneg (if end_ <? Js.len hay then "..."%string else ""%string)); lia |].
      destruct (end_ <? Js.len hay) eqn:He;
        [change (Js.len "...") with 3 in H; change (Js.len "") with 0 in H; lia |].
      apply Z.ltb_ge in Hs, He.
      assert (start = 0) by lia. assert (end_ = Js.len hay) by lia.
      replace start with 0 in H by done. replace end_ with (Js.len hay) in H by done.
      rewrite slice_all in H. change (Js.len "") with 0 in H. lia.
Qed.

Lemma excerpt_is_short_and_not_empty_witness :
  Js.len (makeExcerpt (text r4) ["pedal"%string] 20) <= 20 + 6.
Proof.
  apply (excerpt_is_short_and_not_empty (text r4) ["pedal"%string] 20). lia.
Defined.

(** *** Diversification *)

(** The result of the two passes, taken apart. *)
Lemma diversify_parts limit out :
  exists picked more,
    diversify limit out = picked ++ more
    /\ picked `sublist_of` Js.sortBy byScore out
    /\ more `sublist_of` Js.sortBy byScore out
    /\ (0 < limit -> Z.of_nat (length (picked ++ more)) <= limit)
    /\ (NoDup (ids out) -> NoDup (ids (picked ++ more)))
    /\ (Z.of_nat (length (picked ++ more)) < limit ->
        forall x : RetrievedChunk, x ∈ out -> chunkId x ∈ ids (picked ++ more)).
Proof.
  unfold diversify.
  pose proof (JsProofs.sortBy_perm byScore out) as Hperm.
  set (sorted := Js.sortBy byScore out) in *.
  destruct (pickCapped limit sorted [] ∅ ∅) as [picked pickedIds] eqn:Hp.
  destruct (DocsProofs.pickCapped_spec _ _ _ _ _ _ _ Hp)
    as (sel & Hsel & Hsub & Hcap & Hids & Hlen).
  { intros f. by rewrite lookup_empty. }
  { intros f. unfold fromFile. simpl. lia. }
  { intros k. unfold ids. simpl. rewrite elem_of_nil. set_solver. }
  simpl in Hsel. subst sel. simpl in Hlen.
  assert (Hnd : NoDup (ids out) -> NoDup (ids picked)).
  { intros Ho. eapply sublist_NoDup; [| by apply DocsProofs.ids_sublist].
    by rewrite (DocsProofs.ids_perm _ _ Hperm). }
  destruct (_ <? limit) eqn:Hshort.
  - apply Z.ltb_lt in Hshort.
    pose proof (DocsProofs.backfill_complete limit sorted picked pickedIds Hids) as Hall.
    destruct (DocsProofs.backfill_spec limit sorted picked pickedIds Hids)
      as (more & Hmore & Hmsub & Hmlen & Hmnd).
    rewrite Hmore in Hall. exists picked, more.
    split; [done |]. split; [done |]. split; [done |].
    split; [auto |]. split.
    + intros Ho. apply Hmnd; [auto |]. by rewrite (DocsProofs.ids_perm _ _ Hperm).
    + intros Hlt x Hx. apply Hall; [done |]. by rewrite Hperm.
  - apply Z.ltb_ge in Hshort. exists picked, []. rewrite app_nil_r.
    split; [done |]. split; [done |]. split; [apply sublist_nil_l |].
    split; [done |]. split; [done |]. lia.
Qed.

(** The cap of four per file never costs a result: with distinct
    candidates and a positive limit the search returns [limit] chunks, or
    all candidates when they are fewer, and only candidates. *)
Theorem search_fills_up_to_limit
    (limit : Z) (out : list RetrievedChunk)
    (Hlimit : 1 <= limit) (Hdistinct : NoDup (ids out)) :
  Z.of_nat (length (diversify limit out)) = Z.min limit (Z.of_nat (length out))
  /\ forall x, x ∈ diversify limit out -> x ∈ out.
Proof.
  destruct (diversify_parts limit out)
    as (picked & more & -> & Hp & Hm & Hlen & Hnd & Hall).
  pose proof (JsProofs.sortBy_perm byScore out) as Hperm.
  assert (Hsub : forall x, x ∈ picked ++ more -> x ∈ out).
  { intros x [Hx | Hx]%elem_of_app; rewrite <- Hperm;
      eapply elem_of_sublist; eauto. }
  split; [| exact Hsub].
  specialize (Hlen ltac:(lia)). specialize (Hnd Hdistinct).
  assert (Hle : (length (ids (picked ++ more)) <= length (ids out))%nat).
  { apply submseteq_length, NoDup_submseteq; [done |].
    intros k (x & Hx & <-)%DocsProofs.ids_elem_of_inv.
    by apply DocsProofs.ids_elem_of, Hsub. }
  unfold ids in Hle. rewrite !length_map in Hle.
  destruct (decide (Z.of_nat (length (picked ++ more)) < limit)) as [Hlt |]; [| lia].
  assert (Hge : (length (ids out) <= length (ids (picked ++ more)))%nat).
  { apply submseteq_length, NoDup_submseteq; [done |].
    intros k (x & Hx & <-)%DocsProofs.ids_elem_of_inv. by apply Hall. }
  unfold ids in Hge. rewrite !length_map in Hge. lia.
Qed.

Lemma search_fills_up_to_limit_witness :
  Z.of_nat (length (diversify 5 (map (fun c => ranked c 1) [r1; r2; r3; r4; r5; h1])))
  = Z.min 5 6.
Proof.
  apply (search_fills_up_to_limit 5
           (map (fun c => ranked c 1) [r1; r2; r3; r4; r5; h1])).
  - lia.
  - apply (bool_decide_unpack _). vm_compute. reflexivity.
Defined.

(** *** Filters and tables *)

Section Loaded.
Context {AsPlainObject : Type}.
Context (JSON_parse : string -> option (@IndexBundle AsPlainObject)).
Context (MiniSearch_loadJS : AsPlainObject -> option MiniSearch).

Lemma Kind_eqb_eq a b : Kind_eqb a b = true <-> a = b.
Proof. destruct a, b; simpl; split; done. Qed.

(** What the candidate loop lets through. *)
Lemma passesFilters_spec kindAllow pdfAllow year (chunk : Chunk) :
  passesFilters kindAllow pdfAllow year chunk = true ->
  (forall ks, kindAllow = Some ks -> kind chunk ∈ ks)
  /\ (kind chunk = pdf -> forall allow, pdfAllow = Some allow ->
      Js.toLowerCase (fileName chunk) ∈ allow)
  /\ (kind chunk = pdf -> truthy year = true -> Docs.year chunk = year).
Proof.
  unfold passesFilters. intros H.
  apply andb_prop in H as [H Hno]. apply andb_prop in H as [H Hyear].
  apply andb_prop in H as [Hkind Hallow].
  split; [| split].
  - intros ks ->. apply existsb_exists in Hkind as (k & Hk & ->%Kind_eqb_eq).
    by apply list_elem_of_In.
  - intros Hpdf allow ->. rewrite Hpdf in Hallow. simpl in Hallow.
    apply negb_true_iff, negb_false_iff in Hallow.
    by apply bool_decide_eq_true in Hallow.
  - intros Hpdf Hy. rewrite Hpdf, Hy in Hyear, Hno. simpl in Hyear, Hno.
    apply negb_true_iff, negb_false_iff in Hno. rewrite Hno in Hyear.
    simpl in Hyear. apply negb_true_iff, negb_false_iff in Hyear.
    by apply bool_decide_eq_true in Hyear.
Qed.

Lemma candidates_spec (loaded : @LoadedIndex AsPlainObject) params
    (x : RetrievedChunk) :
  x ∈ candidates loaded params ->
  (exists k, chunksById loaded !! k = Some (rc_chunk x))
  /\ (forall ks, kinds params = Some ks -> kind x ∈ ks)
  /\ (kind x = pdf -> forall v vs,
      pdfFileNameAllow params = Some (v :: vs) ->
      Js.toLowerCase (fileName x) ∈ map Js.toLowerCase (v :: vs))
  /\ (kind x = pdf -> forall y,
      p_year params = Some y -> Js.trim y <> ""%string ->
      year x = Some (Js.trim y)).
Proof.
  unfold candidates. intros ([k sc] & _ & Hx)%list_elem_of_omap.
  simpl in Hx.
  destruct (chunksById loaded !! k) as [chunk |] eqn:Hk; [| done].
  destruct (passesFilters _ _ _ chunk) eqn:Hpass; [| done].
  injection Hx as <-. simpl.
  apply passesFilters_spec in Hpass as (Hkind & Hallow & Hyear).
  split; [by exists k |]. split; [exact Hkind |]. split.
  - intros Hpdf v vs Hp. rewrite Hp in Hallow.
    specialize (Hallow Hpdf _ eq_refl).
    change (Js.toLowerCase (fileName chunk)
            ∈ (list_to_set (map Js.toLowerCase (v :: vs)) : gset string))
      in Hallow.
    by apply elem_of_list_to_set in Hallow.
  - intros Hpdf y Hy Hne. rewrite Hy in Hyear. simpl in Hyear.
    apply Hyear; [done |]. apply negb_true_iff.
    by apply String.eqb_neq.
Qed.

(** Every chunk that a search returns is one of the index and passes
    the filters of the call: its kind is among [kinds]; if it comes
    from a PDF, the name of its file is among [pdfFileNameAllow]
    without regard to case, and its year is the year asked for. *)
Theorem search_respects_filters
    (params : SearchParams) (w w' : World) (r : list RetrievedChunk)
    (Hsearch : searchDocs JSON_parse MiniSearch_loadJS params w = (Ok r, w')) :
  exists loaded,
    loadIndex JSON_parse MiniSearch_loadJS w = (Ok loaded, w')
    /\ forall x : RetrievedChunk, x ∈ r ->
         (exists k, chunksById loaded !! k = Some (rc_chunk x))
         /\ (forall ks, kinds params = Some ks -> kind x ∈ ks)
         /\ (kind x = pdf -> forall v vs,
             pdfFileNameAllow params = Some (v :: vs) ->
             Js.toLowerCase (fileName x) ∈ map Js.toLowerCase (v :: vs))
         /\ (kind x = pdf -> forall y,
             p_year params = Some y -> Js.trim y <> ""%string ->
             year x = Some (Js.trim y)).
Proof.
  apply DocsProofs.searchDocs_unfold in Hsearch as (loaded & Hload & ->).
  exists loaded. split; [done |]. intros x Hx.
  destruct (diversify_parts (default 12 (limit params))
              (candidates loaded params))
    as (picked & more & Hd & Hp & Hm & _).
  rewrite Hd in Hx.
  assert (Hc : x ∈ candidates loaded params).
  { rewrite <- (JsProofs.sortBy_perm byScore).
    apply elem_of_app in Hx as [Hx | Hx]; eapply elem_of_sublist; eauto. }
  by apply candidates_spec in Hc.
Qed.

Lemma chunksById_last (cs : list Chunk) : forall (m : gmap string Chunk) k,
  fold_left (fun m c => <[chunkId c := c]> m) cs m !! k
  = match last (List.filter (fun c => String.eqb (chunkId c) k) cs) with
    | Some c => Some c
    | None => m !! k
    end.
Proof.
  induction cs as [| c0 cs IH]; intros m k; simpl; [done |].
  rewrite IH. destruct (String.eqb_spec (chunkId c0) k) as [<- | Hne].
  - rewrite last_cons, lookup_insert_eq. by destruct (last _).
  - by rewrite lookup_insert_ne.
Qed.

Lemma driveByFileId_last (fs : list FileMeta) : forall (m : gmap string Drive) k,
  fold_left
    (fun m f =>
       match f_drive f with
       | Some d => <[f_id f := d]> m
       | None => m
       end) fs m !! k
  = match last (omap f_drive
                  (List.filter (fun f => String.eqb (f_id f) k) fs)) with
    | Some d => Some d
    | None => m !! k
    end.
Proof.
  induction fs as [| f0 fs IH]; intros m k; simpl; [done |].
  rewrite IH. destruct (String.eqb_spec (f_id f0) k) as [<- | Hne].
  - simpl. destruct (f_drive f0) as [d |]; [| done].
    rewrite last_cons, lookup_insert_eq. by destruct (last _).
  - destruct (f_drive f0) as [d |]; [| done]. by rewrite lookup_insert_ne.
Qed.

(** A load that fails changes nothing.  A load that succeeds leaves its
    result in the cache and nothing else changed; the result belongs to
    the configured path and to the modification time of the file there,
    and its tables are read off its bundle, given that this holds of
    what the cache held before. *)
Theorem load_outcome
    (w w' : World) (r : Result LoadError LoadedIndex)
    (Hcache : forall g, __fredquiz_index w = Some g -> CorpusProps.mirrorsBundle g)
    (Hload : loadIndex JSON_parse MiniSearch_loadJS w = (r, w')) :
  match r with
  | Err _ => w' = w
  | Ok loaded =>
      __fredquiz_index w' = Some loaded
      /\ fs w' = fs w /\ cwd w' = cwd w
      /\ DOCS_INDEX_PATH w' = DOCS_INDEX_PATH w
      /\ indexPath loaded = dataPath w
      /\ (exists m, statSync (fs w (dataPath w)) = Ok m
                    /\ (m == mtimeMs loaded)%Q)
      /\ CorpusProps.mirrorsBundle loaded
  end.
Proof.
  revert Hload. unfold loadIndex.
  destruct (statSync _) as [m | [| c]] eqn:Hstat; try (by intros [= <- <-]).
  destruct (cacheHit _ _ _) as [cached |] eqn:Hhit.
  { intros [= <- <-]. unfold cacheHit in Hhit.
    destruct (__fredquiz_index w) as [g |] eqn:Hg; [| done].
    destruct (String.eqb_spec (indexPath g) (dataPath w)) as [Hpath |];
      [| done].
    destruct (Qeq_bool (mtimeMs g) m) eqn:Hm; [| done].
    simpl in Hhit. injection Hhit as <-.
    apply Qeq_bool_iff in Hm.
    repeat (split; [done |]). split; [| by apply Hcache].
    exists m. split; [done | by symmetry]. }
  destruct (readFile _) as [raw | [| c]]; try (by intros [= <- <-]).
  destruct (JSON_parse raw) as [b |]; [| by intros [= <- <-]].
  destruct (MiniSearch_loadJS _) as [mn |]; [| by intros [= <- <-]].
  intros [= <- <-]. simpl.
  repeat (split; [done |]). split; [| split].
  - exists m. split; [done | reflexivity].
  - intros k. simpl. rewrite chunksById_last, lookup_empty. by destruct (last _).
  - intros k. simpl. rewrite driveByFileId_last, lookup_empty. by destruct (last _).
Qed.

End Loaded.

Lemma search_respects_filters_witness :
  Forall (fun x : RetrievedChunk => year x = Some "2025"%string)
    FilterSamples.rulesFound.
Proof.
  destruct (search_respects_filters parse loadJS FilterSamples.rulesOf2025
              sampleWorld
              (snd (searchDocs parse loadJS FilterSamples.rulesOf2025 sampleWorld))
              FilterSamples.rulesFound)
    as (loaded & _ & Hall).
  - vm_compute; reflexivity.
  - apply Forall_forall. intros x Hx.
    destruct (Hall x Hx) as (_ & Hkind & _ & Hyear).
    apply (Hyear) with (y := " 2025 "%string).
    + specialize (Hkind [pdf] eq_refl). by apply list_elem_of_singleton in Hkind.
    + reflexivity.
    + vm_compute. discriminate.
Defined.

Lemma load_outcome_witness :
  __fredquiz_index (snd (loadIndex parse loadJS sampleWorld)) = Some sampleLoaded.
Proof.
  apply (load_outcome parse loadJS sampleWorld
           (snd (loadIndex parse loadJS sampleWorld)) (Ok sampleLoaded)).
  - intros g H. discriminate.
  - vm_compute; reflexivity.
Defined.

(** *** Scores *)

Lemma oget_oset {V} (k k' : string) (v : V) (m : Js.Map V) :
  Js.oget k (Js.oset k' v m) = if String.eqb k k' then Some v else Js.oget k m.
Proof.
  induction m as [| [k0 v0] m IH]; simpl; [done |].
  destruct (String.eqb_spec k' k0) as [-> | Hne]; simpl.
  - by destruct (String.eqb k k0).
  - rewrite IH. destruct (String.eqb_spec k k0) as [-> | Hk]; [| done].
    destruct (String.eqb_spec k0 k') as [<- | _]; done.
Qed.

Lemma oget_entry {V} (k : string) (v : V) (m : Js.Map V) :
  NoDup (Js.okeys m) -> (k, v) ∈ m -> Js.oget k m = Some v.
Proof.
  induction m as [| [k0 v0] m IH]; simpl; intros Hnd Hin;
    [by apply elem_of_nil in Hin |].
  apply NoDup_cons in Hnd as [Hk0 Hnd].
  apply elem_of_cons in Hin as [[= -> ->] | Hin].
  - by rewrite String.eqb_refl.
  - destruct (String.eqb_spec k k0) as [-> | _]; [| by apply IH].
    exfalso. apply Hk0. unfold Js.okeys.
    apply list_elem_of_In, in_map_iff. exists (k0, v). split; [done |].
    by apply list_elem_of_In.
Qed.

Lemma addResults_sum k results weight : forall m : Js.Map Q,
  (default 0 (Js.oget k (addResults results weight m))
   == default 0 (Js.oget k m) + hitSum k results * weight)%Q.
Proof.
  induction results as [| r rs IH]; intros m; simpl.
  - ring.
  - change (fold_left _ rs ?m0) with (addResults rs weight m0).
    etransitivity; [apply IH |]. rewrite oget_oset.
    destruct (String.eqb_spec k (sr_id r)) as [-> | Hne].
    + rewrite String.eqb_refl. simpl. ring.
    + destruct (String.eqb_spec (sr_id r) k) as [Heq | _]; [by subst |]. ring.
Qed.

Lemma addKeywordResults_sum (mini : MiniSearch) k terms : forall m : Js.Map Q,
  (default 0 (Js.oget k (addKeywordResults mini terms m))
   == default 0 (Js.oget k m) + keywordSum mini k terms * (11 # 20))%Q.
Proof.
  induction terms as [| t ts IH]; intros m; simpl.
  - ring.
  - change (fold_left _ ts ?m0) with (addKeywordResults mini ts m0).
    etransitivity; [apply IH |].
    destruct (Js.len (Js.trim t) <? 3); simpl; [ring |].
    destruct (allDigits (Js.trim t)); simpl; [ring |].
    etransitivity; [apply Qplus_comp; [apply addResults_sum | reflexivity] |].
    ring.
Qed.

(** The score of a candidate is the sum of the scores of its hits among
    the first 250 for the whole query, plus 0.55 times the sum of the
    scores of its hits among the first 80 for each search term; the
    excerpt is cut around the search terms. *)
Theorem score_blends_query_and_keywords {P : Type}
    (loaded : @LoadedIndex P) (params : SearchParams) (x : RetrievedChunk) :
  x ∈ candidates loaded params ->
  exists k,
    chunksById loaded !! k = Some (rc_chunk x)
    /\ (score x
        == hitSum k (take 250 (mini loaded (Js.trim (query params))))
           + (11 # 20) * keywordSum (mini loaded) k (termsOf params))%Q
    /\ excerpt x = makeExcerpt (text x) (termsOf params) 900.
Proof.
  unfold candidates. fold (termsOf params).
  set (scores := addKeywordResults _ _ _).
  intros ([k sc] & Hr & Hx)%list_elem_of_omap. simpl in Hx.
  destruct (chunksById loaded !! k) as [chunk |] eqn:Hk; [| done].
  destruct (passesFilters _ _ _ chunk); [| done].
  injection Hx as <-. simpl. exists k. split; [done |]. split; [| done].
  assert (Hin : (k, sc) ∈ scores).
  { rewrite <- (JsProofs.sortBy_perm (fun a b => Qle_bool (snd b) (snd a))).
    eapply elem_of_sublist; [exact Hr | apply sublist_take]. }
  assert (Hnd : NoDup (Js.okeys scores)).
  { apply DocsProofs.addKeywordResults_NoDup, DocsProofs.addResults_NoDup.
    constructor. }
  pose proof (oget_entry k sc scores Hnd Hin) as Hget.
  pose proof (addKeywordResults_sum (mini loaded) k (termsOf params)
                (addResults (take 250 (mini loaded (Js.trim (query params)))) 1 []))
    as Hsum.
  fold scores in Hsum. rewrite Hget in Hsum. simpl in Hsum.
  etransitivity; [exact Hsum |].
  etransitivity; [apply Qplus_comp; [apply addResults_sum | reflexivity] |].
  simpl. ring.
Qed.

Lemma score_blends_query_and_keywords_witness :
  exists k,
    chunksById sampleLoaded !! k = Some (rc_chunk FilterSamples.brakesCandidate)
    /\ (score FilterSamples.brakesCandidate
        == hitSum k (take 250 (mini sampleLoaded (Js.trim "brakes")))
           + (11 # 20)
             * keywordSum (mini sampleLoaded) k (termsOf (searchFor "brakes" None)))%Q
    /\ excerpt FilterSamples.brakesCandidate
       = makeExcerpt (text FilterSamples.brakesCandidate)
           (termsOf (searchFor "brakes" None)) 900.
Proof.
  apply (score_blends_query_and_keywords sampleLoaded (searchFor "brakes" None)
           FilterSamples.brakesCandidate).
  apply (list_elem_of_lookup_2 _ 0). vm_compute. reflexivity.
Defined.

End SearchFacts.

(** ** Further properties of the header expansion *)

Module ExpandFacts.
Import Docs Props CorpusProps CorpusSamples.

Lemma byKey_sorted (l : list Chunk) :
  StronglySorted keyLe
    (Js.sortBy (fun a b => chunkOrderKey a <=? chunkOrderKey b) l).
Proof.
  apply JsProofs.sortBy_sorted.
  - intros x y H. by apply Z.leb_le in H.
  - intros x y H. apply Z.leb_gt in H. unfold keyLe. lia.
  - intros x y z. unfold keyLe. lia.
Qed.

(** The groups of [byFileId] hold chunks of the bundle, each under the
    identifier of its file. *)
Lemma groupByFile_spec (cs : list Chunk) : forall (m : gmap string (list Chunk)),
  (forall k l c, m !! k = Some l -> c ∈ l -> fileId c = k) ->
  forall k l c,
    fold_left
      (fun m c => <[fileId c := default [] (m !! fileId c) ++ [c]]> m) cs m
      !! k = Some l ->
    c ∈ l ->
    fileId c = k /\ (c ∈ cs \/ exists l0, m !! k = Some l0 /\ c ∈ l0).
Proof.
  induction cs as [| c0 cs IH]; intros m Hm k l c; simpl.
  - intros Hl Hc. split; [by eapply Hm |]. right. eauto.
  - intros Hl Hc.
    destruct (IH (<[fileId c0 := default [] (m !! fileId c0) ++ [c0]]> m))
      with (k := k) (l := l) (c := c) as [Hf Hfrom]; try done.
    { intros k' l' c'. rewrite lookup_insert. case_decide as Hk.
      - subst k'. intros [= <-] [Hin | ->%list_elem_of_singleton]%elem_of_app;
          [| done].
        destruct (m !! fileId c0) as [l0 |] eqn:Hl0; simpl in Hin.
        + by eapply Hm.
        + by apply elem_of_nil in Hin.
      - apply Hm. }
    split; [done |]. destruct Hfrom as [Hin | (l0 & Hl0 & Hin)].
    + left. by right.
    + revert Hl0. rewrite lookup_insert. case_decide as Hk.
      * subst k. intros [= <-].
        apply elem_of_app in Hin as [Hin | ->%list_elem_of_singleton];
          [| left; by left].
        destruct (m !! fileId c0) as [l1 |] eqn:Hl1; simpl in Hin.
        -- right. exists l1. by rewrite <- Hk.
        -- by apply elem_of_nil in Hin.
      * intros Hl0. right. eauto.
Qed.

Section Bundle.
Context {AsPlainObject : Type}.

Lemma byFileIdOf_spec (b : @IndexBundle AsPlainObject) k l :
  byFileIdOf b !! k = Some l ->
  StronglySorted keyLe l
  /\ forall c, c ∈ l -> fileId c = k /\ c ∈ chunks b.
Proof.
  unfold byFileIdOf. rewrite lookup_fmap.
  destruct (groupByFile (chunks b) !! k) as [g |] eqn:Hg; [| done].
  simpl. intros [= <-]. split; [apply byKey_sorted |].
  intros c Hc. rewrite (JsProofs.sortBy_perm _ g) in Hc.
  destruct (groupByFile_spec (chunks b) ∅) with (k := k) (l := g) (c := c)
    as [Hf [Hin | (l0 & Hl0 & _)]]; done.
Qed.

Lemma findIndex_spec id (l : list Chunk) idx :
  findIndex id l = Some idx ->
  exists h, l = take idx l ++ h :: drop (S idx) l /\ chunkId h = id.
Proof.
  revert idx. induction l as [| c r IH]; intros idx; simpl; [done |].
  destruct (String.eqb_spec (chunkId c) id) as [Hc | Hc].
  - intros [= <-]. exists c. by split.
  - destruct (findIndex id r) as [i |]; [| done]. simpl.
    intros [= <-]. destruct (IH i eq_refl) as (h & Hl & Hh).
    exists h. split; [| done]. simpl. by rewrite <- Hl.
Qed.

Context (loaded : @LoadedIndex AsPlainObject).
Context (maxPerHeaderV maxExtraTotalV maxExtraCharsV : Z).
Context (retrieved : list RetrievedChunk).

Lemma walk_accounted (base : RetrievedChunk) (h : Chunk) following :
  base ∈ headers retrieved ->
  h ∈ chunks (bundle loaded) ->
  chunkId h = chunkId base -> fileId h = fileId base ->
  Forall (fun c => c ∈ chunks (bundle loaded) /\ fileId c = fileId base
                   /\ keyLe h c) following ->
  forall added extraChars e,
    accounted loaded maxExtraTotalV retrieved e ->
    let e' := walk loaded maxPerHeaderV maxExtraTotalV maxExtraCharsV
                base (extractTerms (text base)) following added extraChars e in
    accounted loaded maxExtraTotalV retrieved e'
    /\ extraCount e <= extraCount e'
    /\ extraCount e' - extraCount e <= Z.max 0 (maxPerHeaderV - added).
Proof.
  intros Hbase Hh Hid Hfile.
  induction following as [| c rest IH]; intros Hall added extraChars e He;
    simpl; [split; [done | lia] |].
  apply Forall_cons in Hall as [(Hc & Hcf & Hck) Hall].
  specialize (IH Hall).
  case_bool_decide as Hin; [by apply IH |].
  destruct (String.eqb_spec (Js.trim (text c)) "") as [Hempty | Hvisible];
    [by apply IH |].
  destruct (_ || _) eqn:Hfull; [split; [done | lia] |].
  apply orb_false_iff in Hfull as [Hper Htot].
  apply Z.leb_gt in Hper, Htot.
  match goal with
  | |- context [attach ?x e] => set (x0 := x)
  end.
  assert (He' : accounted loaded maxExtraTotalV retrieved (attach x0 e)).
  { destruct He as (Hex & Hcount & Hmax). unfold accounted, attach. simpl.
    split; [| split].
    - apply Forall_app. split; [done |]. constructor; [| constructor].
      exists base, h. subst x0. simpl. repeat (split; [done |]). done.
    - rewrite length_app. simpl. lia.
    - lia. }
  assert (Hstep : extraCount (attach x0 e) = extraCount e + 1) by done.
  destruct (maxExtraCharsV <=? _); [split; [done | lia] |].
  destruct (_ && _); [split; [done | lia] |].
  destruct (IH (added + 1) (extraChars + Js.len (Js.trim (text c)))
              (attach x0 e) He') as (Ha & Hmono & Hdelta).
  split; [done |]. lia.
Qed.

Lemma expandLoop_accounted l : forall e,
  (forall x, x ∈ l -> x ∈ retrieved) ->
  accounted loaded maxExtraTotalV retrieved e ->
  let e' := expandLoop loaded maxPerHeaderV maxExtraTotalV maxExtraCharsV l e in
  accounted loaded maxExtraTotalV retrieved e'
  /\ extraCount e <= extraCount e'
  /\ extraCount e' - extraCount e
     <= Z.max 0 maxPerHeaderV * Z.of_nat (length (headers l)).
Proof.
  induction l as [| base rest IH]; intros e Hl He; simpl;
    [split; [done | lia] |].
  assert (Hrest : forall x, x ∈ rest -> x ∈ retrieved)
    by (intros x Hx; apply Hl; by right).
  specialize (IH).
  unfold headers. simpl List.filter. fold (headers rest).
  destruct (isLikelyHeader (text base)) eqn:Hhead; simpl; [| by apply IH].
  destruct (260 <? _) eqn:Hlong; simpl; [by apply IH |].
  assert (Hnn : 0 <= Z.max 0 maxPerHeaderV * Z.of_nat (length (headers rest)))
    by nia.
  destruct (maxExtraTotalV <=? _); [split; [done | nia] |].
  assert (Hpin : accounted loaded maxExtraTotalV retrieved (pin (chunkId base) e)) by done.
  assert (Hb : base ∈ headers retrieved).
  { apply DocsProofs.elem_of_List_filter. split; [apply Hl; by left |].
    by rewrite Hhead, Hlong. }
  destruct (byFileIdOf _ !! _) as [list |] eqn:Hlist.
  2:{ destruct (IH _ Hrest Hpin) as (Ha & Hmono & Hd). simpl in *.
      split; [done |]. nia. }
  destruct (findIndex _ _) as [idx |] eqn:Hidx.
  2:{ destruct (IH _ Hrest Hpin) as (Ha & Hmono & Hd). simpl in *.
      split; [done |]. nia. }
  apply byFileIdOf_spec in Hlist as [Hsorted Hmem].
  apply findIndex_spec in Hidx as (h & Hsplit & Hh).
  assert (Hhin : h ∈ list).
  { rewrite Hsplit. apply elem_of_app. right. by left. }
  destruct (Hmem h Hhin) as [Hhf Hhb].
  assert (Hafter : Forall (fun c => c ∈ chunks (bundle loaded)
                                    /\ fileId c = fileId base /\ keyLe h c)
                     (drop (S idx) list)).
  { rewrite Hsplit in Hsorted.
    apply StronglySorted_app_1_r in Hsorted.
    apply StronglySorted_inv in Hsorted as [_ Hle].
    apply Forall_forall. intros c Hc.
    assert (Hcl : c ∈ list).
    { rewrite Hsplit. apply elem_of_app. right. by right. }
    destruct (Hmem c Hcl). rewrite Forall_forall in Hle. auto. }
  destruct (walk_accounted base h _ Hb Hhb Hh Hhf Hafter 0 0 _ Hpin)
    as (Hw & Hwmono & Hwd).
  destruct (IH _ Hrest Hw) as (Ha & Hmono & Hd). simpl in *.
  split; [done |]. nia.
Qed.

(** What one header gets attached. *)
Lemma walk_group (base : RetrievedChunk) (h : Chunk) following :
  h ∈ chunks (bundle loaded) ->
  chunkId h = chunkId base -> fileId h = fileId base ->
  Forall (fun c => c ∈ chunks (bundle loaded) /\ fileId c = fileId base
                   /\ keyLe h c) following ->
  forall added extraChars e,
    exists new,
      extras (walk loaded maxPerHeaderV maxExtraTotalV maxExtraCharsV
                base (extractTerms (text base)) following added extraChars e)
      = extras e ++ new
      /\ Forall (attachedUnder loaded base) new
      /\ Z.of_nat (length new) <= Z.max 0 (maxPerHeaderV - added).
Proof.
  intros Hh Hid Hfile.
  assert (Hnone : forall e : Expansion,
             exists new : list RetrievedChunk,
               extras e = extras e ++ new
               /\ Forall (attachedUnder loaded base) new
               /\ forall added, Z.of_nat (length new)
                                <= Z.max 0 (maxPerHeaderV - added)).
  { intros e. exists []. rewrite app_nil_r. split; [done |].
    split; [constructor |]. intros added. simpl. lia. }
  induction following as [| c rest IH]; intros Hall added extraChars e;
    simpl.
  { destruct (Hnone e) as (new & ? & ? & ?). exists new. auto. }
  apply Forall_cons in Hall as [(Hc & Hcf & Hck) Hall].
  specialize (IH Hall).
  case_bool_decide as Hin; [by apply IH |].
  destruct (String.eqb_spec (Js.trim (text c)) "") as [Hempty | Hvisible];
    [by apply IH |].
  destruct (_ || _) eqn:Hfull.
  { destruct (Hnone e) as (new & ? & ? & ?). exists new. auto. }
  apply orb_false_iff in Hfull as [Hper Htot].
  apply Z.leb_gt in Hper, Htot.
  match goal with
  | |- context [attach ?x e] => set (x0 := x)
  end.
  assert (Hx0 : attachedUnder loaded base x0).
  { exists h. subst x0. simpl. repeat (split; [done |]). done. }
  assert (Hone : exists new,
             extras (attach x0 e) = extras e ++ new
             /\ Forall (attachedUnder loaded base) new
             /\ Z.of_nat (length new) <= Z.max 0 (maxPerHeaderV - added)).
  { exists [x0]. split; [done |]. split; [by repeat constructor |].
    simpl. lia. }
  destruct (maxExtraCharsV <=? _); [done |].
  destruct (_ && _); [done |].
  destruct (IH (added + 1) (extraChars + Js.len (Js.trim (text c)))
              (attach x0 e)) as (new & Hnew & Hunder & Hlen).
  exists (x0 :: new). split.
  - rewrite Hnew. simpl. by rewrite <- app_assoc.
  - split; [by constructor |]. simpl length. lia.
Qed.

(** What the headers get attached, header by header. *)
Lemma expandLoop_groups l : forall e,
  exists groups : list (RetrievedChunk * list RetrievedChunk),
    extras (expandLoop loaded maxPerHeaderV maxExtraTotalV maxExtraCharsV l e)
    = extras e ++ concat (map snd groups)
    /\ map fst groups `sublist_of` headers l
    /\ Forall (groupOk loaded maxPerHeaderV) groups.
Proof.
  induction l as [| base l IH]; intros e.
  { exists []. simpl. rewrite app_nil_r. split; [done |].
    split; constructor. }
  cbn [expandLoop]. unfold headers. simpl List.filter. fold (headers l).
  destruct (isLikelyHeader (text base)) eqn:Hhead; simpl; [| by apply IH].
  destruct (260 <? _) eqn:Hlong; simpl; [by apply IH |].
  destruct (maxExtraTotalV <=? _).
  { exists []. simpl. rewrite app_nil_r. split; [done |].
    split; [apply sublist_nil_l | constructor]. }
  assert (Hskip : forall e1,
             extras e1 = extras e ->
             exists groups : list (RetrievedChunk * list RetrievedChunk),
               extras (expandLoop loaded maxPerHeaderV maxExtraTotalV
                         maxExtraCharsV l e1)
               = extras e ++ concat (map snd groups)
               /\ map fst groups `sublist_of` base :: headers l
               /\ Forall (groupOk loaded maxPerHeaderV) groups).
  { intros e1 He1. destruct (IH e1) as (groups & Hex & Hsub & Hok).
    exists groups. rewrite Hex, He1. split; [done |].
    split; [by apply sublist_cons | done]. }
  destruct (byFileIdOf _ !! _) as [list |] eqn:Hlist; [| by apply Hskip].
  destruct (findIndex _ _) as [idx |] eqn:Hidx; [| by apply Hskip].
  apply byFileIdOf_spec in Hlist as [Hsorted Hmem].
  apply findIndex_spec in Hidx as (h & Hsplit & Hh).
  assert (Hhin : h ∈ list).
  { rewrite Hsplit. apply elem_of_app. right. by left. }
  destruct (Hmem h Hhin) as [Hhf Hhb].
  assert (Hafter : Forall (fun c => c ∈ chunks (bundle loaded)
                                    /\ fileId c = fileId base /\ keyLe h c)
                     (drop (S idx) list)).
  { rewrite Hsplit in Hsorted.
    apply StronglySorted_app_1_r in Hsorted.
    apply StronglySorted_inv in Hsorted as [_ Hle].
    apply Forall_forall. intros c Hc.
    assert (Hcl : c ∈ list).
    { rewrite Hsplit. apply elem_of_app. right. by right. }
    destruct (Hmem c Hcl). rewrite Forall_forall in Hle. auto. }
  destruct (walk_group base h _ Hhb Hh Hhf Hafter 0 0 (pin (chunkId base) e))
    as (new & Hnew & Hunder & Hlen).
  match goal with
  | |- context [expandLoop _ _ _ _ l ?e1] =>
      destruct (IH e1) as (groups & Hex & Hsub & Hok)
  end.
  exists ((base, new) :: groups). split; [| split].
  - rewrite Hex, Hnew. simpl. by rewrite <- app_assoc.
  - simpl. by apply sublist_skip.
  - constructor; [| done]. split; [| done]. simpl.
    replace (maxPerHeaderV - 0) with maxPerHeaderV in Hlen by lia. done.
Qed.

End Bundle.

Lemma expansionOf_accounted {P : Type} (loaded : @LoadedIndex P) options retrieved :
  let e := expansionOf loaded options retrieved in
  accounted loaded (default 8 (maxExtraTotal options)) retrieved e
  /\ extraCount e
     <= Z.max 0 (default 3 (maxPerHeader options))
        * Z.of_nat (length (headers retrieved)).
Proof.
  unfold expansionOf.
  match goal with
  | |- context [expandLoop _ _ _ _ _ ?e0] =>
      destruct (expandLoop_accounted loaded
                  (default 3 (maxPerHeader options))
                  (default 8 (maxExtraTotal options))
                  (default 5000 (maxExtraChars options))
                  retrieved retrieved e0) as (Ha & _ & Hd)
  end; [done | | ].
  - split; [constructor |]. simpl. split; [done | lia].
  - simpl in *. split; [done | lia].
Qed.

(** Every chunk that the expansion adds follows a header of the input in
    the file of that header, has visible text, and takes its score,
    seven tenths of the header's but no less than one tenth, and its
    excerpt from the header.  No more than [maxExtraTotal] chunks are
    added.  The chunks added fall into groups, one group per header and
    in the order of the headers of the input, each made of chunks
    attached under its header and of no more than [maxPerHeader]
    chunks. *)
Theorem extras_follow_headers {P : Type}
    (loaded : @LoadedIndex P) (options : ExpandOptions)
    (retrieved : list RetrievedChunk) :
  let added := extras (expansionOf loaded options retrieved) in
  Forall (followsHeader loaded retrieved) added
  /\ Forall (fun x : RetrievedChunk => (1 # 10 <= score x)%Q) added
  /\ Z.of_nat (length added) <= Z.max 0 (default 8 (maxExtraTotal options))
  /\ Z.of_nat (length added)
     <= Z.max 0 (default 3 (maxPerHeader options))
        * Z.of_nat (length (headers retrieved))
  /\ exists groups : list (RetrievedChunk * list RetrievedChunk),
       added = concat (map snd groups)
       /\ map fst groups `sublist_of` headers retrieved
       /\ Forall (groupOk loaded (default 3 (maxPerHeader options))) groups.
Proof.
  destruct (expansionOf_accounted loaded options retrieved)
    as ((Hall & Hcount & Hmax) & Hper).
  simpl. split; [done |]. split; [| split; [lia |]; split; [lia |]].
  - eapply Forall_impl; [exact Hall |].
    intros x (base & h & _ & _ & _ & _ & _ & _ & _ & _ & -> & _).
    unfold Js.maxQ. destruct (Qle_bool _ _) eqn:Hle.
    + by apply Qle_bool_iff in Hle.
    + apply Qle_refl.
  - unfold expansionOf.
    match goal with
    | |- context [expandLoop _ _ _ _ _ ?e0] =>
        destruct (expandLoop_groups loaded
                    (default 3 (maxPerHeader options))
                    (default 8 (maxExtraTotal options))
                    (default 5000 (maxExtraChars options))
                    retrieved e0) as (groups & Hex & Hsub & Hok)
    end.
    exists groups. by rewrite Hex.
Qed.

(** Without a header of at most 260 characters in the input, the
    expansion returns its input as it is. *)
Theorem no_header_no_expansion {P : Type}
    (loaded : @LoadedIndex P) (options : ExpandOptions)
    (retrieved : list RetrievedChunk)
    (Hnone : headers retrieved = []) :
  expandWith loaded options retrieved = retrieved.
Proof.
  destruct (expansionOf_accounted loaded options retrieved)
    as ((_ & Hcount & _) & Hper).
  rewrite Hnone in Hper. simpl in Hper. rewrite Z.mul_0_r in Hper.
  unfold expandWith.
  destruct (extras (expansionOf loaded options retrieved)); [done |].
  simpl in Hcount. lia.
Qed.

Lemma no_header_no_expansion_witness :
  expandWith sampleLoaded (budget 1) [ranked r2 10; ranked r3 9; ranked h1 8]
  = [ranked r2 10; ranked r3 9; ranked h1 8].
Proof.
  apply (no_header_no_expansion sampleLoaded (budget 1)
           [ranked r2 10; ranked r3 9; ranked h1 8]).
  vm_compute. reflexivity.
Defined.

(** *** Eviction *)

Lemma oset_fresh {V} (k : string) (v : V) (m : Js.Map V) :
  k ∉ Js.okeys m -> Js.oset k v m = m ++ [(k, v)].
Proof.
  induction m as [| [k0 v0] m IH]; simpl; intros Hk; [done |].
  apply not_elem_of_cons in Hk as [Hne Hk].
  destruct (String.eqb_spec k k0) as [-> | _]; [done |]. by rewrite IH.
Qed.

Lemma byIdOf_distinct merged : forall m : Js.Map RetrievedChunk,
  NoDup (Js.okeys m ++ ids merged) ->
  fold_left (fun m (x : RetrievedChunk) => Js.oset (chunkId x) x m) merged m
  = m ++ map (fun x : RetrievedChunk => (chunkId x, x)) merged.
Proof.
  induction merged as [| x l IH]; intros m Hnd; simpl; [by rewrite app_nil_r |].
  simpl in Hnd. apply NoDup_app in Hnd as (Hm & Hdisj & Hl).
  apply NoDup_cons in Hl as [Hx Hl].
  rewrite oset_fresh by (intros Hin; apply (Hdisj _ Hin); by left).
  rewrite IH, <- app_assoc; [done |].
  unfold Js.okeys. rewrite map_app. simpl. rewrite <- app_assoc. simpl.
  apply NoDup_app. split; [done |]. split; [| by constructor].
  intros k Hk Hin. by apply (Hdisj k).
Qed.

Lemma same_id_same_entry (l : list RetrievedChunk) (x y : RetrievedChunk) :
  NoDup (ids l) -> x ∈ l -> y ∈ l -> chunkId x = chunkId y -> x = y.
Proof.
  induction l as [| z l IH]; simpl; intros Hnd Hx Hy Heq;
    [by apply elem_of_nil in Hx |].
  apply NoDup_cons in Hnd as [Hz Hnd].
  apply elem_of_cons in Hx as [-> | Hx]; apply elem_of_cons in Hy as [-> | Hy].
  - done.
  - exfalso. apply Hz. rewrite Heq. by apply DocsProofs.ids_elem_of.
  - exfalso. apply Hz. rewrite <- Heq. by apply DocsProofs.ids_elem_of.
  - by apply IH.
Qed.

Lemma byScoreAsc_sorted (l : list RetrievedChunk) :
  StronglySorted byScoreAsc
    (Js.sortBy (fun a b : RetrievedChunk => Qle_bool (score a) (score b)) l).
Proof.
  apply JsProofs.sortBy_sorted.
  - intros x y H. by apply Qle_bool_iff.
  - intros x y H. unfold byScoreAsc.
    apply Qlt_le_weak, Qnot_le_lt.
    intros Hle. apply Qle_bool_iff in Hle. congruence.
  - intros x y z Hxy Hyz. unfold byScoreAsc in *. by eapply Qle_trans.
Qed.

Lemma evict_order (merged : list RetrievedChunk) (pinned : gset string)
    (maxTotalV : Z) :
  NoDup (ids merged) ->
  let dropCandidates :=
    Js.sortBy (fun a b : RetrievedChunk => Qle_bool (score a) (score b))
      (List.filter
         (fun m : RetrievedChunk => negb (bool_decide (chunkId m ∈ pinned)))
         merged) in
  let toDrop := Z.of_nat (length merged) - maxTotalV in
  let r := Js.ovalues (dropLoop dropCandidates toDrop (byIdOf merged)) in
  r `sublist_of` merged
  /\ forall y : RetrievedChunk,
       y ∈ merged -> y ∉ r ->
       (chunkId y ∉ pinned)
       /\ forall x : RetrievedChunk,
            x ∈ r -> chunkId x ∉ pinned -> byScoreAsc y x.
Proof.
  intros Hnd cands toDrop r.
  assert (Hmap : byIdOf merged
                 = map (fun x : RetrievedChunk => (chunkId x, x)) merged).
  { unfold byIdOf. by rewrite byIdOf_distinct. }
  assert (Hkeys : Js.okeys (byIdOf merged) = ids merged).
  { rewrite Hmap. unfold Js.okeys, ids. by rewrite map_map. }
  assert (Hvals : Js.ovalues (byIdOf merged) = merged).
  { rewrite Hmap. unfold Js.ovalues. rewrite map_map. simpl. apply map_id. }
  assert (Hnd0 : NoDup (Js.okeys (byIdOf merged))) by (by rewrite Hkeys).
  set (dropped := take (Z.to_nat toDrop) cands).
  assert (Hr : r = Js.ovalues (deleteAll dropped (byIdOf merged)))
    by (subst r; by rewrite DocsProofs.dropLoop_take).
  destruct (DocsProofs.deleteAll_facts dropped (byIdOf merged) Hnd0)
    as (Hsub & Hgone & Hkept).
  assert (Hrsub : r `sublist_of` merged).
  { assert (Hs : Js.ovalues (deleteAll dropped (byIdOf merged))
                 `sublist_of` Js.ovalues (byIdOf merged))
      by (unfold Js.ovalues; by apply (fmap_sublist snd)).
    by rewrite Hvals, <- Hr in Hs. }
  assert (Hent : Forall ownKey (deleteAll dropped (byIdOf merged))).
  { apply Forall_forall. intros en Hen.
    assert (Hen0 : en ∈ byIdOf merged) by (by eapply elem_of_sublist).
    rewrite Hmap in Hen0.
    by apply list_elem_of_In, in_map_iff in Hen0 as (x & <- & _). }
  assert (Hids : ids r = Js.okeys (deleteAll dropped (byIdOf merged)))
    by (rewrite Hr; by apply DocsProofs.ovalues_ids).
  assert (Hcands : cands ≡ₚ List.filter
            (fun m : RetrievedChunk => negb (bool_decide (chunkId m ∈ pinned))) merged)
    by apply JsProofs.sortBy_perm.
  assert (Hcin : forall c : RetrievedChunk,
             c ∈ cands <-> c ∈ merged /\ chunkId c ∉ pinned).
  { intros c. rewrite Hcands, DocsProofs.elem_of_List_filter.
    by rewrite negb_true_iff, bool_decide_eq_false. }
  split; [done |]. intros y Hy Hyr.
  assert (Hyd : y ∈ dropped).
  { destruct (decide (chunkId y ∈ ids dropped)) as [Hin | Hout].
    - apply DocsProofs.ids_elem_of_inv in Hin as (d & Hd & Heq).
      assert (Hdm : d ∈ merged).
      { apply Hcin. eapply elem_of_sublist; [exact Hd | apply sublist_take]. }
      by rewrite <- (same_id_same_entry merged d y Hnd Hdm Hy Heq).
    - exfalso. apply Hyr.
      assert (Hk : chunkId y ∈ ids r).
      { rewrite Hids. apply Hkept; [| done]. rewrite Hkeys.
        by apply DocsProofs.ids_elem_of. }
      apply DocsProofs.ids_elem_of_inv in Hk as (x & Hx & Heq).
      assert (Hxm : x ∈ merged) by (by eapply elem_of_sublist).
      by rewrite <- (same_id_same_entry merged x y Hnd Hxm Hy Heq). }
  assert (Hyc : y ∈ cands)
    by (eapply elem_of_sublist; [exact Hyd | apply sublist_take]).
  split; [by apply Hcin in Hyc as [_ ?] |].
  intros x Hx Hxp.
  assert (Hxm : x ∈ merged) by (by eapply elem_of_sublist).
  assert (Hxc : x ∈ cands) by (by apply Hcin).
  rewrite <- (take_drop (Z.to_nat toDrop) cands) in Hxc.
  apply elem_of_app in Hxc as [Hxd | Hxk].
  - exfalso. apply (Hgone (chunkId x)); [by apply DocsProofs.ids_elem_of |].
    rewrite <- Hids. by apply DocsProofs.ids_elem_of.
  - pose proof (byScoreAsc_sorted
                  (List.filter
                     (fun m : RetrievedChunk =>
                        negb (bool_decide (chunkId m ∈ pinned))) merged))
      as Hsorted.
    fold cands in Hsorted.
    rewrite <- (take_drop (Z.to_nat toDrop) cands) in Hsorted.
    by eapply StronglySorted_app_1_elem_of.
Qed.

(** The eviction keeps the order of the chunks and drops the lowest
    scores first: for an input without duplicates, the result is the
    input and its extras with some chunks left out; a chunk left out is
    never pinned, and it scores no higher than any chunk that stays
    without being pinned. *)
Theorem eviction_drops_lowest_scores {P : Type}
    (loaded : @LoadedIndex P) (options : ExpandOptions)
    (retrieved : list RetrievedChunk)
    (Hdistinct : NoDup (ids retrieved)) :
  let e := expansionOf loaded options retrieved in
  let merged := retrieved ++ extras e in
  let r := expandWith loaded options retrieved in
  r `sublist_of` merged
  /\ forall y : RetrievedChunk,
       y ∈ merged -> y ∉ r ->
       (chunkId y ∉ pinnedIds e)
       /\ forall x : RetrievedChunk,
            x ∈ r -> chunkId x ∉ pinnedIds e -> byScoreAsc y x.
Proof.
  intros e merged r.
  destruct (DocsProofs.expansionOf_inv loaded options retrieved)
    as (_ & Hnd & Hnew & _).
  fold e in Hnd, Hnew.
  assert (Hm : NoDup (ids merged)).
  { subst merged. unfold ids. rewrite map_app.
    apply NoDup_app. split; [done |]. split; [| done].
    intros k Hk Hk'. by apply (Hnew k). }
  pose proof (evict_order merged (pinnedIds e) (default 28 (maxTotal options)) Hm)
    as Hevict.
  subst r. unfold expandWith. fold e. fold merged.
  destruct (extras e) as [| x0 xs] eqn:Hex.
  - subst merged. rewrite app_nil_r. split; [done |]. by intros y Hy Hn.
  - destruct (_ <=? _); [split; [done |]; by intros y Hy Hn |].
    exact Hevict.
Qed.

Lemma eviction_drops_lowest_scores_witness :
  expandWith sampleLoaded (budget 4) [ranked r1 10; ranked h1 3; ranked r5 2]
  `sublist_of`
  [ranked r1 10; ranked h1 3; ranked r5 2]
    ++ extras (expansionOf sampleLoaded (budget 4)
                 [ranked r1 10; ranked h1 3; ranked r5 2]).
Proof.
  apply (eviction_drops_lowest_scores sampleLoaded (budget 4)
           [ranked r1 10; ranked h1 3; ranked r5 2]).
  apply (bool_decide_unpack _). vm_compute. reflexivity.
Defined.

End ExpandFacts.

(** ** Properties of the index builder *)

Module BuildFacts.
Import Docs BuildIndex CorpusProps.

Lemma chars_append a b : Js.chars (a ++ b) = Js.chars a ++ Js.chars b.
Proof.
  induction a as [| c a IH].
  - by change (String.append "" b) with b.
  - change (String.append (String c a) b) with (String c (String.append a b)).
    simpl. by rewrite <- IH.
Qed.

Lemma chars_slice s a b :
  Js.chars (Js.slice s a b)
  = take (Z.to_nat (b - a)) (drop (Z.to_nat a) (Js.chars s)).
Proof. apply MatchFacts.chars_str. Qed.

(** *** Segments of a page *)

Lemma sliceLoop_spec cleaned target (Htarget : 1 <= target) :
  forall fuel i,
    0 <= i -> Js.len cleaned - i <= Z.of_nat fuel ->
    exists segs,
      sliceLoop fuel cleaned target i = Some segs
      /\ concat (map Js.chars segs) = drop (Z.to_nat i) (Js.chars cleaned)
      /\ Forall (fun s => 1 <= Js.len s <= target) segs
      /\ (forall k s, segs !! k = Some s -> (S k < length segs)%nat ->
          Js.len s = target)
      /\ (Js.len cleaned <= i -> segs = [])
      /\ (i < Js.len cleaned ->
          (Z.of_nat (length segs) - 1) * target < Js.len cleaned - i
          /\ Js.len cleaned - i <= Z.of_nat (length segs) * target).
Proof.
  assert (Hlen : Js.len cleaned = Z.of_nat (length (Js.chars cleaned)))
    by (unfold Js.len; by rewrite MatchFacts.chars_length).
  induction fuel as [| fuel IH]; intros i Hi Hfuel;
    cbn [sliceLoop]; destruct (i <? Js.len cleaned) eqn:Hlt;
    try (apply Z.ltb_lt in Hlt); try (apply Z.ltb_ge in Hlt); try lia.
  - exists []. split; [done |]. split; [| split; [done |]].
    + simpl. rewrite drop_ge; [done | lia].
    + split; [done |]. split; [done | lia].
  - destruct (IH (i + target)) as (rest & -> & Hcat & Hall & Hfull & Hnil & Hcount);
      [lia | lia |].
    set (seg := Js.slice cleaned i (i + target)).
    assert (Hseg : Js.chars seg
                   = take (Z.to_nat target) (drop (Z.to_nat i) (Js.chars cleaned))).
    { unfold seg. rewrite chars_slice. do 2 f_equal. lia. }
    assert (Hseglen : Js.len seg = Z.min target (Js.len cleaned - i)).
    { unfold Js.len at 1. rewrite <- MatchFacts.chars_length, Hseg.
      rewrite length_take, length_drop. lia. }
    exists (seg :: rest). split; [done |]. split; [| split; [| split; [| split]]].
    + simpl. rewrite Hcat, Hseg.
      replace (Z.to_nat (i + target)) with (Z.to_nat i + Z.to_nat target)%nat by lia.
      rewrite <- drop_drop. apply take_drop.
    + constructor; [lia | done].
    + intros [| k] s; simpl.
      * intros [= <-] Hk. destruct rest as [| r rest']; [simpl in Hk; lia |].
        destruct (decide (Js.len cleaned <= i + target)) as [Hend |]; [| lia].
        by specialize (Hnil Hend).
      * intros Hs Hk. apply (Hfull k s Hs). lia.
    + lia.
    + intros _. simpl length. rewrite Nat2Z.inj_succ.
      destruct (decide (Js.len cleaned <= i + target)) as [Hend | Hmore].
      * rewrite (Hnil Hend). simpl. lia.
      * destruct Hcount as [Hlo Hhi]; [lia |]. split; nia.
  - exists []. split; [done |]. split; [| split; [done |]].
    + simpl. rewrite drop_ge; [done | lia].
    + split; [done |]. split; [done | lia].
Qed.

(** The segments of a page, for a target of at least one character: put
    together they are the text with its white space squeezed; all but
    the last have [target] characters and the last has at most as many;
    they are as few as that allows, and only an empty text gives an
    empty segment. *)
Theorem segments_cover_the_text (text : string) (target : Z)
    (Htarget : 1 <= target) :
  exists segs,
    chunkTextByChars text target = Some segs
    /\ concat (map Js.chars segs) = Js.chars (squeeze text)
    /\ Forall (fun s => Js.len s <= target) segs
    /\ (forall k s, segs !! k = Some s -> (S k < length segs)%nat ->
        Js.len s = target)
    /\ (squeeze text <> ""%string -> Forall (fun s => s <> ""%string) segs)
    /\ (Z.of_nat (length segs) - 1) * target < Z.max 1 (Js.len (squeeze text))
    /\ Z.max 1 (Js.len (squeeze text)) <= Z.of_nat (length segs) * target.
Proof.
  unfold chunkTextByChars. set (cleaned := squeeze text).
  pose proof (SearchFacts.len_nonneg cleaned) as Hnn.
  destruct (Js.len cleaned <=? target) eqn:Hfit.
  - apply Z.leb_le in Hfit. exists [cleaned]. split; [done |].
    split; [simpl; by rewrite app_nil_r |]. split; [by repeat constructor |].
    split; [intros k s _ Hk; simpl in Hk; lia |].
    split; [by repeat constructor |]. simpl. lia.
  - apply Z.leb_gt in Hfit.
    destruct (sliceLoop_spec cleaned target Htarget (String.length cleaned) 0)
      as (segs & Hrun & Hcat & Hall & Hfull & _ & Hcount);
      [lia | unfold Js.len; lia |].
    destruct Hcount as [Hlo Hhi]; [lia |].
    exists segs. split; [done |]. split; [done |].
    split; [eapply Forall_impl; [exact Hall |]; simpl; lia |].
    split; [done |]. split; [| lia].
    intros _. eapply Forall_impl; [exact Hall |]. simpl.
    intros s Hs ->. unfold Js.len in Hs. simpl in Hs. lia.
Qed.

Lemma segments_cover_the_text_witness :
  exists segs, chunkTextByChars "a  page of   text" 5 = Some segs.
Proof.
  destruct (segments_cover_the_text "a  page of   text" 5) as (segs & H & _).
  - lia.
  - by exists segs.
Defined.

(** *** Ranges of lines *)

Lemma lineLoop_spec lines n (Hn : 1 <= n) :
  forall fuel i,
    0 <= i -> i mod n = 0 -> Z.of_nat (length lines) - i <= Z.of_nat fuel ->
    exists out,
      lineLoop fuel lines n i = Some out
      /\ Forall
           (fun c =>
              i + 1 <= lc_start c /\ lc_start c <= lc_end c
              /\ lc_end c = Z.min (Z.of_nat (length lines)) (lc_start c - 1 + n)
              /\ (lc_start c - 1) mod n = 0
              /\ lc_text c <> ""%string
              /\ lc_text c
                 = Js.trim
                     (joinLines
                        (take (Z.to_nat (lc_end c - (lc_start c - 1)))
                           (drop (Z.to_nat (lc_start c - 1)) lines))))
           out
      /\ StronglySorted (fun a b => lc_end a < lc_start b) out.
Proof.
  induction fuel as [| fuel IH]; intros i Hi Hmod Hfuel;
    cbn [lineLoop]; destruct (i <? Z.of_nat (length lines)) eqn:Hlt;
    try (apply Z.ltb_lt in Hlt); try (apply Z.ltb_ge in Hlt); try lia.
  - exists []. split; [done |]. split; constructor.
  - destruct (IH (i + n)) as (rest & -> & Hall & Hsorted); [lia | | lia |].
    { rewrite <- (Z.mul_1_l n) at 1. by rewrite Z.mod_add by lia. }
    assert (Hweak : Forall (fun c => i + 1 <= lc_start c /\ i + n < lc_start c) rest).
    { eapply Forall_impl; [exact Hall |]. simpl. lia. }
    simpl.
    match goal with
    | |- context [String.eqb ?t ""] =>
        destruct (String.eqb_spec t "") as [Hempty | Hvisible]
    end.
    + exists rest. split; [done |]. split; [| done].
      eapply Forall_impl; [exact Hall |]. simpl. intros c (? & ?). split; [lia | done].
    + eexists. split; [done |]. split.
      * constructor.
        -- simpl. replace (i + 1 - 1) with i by lia.
           split; [lia |]. split; [lia |]. split; [done |]. split; [done |].
           split; [done |]. done.
        -- eapply Forall_impl; [exact Hall |]. simpl.
           intros c (? & ?). split; [lia | done].
      * constructor; [done |].
        eapply Forall_impl; [exact Hweak |]. simpl. lia.
  - exists []. split; [done |]. split; constructor.
Qed.

(** The line chunks of a file, for at least one line per chunk: each is
    a range of lines [start..end], counted from one, that starts on a
    multiple of [linesPerChunk] and ends [linesPerChunk] lines later or
    with the file; its text is that of these lines, trimmed, and is not
    empty; the ranges come in order and do not overlap. *)
Theorem line_chunks_are_ordered_ranges (lines : list string) (linesPerChunk : Z)
    (Hpositive : 1 <= linesPerChunk) :
  exists out,
    chunkLines lines linesPerChunk = Some out
    /\ Forall
         (fun c =>
            1 <= lc_start c /\ lc_start c <= lc_end c
            /\ lc_end c
               = Z.min (Z.of_nat (length lines)) (lc_start c - 1 + linesPerChunk)
            /\ (lc_start c - 1) mod linesPerChunk = 0
            /\ lc_text c <> ""%string
            /\ lc_text c
               = Js.trim
                   (joinLines
                      (take (Z.to_nat (lc_end c - (lc_start c - 1)))
                         (drop (Z.to_nat (lc_start c - 1)) lines))))
         out
    /\ StronglySorted (fun a b => lc_end a < lc_start b) out.
Proof.
  unfold chunkLines.
  destruct (lineLoop_spec lines linesPerChunk Hpositive (length lines) 0)
    as (out & Hrun & Hall & Hsorted); [lia | done | lia |].
  exists out. split; [done |]. split; [| done].
  eapply Forall_impl; [exact Hall |]. simpl. intros c (? & ?). split; [lia | done].
Qed.

Lemma line_chunks_are_ordered_ranges_witness :
  exists out, chunkLines ["import os"; ""; "print(1)"]%string 2 = Some out.
Proof.
  destruct (line_chunks_are_ordered_ranges ["import os"; ""; "print(1)"]%string 2)
    as (out & H & _).
  - lia.
  - by exists out.
Defined.

(** *** Chunk identifiers and the order of a file *)

Lemma digitChar_spec d :
  0 <= d < 10 ->
  Js.isDigit (Js.digitChar d) = true
  /\ Z.of_N (Js.code (Js.digitChar d) - 48) = d
  /\ Js.digitChar d <> ":"%char.
Proof.
  intros Hd.
  assert (Hcases : d = 0 \/ d = 1 \/ d = 2 \/ d = 3 \/ d = 4 \/ d = 5
                   \/ d = 6 \/ d = 7 \/ d = 8 \/ d = 9) by lia.
  repeat (destruct Hcases as [-> | Hcases]; [by vm_compute |]).
  subst d. by vm_compute.
Qed.

(** [String(n)] writes digits that [Number] reads back. *)
Lemma digitsOf_spec : forall fuel n acc,
  0 <= n -> (Z.to_nat n < fuel)%nat ->
  exists ds,
    Js.digitsOf fuel n acc = ds ++ acc
    /\ ds <> []
    /\ Forall (fun c => Js.isDigit c = true /\ c <> ":"%char) ds
    /\ forall a0,
         fold_left digitStep ds a0 = a0 * 10 ^ Z.of_nat (length ds) + n.
Proof.
  induction fuel as [| fuel IH]; intros n acc Hn Hfuel; [lia |].
  cbn [Js.digitsOf]. destruct (n <? 10) eqn:Hsmall.
  - apply Z.ltb_lt in Hsmall.
    destruct (digitChar_spec n) as (Hd & Hv & Hc); [lia |].
    exists [Js.digitChar n]. split; [done |]. split; [done |].
    split; [by repeat constructor |].
    intros a0. simpl. unfold digitStep. rewrite Hv. lia.
  - apply Z.ltb_ge in Hsmall.
    assert (Hdiv : 0 <= n / 10 < n).
    { split; [apply Z.div_pos; lia | apply Z.div_lt; lia]. }
    destruct (IH (n / 10) (Js.digitChar (n mod 10) :: acc))
      as (ds & -> & Hne & Hall & Hval); [lia | lia |].
    destruct (digitChar_spec (n mod 10)) as (Hd & Hv & Hc);
      [apply Z.mod_pos_bound; lia |].
    exists (ds ++ [Js.digitChar (n mod 10)]).
    split; [by rewrite <- app_assoc |].
    split; [by destruct ds |].
    split; [apply Forall_app; split; [done | by repeat constructor] |].
    intros a0. rewrite fold_left_app, Hval. simpl. unfold digitStep at 1.
    rewrite Hv, length_app, Nat2Z.inj_add. simpl Z.of_nat.
    rewrite Z.pow_add_r by lia. pose proof (Z.div_mod n 10). lia.
Qed.

Lemma ofZ_spec n :
  0 <= n ->
  exists ds,
    Js.chars (Js.ofZ n) = ds
    /\ ds <> []
    /\ Forall (fun c => Js.isDigit c = true /\ c <> ":"%char) ds
    /\ Js.numberOfDigits ds = n.
Proof.
  intros Hn. unfold Js.ofZ. destruct (n <? 0) eqn:Hneg; [apply Z.ltb_lt in Hneg; lia |].
  destruct (digitsOf_spec (S (Z.to_nat n)) n [] Hn) as (ds & Hds & Hne & Hall & Hval);
    [lia |].
  rewrite app_nil_r in Hds. exists ds. rewrite MatchFacts.chars_str.
  split; [done |]. split; [done |]. split; [done |].
  unfold Js.numberOfDigits. change (fold_left _ ds 0) with (fold_left digitStep ds 0).
  rewrite Hval. lia.
Qed.

Lemma parseSegmentIndexL_skip c rest :
  c <> ":"%char -> parseSegmentIndexL (c :: rest) = parseSegmentIndexL rest.
Proof.
  intros Hc. apply Ascii.eqb_neq in Hc.
  destruct rest as [| b [| d r]]; simpl; try done. by rewrite Hc.
Qed.

Lemma parseSegmentIndexL_skip_all l rest :
  Forall (fun c => c <> ":"%char) l ->
  parseSegmentIndexL (l ++ rest) = parseSegmentIndexL rest.
Proof.
  induction 1 as [| c l Hc _ IH]; [done |].
  simpl app. by rewrite parseSegmentIndexL_skip.
Qed.

Lemma parseSegmentIndexL_page rest :
  parseSegmentIndexL (":"%char :: "p"%char :: rest) = parseSegmentIndexL rest.
Proof.
  transitivity (parseSegmentIndexL ("p"%char :: rest)).
  - by destruct rest.
  - by apply parseSegmentIndexL_skip.
Qed.

Lemma takeDigits_all ds :
  Forall (fun c => Js.isDigit c = true /\ c <> ":"%char) ds -> takeDigits ds = ds.
Proof.
  induction 1 as [| c l [Hc _] _ IH]; simpl; [done |]. by rewrite Hc, IH.
Qed.

Lemma parseSegmentIndexL_hit ds :
  ds <> [] ->
  Forall (fun c => Js.isDigit c = true /\ c <> ":"%char) ds ->
  parseSegmentIndexL (":"%char :: "s"%char :: ds) = Js.numberOfDigits ds.
Proof.
  intros Hne Hall. destruct ds as [| d r]; [done |].
  pose proof (takeDigits_all _ Hall) as Htake.
  apply Forall_cons in Hall as [[Hd _] _].
  cbn [parseSegmentIndexL]. change (Ascii.eqb ":" ":") with true.
  change (Ascii.eqb "s" "s") with true. rewrite Hd. simpl andb. cbv iota.
  by rewrite Htake.
Qed.

Lemma fileIdFor_no_colon files :
  Forall (fun c => c <> ":"%char) (Js.chars (fileIdFor files)).
Proof.
  unfold fileIdFor. rewrite chars_append.
  destruct (ofZ_spec (Z.of_nat (length files) + 1)) as (ds & -> & _ & Hall & _);
    [lia |].
  apply Forall_app. split; [by repeat constructor |].
  eapply Forall_impl; [exact Hall |]. by intros c [_ ?].
Qed.

Lemma parse_pdfChunkId files pageNo s :
  0 <= pageNo -> 0 <= s ->
  parseSegmentIndex (pdfChunkId (fileIdFor files) pageNo s) = s + 1.
Proof.
  intros Hp Hs. unfold parseSegmentIndex, pdfChunkId.
  rewrite !chars_append.
  destruct (ofZ_spec pageNo Hp) as (ps & -> & _ & Hps & _).
  destruct (ofZ_spec (s + 1)) as (ds & -> & Hne & Hds & Hval); [lia |].
  rewrite parseSegmentIndexL_skip_all by apply fileIdFor_no_colon.
  change (Js.chars ":p") with [":"%char; "p"%char].
  change (Js.chars ":s") with [":"%char; "s"%char].
  simpl app. rewrite parseSegmentIndexL_page.
  rewrite parseSegmentIndexL_skip_all
    by (eapply Forall_impl; [exact Hps |]; by intros c [_ ?]).
  by rewrite parseSegmentIndexL_hit.
Qed.

Lemma chunkTextByChars_runs text target :
  1 <= target -> exists segs, chunkTextByChars text target = Some segs.
Proof.
  intros Htarget. unfold chunkTextByChars.
  destruct (_ <=? target); [by eexists |].
  destruct (sliceLoop_spec (squeeze text) target Htarget
              (String.length (squeeze text)) 0) as (segs & Hrun & _);
    [lia | unfold Js.len; lia |].
  by exists segs.
Qed.

Lemma sorted_by_index {A} (key : A -> Z) (l : list A) : forall b,
  (forall i c, l !! i = Some c -> key c = b + Z.of_nat i) ->
  StronglySorted (fun x y => key x < key y) l.
Proof.
  induction l as [| x l IH]; intros b Hkey; constructor.
  - apply (IH (b + 1)). intros i c Hc.
    rewrite (Hkey (S i) c Hc). lia.
  - apply Forall_lookup. intros i y Hy.
    rewrite (Hkey O x eq_refl), (Hkey (S i) y Hy). lia.
Qed.

Lemma sorted_NoDup {A B} (f : A -> B) (h : B -> Z) (l : list A) :
  StronglySorted (fun x y => h (f x) < h (f y)) l -> NoDup (map f l).
Proof.
  induction 1 as [| x l _ IH Hx]; simpl; constructor; [| done].
  intros Hin. apply list_elem_of_In, in_map_iff in Hin as (y & Hy & Hin).
  rewrite Forall_forall in Hx. apply list_elem_of_In in Hin.
  specialize (Hx y Hin). rewrite Hy in Hx. lia.
Qed.

(** The chunks that the builder makes of a page sort back into the order
    in which it made them: the segment number that the reader takes out
    of the identifier of the [s]-th chunk is [s], counted from one, and
    the order key of the chunk is [1000 * page + s], so that up to 999
    segments the chunks of a page come before those of the next page.
    No two chunks of a page share an identifier. *)
Theorem page_chunks_sort_back
    (files : list FileMeta) (fileName : string) (year : option string)
    (pageNo : Z) (pageText : string)
    (Hpage : 0 <= pageNo) :
  exists cs,
    pageChunks (fileIdFor files) fileName year pageNo pageText = Some cs
    /\ (forall s c, cs !! s = Some c ->
        parseSegmentIndex (chunkId c) = Z.of_nat s + 1
        /\ chunkOrderKey c = pageNo * 1000 + (Z.of_nat s + 1)
        /\ ((length cs <= 999)%nat -> chunkOrderKey c < (pageNo + 1) * 1000))
    /\ StronglySorted (fun a b => chunkOrderKey a < chunkOrderKey b) cs
    /\ NoDup (map chunkId cs).
Proof.
  unfold pageChunks.
  assert (Hsegs : exists segs,
             (if String.eqb pageText "" then Some []
              else imap
                     (fun s segment =>
                        {| chunkId := pdfChunkId (fileIdFor files) pageNo (Z.of_nat s);
                           fileId := fileIdFor files; fileName := fileName;
                           kind := pdf; year := year; page := Some pageNo;
                           startLine := None; endLine := None;
                           text := segment |})
                     <$> chunkTextByChars pageText 3500)
             = Some (imap
                       (fun s segment =>
                          {| chunkId := pdfChunkId (fileIdFor files) pageNo (Z.of_nat s);
                             fileId := fileIdFor files; fileName := fileName;
                             kind := pdf; year := year; page := Some pageNo;
                             startLine := None; endLine := None;
                             text := segment |})
                       segs)).
  { destruct (String.eqb pageText ""); [by exists [] |].
    destruct (chunkTextByChars_runs pageText 3500) as (segs & ->); [lia |].
    by exists segs. }
  destruct Hsegs as (segs & ->). eexists. split; [done |].
  set (cs := imap _ segs).
  assert (Hat : forall s c, cs !! s = Some c ->
            parseSegmentIndex (chunkId c) = Z.of_nat s + 1
            /\ chunkOrderKey c = pageNo * 1000 + (Z.of_nat s + 1)).
  { intros s c. unfold cs. rewrite list_lookup_imap.
    destruct (segs !! s) as [seg |]; [| done]. simpl. intros [= <-]. simpl.
    pose proof (parse_pdfChunkId files pageNo (Z.of_nat s) Hpage ltac:(lia)) as Hparse.
    split; [done |]. unfold chunkOrderKey. simpl. by rewrite Hparse. }
  split; [| split].
  - intros s c Hc. destruct (Hat s c Hc) as [Hparse Hkey].
    split; [done |]. split; [done |].
    intros Hfew. apply lookup_lt_Some in Hc. lia.
  - apply (sorted_by_index chunkOrderKey cs (pageNo * 1000 + 1)).
    intros s c Hc. destruct (Hat s c Hc) as [_ ->]. lia.
  - apply (sorted_NoDup chunkId parseSegmentIndex).
    apply (sorted_by_index (fun c => parseSegmentIndex (chunkId c)) cs 1).
    intros s c Hc. destruct (Hat s c Hc) as [-> _]. lia.
Qed.

Lemma page_chunks_sort_back_witness :
  exists cs,
    pageChunks (fileIdFor []) "rules.pdf" (Some "2025"%string) 3 "Brakes" = Some cs.
Proof.
  destruct (page_chunks_sort_back [] "rules.pdf" (Some "2025"%string) 3 "Brakes")
    as (cs & H & _).
  - lia.
  - by exists cs.
Defined.

(** The chunks that the builder makes of a text file are in the order of
    the reader: their order keys, the numbers of their first lines, go
    up strictly.  Each covers at most 140 lines of the file and has
    text. *)
Theorem line_chunks_sort_back (id fileName : string) (lines : list string) :
  exists cs,
    lineChunks id fileName lines = Some cs
    /\ StronglySorted (fun a b => chunkOrderKey a < chunkOrderKey b) cs
    /\ Forall
         (fun c =>
            kind c = text_kind /\ page c = None
            /\ exists first last,
                 startLine c = Some first /\ endLine c = Some last
                 /\ 1 <= first <= last /\ last < first + 140
                 /\ last <= Z.of_nat (length lines)
                 /\ text c <> ""%string)
         cs.
Proof.
  unfold lineChunks, chunkLines.
  destruct (lineLoop_spec lines 140 ltac:(lia) (length lines) 0)
    as (out & -> & Hall & Hsorted); [lia | done | lia |].
  eexists. split; [done |]. split.
  - induction Hsorted as [| c out _ IH Hc]; simpl; constructor.
    + apply IH. by apply Forall_cons in Hall as [_ ?].
    + apply Forall_cons in Hall as [(_ & Hrange & _) _].
      apply Forall_forall. intros y Hy.
      apply list_elem_of_In, in_map_iff in Hy as (c' & <- & Hin).
      rewrite Forall_forall in Hc. apply list_elem_of_In in Hin.
      specialize (Hc c' Hin). unfold chunkOrderKey. simpl. lia.
  - apply Forall_forall. intros y Hy.
    apply list_elem_of_In, in_map_iff in Hy as (c & <- & Hin).
    rewrite Forall_forall in Hall. apply list_elem_of_In in Hin.
    destruct (Hall c Hin) as (Hs & Hse & He & _ & Htext & _). simpl.
    split; [done |]. split; [done |].
    exists (lc_start c), (lc_end c). split; [done |]. split; [done |].
    split; [lia |]. split; [lia |]. split; [lia | done].
Qed.

End BuildFacts.

(** ** Properties of the manifest *)

Module SummaryFacts.
Import Docs Summaries CorpusSamples.

Lemma uniqFrom_elem_of items : forall seen x,
  x ∈ Js.uniqFrom seen items <-> x ∈ items /\ x ∉ seen.
Proof.
  induction items as [| y r IH]; intros seen x; simpl.
  - rewrite elem_of_nil. tauto.
  - case_bool_decide as Hy.
    + rewrite IH, elem_of_cons. split; [tauto |].
      intros [[-> | ?] ?]; [done | tauto].
    + rewrite !elem_of_cons, IH, elem_of_union, elem_of_singleton.
      split.
      * intros [-> | [? ?]]; [tauto |]. split; [tauto |]. tauto.
      * intros [[-> | ?] ?]; [tauto |].
        destruct (decide (x = y)) as [-> | Hne]; [tauto |]. tauto.
Qed.

Section Api.
Context {AsPlainObject : Type}.
Context (JSON_parse : string -> option (@IndexBundle AsPlainObject)).
Context (MiniSearch_loadJS : AsPlainObject -> option MiniSearch).
Context (localeCompare : string -> string -> Z).
Context (platformMessage : LoadError -> string).

Lemma yearsOf_spec (b : @IndexBundle AsPlainObject) :
  NoDup (yearsOf localeCompare b)
  /\ forall y,
       y ∈ yearsOf localeCompare b
       <-> y <> ""%string
           /\ exists f, f ∈ files b /\ f_kind f = pdf /\ f_year f = Some y.
Proof.
  unfold yearsOf. split.
  - rewrite (JsProofs.sortBy_perm _ _). apply (JsProofs.uniqFrom_NoDup _ ∅).
  - intros y. rewrite (JsProofs.sortBy_perm _ _). unfold Js.uniq.
    rewrite uniqFrom_elem_of, DocsProofs.elem_of_List_filter, list_elem_of_omap.
    split.
    + intros [[(f & Hf & Hy) Hne] _].
      apply DocsProofs.elem_of_List_filter in Hf as [Hf Hpdf].
      apply andb_prop in Hpdf as [Hpdf _].
      split; [by apply negb_true_iff, String.eqb_neq in Hne |].
      exists f. split; [done |]. split; [| done].
      by destruct (f_kind f).
    + intros [Hne (f & Hf & Hpdf & Hy)]. split; [| set_solver].
      split; [| by apply negb_true_iff, String.eqb_neq].
      exists f. split; [| done].
      apply DocsProofs.elem_of_List_filter. split; [done |].
      rewrite Hpdf, Hy. simpl. by apply negb_true_iff, String.eqb_neq.
Qed.

(** The manifest and the file summaries tell the same of the same
    world: the manifest counts as many files as there are summaries,
    and both leave the world as a load of the index leaves it.  A
    manifest that reports the index ready is read off the loaded
    bundle: it lists, each once, the years of its PDF files that are
    not empty.  Otherwise the load has failed and the manifest holds
    the fallback: the years 2026 and 2025, no files, no chunks, and a
    message. *)
Theorem manifest_reflects_bundle (w : World) :
  let m := fst (getManifest JSON_parse MiniSearch_loadJS localeCompare
                  platformMessage w) in
  let summaries := fst (getFileSummaries JSON_parse MiniSearch_loadJS w) in
  fileCount m = Z.of_nat (length summaries)
  /\ snd (getManifest JSON_parse MiniSearch_loadJS localeCompare
            platformMessage w)
     = snd (loadIndex JSON_parse MiniSearch_loadJS w)
  /\ snd (getFileSummaries JSON_parse MiniSearch_loadJS w)
     = snd (loadIndex JSON_parse MiniSearch_loadJS w)
  /\ match fst (loadIndex JSON_parse MiniSearch_loadJS w) with
     | Ok loaded =>
         indexReady m = true
         /\ m_generatedAt m = Some (generatedAt (bundle loaded))
         /\ chunkCount m = Z.of_nat (length (chunks (bundle loaded)))
         /\ map s_fileName summaries = map f_fileName (files (bundle loaded))
         /\ NoDup (years m)
         /\ forall y,
              y ∈ years m
              <-> y <> ""%string
                  /\ exists f, f ∈ files (bundle loaded)
                               /\ f_kind f = pdf /\ f_year f = Some y
     | Err e =>
         indexReady m = false
         /\ years m = ["2026"; "2025"]%string
         /\ fileCount m = 0 /\ chunkCount m = 0
         /\ summaries = []
         /\ (forall p, e = MissingIndexError p ->
             exists rest,
               message m = Some ("Missing docs index at " ++ p ++ rest)%string)
     end.
Proof.
  unfold getManifest, getFileSummaries.
  destruct (loadIndex JSON_parse MiniSearch_loadJS w) as [[loaded | e] w'];
    simpl.
  - rewrite length_map. split; [done |]. split; [done |]. split; [done |].
    split; [done |]. split; [done |]. split; [done |].
    split; [by rewrite map_map |]. apply yearsOf_spec.
  - split; [done |]. split; [done |]. split; [done |].
    split; [done |]. split; [done |]. split; [done |]. split; [done |].
    split; [done |]. intros p ->. simpl. eauto.
Qed.

End Api.

End SummaryFacts.
